(** * Input locks and genesis state of the rivine node

    A shallow embedding of [types/inputlock.go] (package [types]) and of
    [CreateGenesisState] (package [consensus]), together with the
    properties the specification states about them.

    Conventions of the embedding:
    - [[]byte] is [list byte]; a nil slice and an empty slice are both [[]]
      (the code only takes [len] of them and encodes them, and both encode
      alike);
    - fixed-size arrays ([[32]byte], [[16]byte]) are [list byte] too, their
      size being a well-formedness condition where it matters;
    - [uint64] is [N];
    - a Go [error] result is [option error], [None] being [nil];
    - a pointer receiver that is mutated is passed in and returned;
    - a call that may panic returns a [result]. *)

From Stdlib Require Import NArith ZArith Lia List String.
From Stdlib Require Import Strings.Byte.
From stdpp Require Import base decidable option list sorting countable strings gmap.

Local Open Scope N_scope.

(** ** Bytes *)

#[global] Instance byte_eq_dec : EqDecision byte.
Proof.
  intros x y. destruct (decide (Byte.to_N x = Byte.to_N y)) as [e|n].
  - left. apply (f_equal Byte.of_N) in e. rewrite !Byte.of_to_N in e.
    by injection e.
  - right. intros ->. by apply n.
Defined.

#[global] Instance byte_countable : Countable byte.
Proof.
  refine (inj_countable' Byte.to_N (fun n => default Byte.x00 (Byte.of_N n)) _).
  intros b. by rewrite Byte.of_to_N.
Defined.

Abbreviation bytes := (list byte) (only parsing).

Definition byte_of_N (n : N) : byte := default Byte.x00 (Byte.of_N n).

(** [zeroes n] is the zero value of [[n]byte]. *)
Definition zeroes (n : nat) : bytes := replicate n Byte.x00.

(** ** Errors and panics *)

Inductive error : Type :=
  | ErrInvalidInputLockType
  | ErrUnlockConditionLocked
  | ErrInvalidPreImageSha256
  | ErrInvalidRedeemer
  (* declared in package types, outside inputlock.go *)
  | ErrEntropyKey
  (* errors.New and fmt.Errorf values *)
  | errorString (msg : string)
  (* errors of the packages encoding and crypto *)
  | ErrUnexpectedEOF
  | ErrTrailingBytes
  | ErrInvalidSignature.

#[global] Instance error_eq_dec : EqDecision error.
Proof. intros x y. unfold Decision. decide equality. apply string_dec. Defined.

Inductive result (A : Type) : Type :=
  | Ret (a : A)
  | Panic (msg : string).
Arguments Ret {A} a.
Arguments Panic {A} msg.

Definition rbind {A B} (m : result A) (k : A -> result B) : result B :=
  match m with
  | Ret a => k a
  | Panic msg => Panic msg
  end.

Declare Scope go_scope.
Delimit Scope go_scope with go.
Notation "x <-! m ; k" := (rbind m (fun x => k))
  (at level 100, m at next level, right associativity) : go_scope.
Local Open Scope go_scope.

(** ** Package encoding

    The package is not among the sources; only its calls are. *)

Module encoding.

(** The outcome of reading a value off a byte stream. *)
Inductive decoded (A : Type) : Type :=
  | Decoded (a : A) (rest : bytes)
  | DecodeErr (e : error).
Arguments Decoded {A} a rest.
Arguments DecodeErr {A} e.

Definition Decoder (A : Type) : Type := bytes -> decoded A.

Definition dbind {A B} (d : Decoder A) (k : A -> Decoder B) : Decoder B :=
  fun r => match d r with
           | Decoded a rest => k a rest
           | DecodeErr e => DecodeErr e
           end.

Definition dret {A} (a : A) : Decoder A := fun r => Decoded a r.

(** Little-endian digits of [n], [k] of them. *)
Fixpoint le_bytes (k : nat) (n : N) : bytes :=
  match k with
  | O => []
  | S k' => byte_of_N (n mod 256) :: le_bytes k' (n / 256)
  end.

Fixpoint le_value (bs : bytes) : N :=
  match bs with
  | [] => 0
  | b :: bs' => Byte.to_N b + 256 * le_value bs'
  end.

(** Modelled from the spec: the integer encoding of the absent package
    encoding, "little-endian fixed-width for counters" (8 bytes). *)
Definition EncUint64 (n : N) : bytes := le_bytes 8 n.

(** [io.ReadFull]: exactly [n] bytes or an error. *)
Definition readFull (n : N) : Decoder bytes :=
  fun r =>
    if (n <=? N.of_nat (length r))%N
    then Decoded (take (N.to_nat n) r) (drop (N.to_nat n) r)
    else DecodeErr ErrUnexpectedEOF.

Definition DecUint64 : Decoder N :=
  dbind (readFull 8) (fun bs => dret (le_value bs)).

(** Modelled from the spec: byte slices of the absent package encoding,
    "8-byte little-endian length prefix then concatenated element
    encodings". *)
Definition EncBytes (b : bytes) : bytes :=
  EncUint64 (N.of_nat (length b)) ++ b.

Definition DecBytes : Decoder bytes :=
  dbind DecUint64 readFull.

(** A byte array [[n]byte] is written as it is, without a prefix. *)
Definition EncArray (b : bytes) : bytes := b.

Definition DecArray (n : nat) : Decoder bytes := readFull (N.of_nat n).

(** Modelled from the spec: [encoding.Unmarshal] of the absent package
    encoding; the codec "rejects trailing bytes at the top level". The
    destination is returned on success only: what a failed decode leaves
    in it is not fixed by the spec. *)
Definition Unmarshal {A} (d : Decoder A) (b : bytes) : A + error :=
  match d b with
  | Decoded a [] => inl a
  | Decoded _ (_ :: _) => inr ErrTrailingBytes
  | DecodeErr e => inr e
  end.

End encoding.

(** ** Package types: declarations outside inputlock.go *)

(** [UnlockType] is one byte. The nil type is 0x00 (spec, data model); the
    comments of inputlock.go give 0x01 to the single-signature lock and
    0x02 to the atomic-swap lock. *)
Definition UnlockType : Type := byte.
Definition UnlockTypeNil : UnlockType := Byte.x00.
Definition UnlockTypeSingleSignature : UnlockType := Byte.x01.
Definition UnlockTypeAtomicSwap : UnlockType := Byte.x02.

(** Modelled from the spec: sizes of the absent package crypto, "public key
    is 32 bytes, signature 64 bytes", hashes being 32 bytes. *)
Definition HashSize : nat := 32.
Definition PublicKeySize : nat := 32.
Definition SignatureSize : nat := 64.

(** [sha256.Size] of Go's standard library. *)
Definition sha256_Size : nat := 32.

(** The algorithm tag of a public key, a fixed array of 16 bytes. *)
Definition SpecifierLen : nat := 16.
Definition Specifier : Type := bytes.

Definition Timestamp : Type := N.

Record UnlockHash : Type := mkUnlockHash {
  uh_Type : UnlockType;
  uh_Hash : bytes
}.

#[global] Instance UnlockHash_eq_dec : EqDecision UnlockHash.
Proof. solve_decision. Defined.

(** Modelled from the spec: [NewUnlockHash], "one-byte UnlockType tag +
    32-byte hash of the condition encoding". *)
Definition NewUnlockHash (t : UnlockType) (h : bytes) : UnlockHash :=
  {| uh_Type := t; uh_Hash := h |}.

(** The zero value [UnlockHash{}]. *)
Definition UnlockHash_zero : UnlockHash :=
  {| uh_Type := UnlockTypeNil; uh_Hash := zeroes HashSize |}.

Record SiaPublicKey : Type := mkSiaPublicKey {
  Algorithm : Specifier;
  Key : bytes
}.

#[global] Instance SiaPublicKey_eq_dec : EqDecision SiaPublicKey.
Proof. solve_decision. Defined.

(** The values passed as [extraObjects ...interface{}] to the signature
    hash: inputlock.go only ever passes an atomic-swap secret. *)
Inductive Object : Type :=
  | ObjAtomicSwapSecret (secret : bytes).

(** What inputlock.go takes from the rest of the repository and from Go's
    libraries without their code being among the sources. *)
Class Externals : Type := {
  (* package types *)
  Transaction : Type;
  InputSigHash : Transaction -> N -> list Object -> bytes;
  SignatureEntropy : Specifier;
  SignatureEd25519 : Specifier;
  SignatureEntropy_Ed25519 : SignatureEntropy <> SignatureEd25519;
  (* package crypto *)
  HashBytes : bytes -> bytes;
  SignHash : bytes -> bytes -> bytes;
  VerifyHash : bytes -> bytes -> bytes -> option error;
  (* crypto/sha256 *)
  Sum256 : bytes -> bytes
}.

(** ** types/inputlock.go *)

Record RawInputLockFormat : Type := mkRawInputLockFormat {
  rf_Condition : bytes;
  rf_Fulfillment : bytes
}.

Record UnknownInputLock : Type := mkUnknownInputLock {
  u_Condition : bytes;
  u_Fulfillment : bytes
}.

Record SingleSignatureInputLock : Type := mkSingleSignatureInputLock {
  ss_PublicKey : SiaPublicKey;
  ss_Signature : bytes
}.

Record AtomicSwapRefundKey : Type := mkAtomicSwapRefundKey {
  rk_PublicKey : SiaPublicKey;
  rk_SecretKey : bytes
}.

Record AtomicSwapClaimKey : Type := mkAtomicSwapClaimKey {
  ck_PublicKey : SiaPublicKey;
  ck_SecretKey : bytes;
  ck_Secret : bytes
}.

Record AtomicSwapInputLock : Type := mkAtomicSwapInputLock {
  as_Timelock : Timestamp;
  as_Sender : UnlockHash;
  as_Receiver : UnlockHash;
  as_HashedSecret : bytes;
  as_PublicKey : SiaPublicKey;
  as_Signature : bytes;
  as_Secret : bytes
}.

Record AtomicSwapCondition : Type := mkAtomicSwapCondition {
  c_Sender : UnlockHash;
  c_Receiver : UnlockHash;
  c_HashedSecret : bytes;
  c_Timelock : Timestamp
}.

Record AtomicSwapFulfillment : Type := mkAtomicSwapFulfillment {
  f_PublicKey : SiaPublicKey;
  f_Signature : bytes;
  f_Secret : bytes
}.

(** The dynamic type of the [key interface{}] argument of [Lock]. *)
Inductive LockKey : Type :=
  | KeySecretKey (sk : bytes)
  | KeyAtomicSwapClaimKey (k : AtomicSwapClaimKey)
  | KeyAtomicSwapRefundKey (k : AtomicSwapRefundKey)
  | KeyOther (typeName : string).

Definition typeName (key : LockKey) : string :=
  match key with
  | KeySecretKey _ => "crypto.SecretKey"
  | KeyAtomicSwapClaimKey _ => "types.AtomicSwapClaimKey"
  | KeyAtomicSwapRefundKey _ => "types.AtomicSwapRefundKey"
  | KeyOther n => n
  end.

(** Zero values, as [new(T)] makes them. *)
Definition SiaPublicKey_zero : SiaPublicKey :=
  {| Algorithm := zeroes SpecifierLen; Key := [] |}.

Definition UnknownInputLock_zero : UnknownInputLock :=
  {| u_Condition := []; u_Fulfillment := [] |}.

Definition SingleSignatureInputLock_zero : SingleSignatureInputLock :=
  {| ss_PublicKey := SiaPublicKey_zero; ss_Signature := [] |}.

Definition AtomicSwapInputLock_zero : AtomicSwapInputLock :=
  {| as_Timelock := 0;
     as_Sender := UnlockHash_zero;
     as_Receiver := UnlockHash_zero;
     as_HashedSecret := zeroes sha256_Size;
     as_PublicKey := SiaPublicKey_zero;
     as_Signature := [];
     as_Secret := zeroes sha256_Size |}.

(** *** Encodings of the structures *)

Module Import codec.
Import encoding.

Definition EncUnlockType (t : UnlockType) : bytes := [t].

Definition DecUnlockType : Decoder UnlockType :=
  dbind (readFull 1) (fun bs => dret (List.hd Byte.x00 bs)).

Definition EncUnlockHash (h : UnlockHash) : bytes :=
  EncUnlockType (uh_Type h) ++ EncArray (uh_Hash h).

Definition DecUnlockHash : Decoder UnlockHash :=
  dbind DecUnlockType (fun t =>
  dbind (DecArray HashSize) (fun h =>
  dret {| uh_Type := t; uh_Hash := h |})).

Definition EncSiaPublicKey (pk : SiaPublicKey) : bytes :=
  EncArray (Algorithm pk) ++ EncBytes (Key pk).

Definition DecSiaPublicKey : Decoder SiaPublicKey :=
  dbind (DecArray SpecifierLen) (fun a =>
  dbind DecBytes (fun k =>
  dret {| Algorithm := a; Key := k |})).

Definition EncAtomicSwapCondition (c : AtomicSwapCondition) : bytes :=
  EncUnlockHash (c_Sender c) ++ EncUnlockHash (c_Receiver c)
    ++ EncArray (c_HashedSecret c) ++ EncUint64 (c_Timelock c).

Definition DecAtomicSwapCondition : Decoder AtomicSwapCondition :=
  dbind DecUnlockHash (fun s =>
  dbind DecUnlockHash (fun r =>
  dbind (DecArray sha256_Size) (fun hs =>
  dbind DecUint64 (fun tl =>
  dret {| c_Sender := s; c_Receiver := r;
          c_HashedSecret := hs; c_Timelock := tl |})))).

Definition EncAtomicSwapFulfillment (f : AtomicSwapFulfillment) : bytes :=
  EncSiaPublicKey (f_PublicKey f) ++ EncBytes (f_Signature f)
    ++ EncArray (f_Secret f).

Definition DecAtomicSwapFulfillment : Decoder AtomicSwapFulfillment :=
  dbind DecSiaPublicKey (fun pk =>
  dbind DecBytes (fun sig =>
  dbind (DecArray sha256_Size) (fun s =>
  dret {| f_PublicKey := pk; f_Signature := sig; f_Secret := s |}))).

(** [RawInputLockFormat.MarshalSia]: [EncodeAll(rf.Condition, rf.Fulfillment)]. *)
Definition RawInputLockFormat_MarshalSia (rf : RawInputLockFormat) : bytes :=
  EncBytes (rf_Condition rf) ++ EncBytes (rf_Fulfillment rf).

(** [RawInputLockFormat.UnmarshalSia]: [DecodeAll(&rf.Condition, &rf.Fulfillment)]. *)
Definition RawInputLockFormat_UnmarshalSia : Decoder RawInputLockFormat :=
  dbind DecBytes (fun c =>
  dbind DecBytes (fun f =>
  dret {| rf_Condition := c; rf_Fulfillment := f |})).

End codec.

Section InputLocks.
Context `{Externals}.
Import encoding.

(** Modelled from the spec: [crypto.HashObject] of the absent package
    crypto, "an object hash is [the hash] of the canonical encoding";
    inputlock.go applies it to a byte slice. *)
Definition HashObject (b : bytes) : bytes := HashBytes (EncBytes b).

(** *** Signatures *)

Definition strictSignatureCheck (pk : SiaPublicKey) (signature : bytes)
  : option error :=
  if decide (Algorithm pk = SignatureEntropy) then None
  else if decide (Algorithm pk = SignatureEd25519) then
    if decide (length (Key pk) <> PublicKeySize) then
      Some (errorString "invalid public key size in transaction")
    else if decide (length signature <> SignatureSize) then
      Some (errorString "invalid signature size in transaction")
    else None
  else Some (errorString "unrecognized public key type in transaction").

Definition signHashUsingSiaPublicKey (pk : SiaPublicKey) (inputIndex : N)
    (tx : Transaction) (key : LockKey) (extraObjects : list Object)
  : result (bytes * option error) :=
  if decide (Algorithm pk = SignatureEntropy) then
    Ret ([], Some ErrEntropyKey)
  else if decide (Algorithm pk = SignatureEd25519) then
    let sigHash := InputSigHash tx inputIndex extraObjects in
    match key with
    | KeySecretKey sk => Ret (SignHash sigHash sk, None)
    | _ => Panic "interface conversion: interface {} is not crypto.SecretKey"
    end
  else Ret ([], None).

Definition verifyHashUsingSiaPublicKey (pk : SiaPublicKey) (inputIndex : N)
    (tx : Transaction) (sig : bytes) (extraObjects : list Object)
  : option error :=
  if decide (Algorithm pk = SignatureEntropy) then Some ErrEntropyKey
  else if decide (Algorithm pk = SignatureEd25519) then
    match Unmarshal (DecArray PublicKeySize) (Key pk) with
    | inr err => Some err
    | inl edPK =>
      match Unmarshal (DecArray SignatureSize) sig with
      | inr err => Some err
      | inl edSig =>
        let sigHash := InputSigHash tx inputIndex extraObjects in
        match VerifyHash sigHash edPK edSig with
        | Some err => Some err
        | None => None
        end
      end
    end
  else None.

(** *** The interface [InputLock]

    [Lock] and [Decode] change the receiver; [Unlock], [StrictCheck] and
    the two encoders only read it, in the interface's documentation and
    in each of its implementations. [now] is what [CurrentTimestamp()]
    returns during the call. *)
Class InputLockMethods (S : Type) : Type := {
  Lock : S -> Timestamp -> N -> Transaction -> LockKey
         -> result (S * option error);
  Unlock : S -> Timestamp -> N -> Transaction -> result (option error);
  StrictCheck : S -> option error;
  EncodeCondition : S -> bytes;
  EncodeFulfillment : S -> bytes;
  Decode : S -> RawInputLockFormat -> S * option error
}.

(** A non-nil interface value: a dynamic type, its method table and the
    value pointed to. *)
Record InputLock : Type := mkInputLock {
  il_type : Type;
  il_methods : InputLockMethods il_type;
  il_value : il_type
}.
#[global] Arguments mkInputLock {il_type il_methods} il_value.

Definition il_Lock (l : InputLock) (now : Timestamp) (inputIndex : N)
    (tx : Transaction) (key : LockKey) : result (InputLock * option error) :=
  r <-! @Lock _ (il_methods l) (il_value l) now inputIndex tx key;
  Ret (@mkInputLock _ (il_methods l) r.1, r.2).

Definition il_Unlock (l : InputLock) : Timestamp -> N -> Transaction
    -> result (option error) :=
  @Unlock _ (il_methods l) (il_value l).

Definition il_StrictCheck (l : InputLock) : option error :=
  @StrictCheck _ (il_methods l) (il_value l).

Definition il_EncodeCondition (l : InputLock) : bytes :=
  @EncodeCondition _ (il_methods l) (il_value l).

Definition il_EncodeFulfillment (l : InputLock) : bytes :=
  @EncodeFulfillment _ (il_methods l) (il_value l).

Definition il_Decode (l : InputLock) (rf : RawInputLockFormat)
  : InputLock * option error :=
  let r := @Decode _ (il_methods l) (il_value l) rf in
  (@mkInputLock _ (il_methods l) r.1, r.2).

(** *** [InputLockProxy] *)

Record InputLockProxy : Type := mkInputLockProxy {
  t : UnlockType;
  il : option InputLock
}.

Definition nilDeref {A} : result A :=
  Panic "invalid memory address or nil pointer dereference".

Definition NewInputLockProxy (t : UnlockType) (il : option InputLock)
  : result InputLockProxy :=
  if decide (t <> UnlockTypeNil /\ il = None)
  then Panic "unexpected nil input lock"
  else Ret {| t := t; il := il |}.

Definition InputLockProxy_MarshalSia (p : InputLockProxy) : result bytes :=
  let w := codec.EncUnlockType (t p) in
  if decide (t p = UnlockTypeNil) then Ret w
  else match il p with
       | None => nilDeref
       | Some l =>
         Ret (w ++ codec.RawInputLockFormat_MarshalSia
                     {| rf_Condition := il_EncodeCondition l;
                        rf_Fulfillment := il_EncodeFulfillment l |})
       end.

Definition InputLockProxy_UnlockHash (p : InputLockProxy) : result UnlockHash :=
  if decide (t p = UnlockTypeNil) then Ret UnlockHash_zero
  else match il p with
       | None => nilDeref
       | Some l => Ret (NewUnlockHash (t p) (HashObject (il_EncodeCondition l)))
       end.

(** [now] is the clock during [p.il.Lock], [now'] during the
    [p.il.Unlock] that follows it. *)
Definition InputLockProxy_Lock (p : InputLockProxy) (now now' : Timestamp)
    (inputIndex : N) (tx : Transaction) (key : LockKey)
  : result (InputLockProxy * option error) :=
  if decide (t p = UnlockTypeNil) then
    Ret (p, Some (errorString "nil input lock cannot be locked"))
  else match il p with
       | None => nilDeref
       | Some l =>
         r <-! il_Lock l now inputIndex tx key;
         let p' := {| t := t p; il := Some r.1 |} in
         match r.2 with
         | Some err => Ret (p', Some err)
         | None =>
           (* validate the locking was done correctly *)
           err <-! il_Unlock r.1 now' inputIndex tx;
           Ret (p', err)
         end
       end.

Definition InputLockProxy_Unlock (p : InputLockProxy) (now : Timestamp)
    (inputIndex : N) (tx : Transaction) : result (option error) :=
  if decide (t p = UnlockTypeNil) then
    Ret (Some (errorString "nil input lock cannot be unlocked"))
  else match il p with
       | None => nilDeref
       | Some l => il_Unlock l now inputIndex tx
       end.

Definition InputLockProxy_StrictCheck (p : InputLockProxy)
  : result (option error) :=
  if decide (t p = UnlockTypeNil) then
    Ret (Some (errorString "nil input lock"))
  else match il p with
       | None => nilDeref
       | Some l => Ret (il_StrictCheck l)
       end.

(** *** [UnknownInputLock] *)

Definition UnknownInputLock_EncodeCondition (u : UnknownInputLock) : bytes :=
  u_Condition u.

Definition UnknownInputLock_EncodeFulfillment (u : UnknownInputLock) : bytes :=
  u_Fulfillment u.

Definition UnknownInputLock_Decode (u : UnknownInputLock)
    (rf : RawInputLockFormat) : UnknownInputLock * option error :=
  ({| u_Condition := rf_Condition rf; u_Fulfillment := rf_Fulfillment rf |},
   None).

Definition UnknownInputLock_Lock (u : UnknownInputLock) (_ : Timestamp)
    (_ : N) (_ : Transaction) (_ : LockKey)
  : result (UnknownInputLock * option error) :=
  Ret (u, None).

Definition UnknownInputLock_Unlock (u : UnknownInputLock) (_ : Timestamp)
    (_ : N) (_ : Transaction) : result (option error) :=
  Ret None.

Definition UnknownInputLock_StrictCheck (u : UnknownInputLock) : option error :=
  Some (errorString "unknown input lock").

#[global] Instance UnknownInputLock_InputLock
  : InputLockMethods UnknownInputLock := {
  Lock := UnknownInputLock_Lock;
  Unlock := UnknownInputLock_Unlock;
  StrictCheck := UnknownInputLock_StrictCheck;
  EncodeCondition := UnknownInputLock_EncodeCondition;
  EncodeFulfillment := UnknownInputLock_EncodeFulfillment;
  Decode := UnknownInputLock_Decode
}.

(** *** [SingleSignatureInputLock] *)

Definition SingleSignatureInputLock_EncodeCondition
    (ss : SingleSignatureInputLock) : bytes :=
  codec.EncSiaPublicKey (ss_PublicKey ss).

Definition SingleSignatureInputLock_EncodeFulfillment
    (ss : SingleSignatureInputLock) : bytes :=
  ss_Signature ss.

Definition SingleSignatureInputLock_Decode (ss : SingleSignatureInputLock)
    (rf : RawInputLockFormat) : SingleSignatureInputLock * option error :=
  let ss1 := {| ss_PublicKey := ss_PublicKey ss;
                ss_Signature := rf_Fulfillment rf |} in
  match Unmarshal codec.DecSiaPublicKey (rf_Condition rf) with
  | inl pk => ({| ss_PublicKey := pk; ss_Signature := ss_Signature ss1 |}, None)
  | inr err => (ss1, Some err)
  end.

Definition SingleSignatureInputLock_Lock (ss : SingleSignatureInputLock)
    (_ : Timestamp) (inputIndex : N) (tx : Transaction) (key : LockKey)
  : result (SingleSignatureInputLock * option error) :=
  if decide (length (ss_Signature ss) <> 0%nat) then
    Ret (ss, Some ErrUnlockConditionLocked)
  else
    r <-! signHashUsingSiaPublicKey (ss_PublicKey ss) inputIndex tx key [];
    Ret ({| ss_PublicKey := ss_PublicKey ss; ss_Signature := r.1 |}, r.2).

Definition SingleSignatureInputLock_Unlock (ss : SingleSignatureInputLock)
    (_ : Timestamp) (inputIndex : N) (tx : Transaction)
  : result (option error) :=
  Ret (verifyHashUsingSiaPublicKey (ss_PublicKey ss) inputIndex tx
         (ss_Signature ss) []).

Definition SingleSignatureInputLock_StrictCheck
    (ss : SingleSignatureInputLock) : option error :=
  strictSignatureCheck (ss_PublicKey ss) (ss_Signature ss).

#[global] Instance SingleSignatureInputLock_InputLock
  : InputLockMethods SingleSignatureInputLock := {
  Lock := SingleSignatureInputLock_Lock;
  Unlock := SingleSignatureInputLock_Unlock;
  StrictCheck := SingleSignatureInputLock_StrictCheck;
  EncodeCondition := SingleSignatureInputLock_EncodeCondition;
  EncodeFulfillment := SingleSignatureInputLock_EncodeFulfillment;
  Decode := SingleSignatureInputLock_Decode
}.

Definition NewSingleSignatureInputLock (pk : SiaPublicKey)
  : result InputLockProxy :=
  NewInputLockProxy UnlockTypeSingleSignature
    (Some (mkInputLock {| ss_PublicKey := pk; ss_Signature := [] |})).

(** *** [AtomicSwapInputLock] *)

Definition as_claim (a : AtomicSwapInputLock) (secret : bytes)
    (pk : SiaPublicKey) : AtomicSwapInputLock :=
  {| as_Timelock := as_Timelock a; as_Sender := as_Sender a;
     as_Receiver := as_Receiver a; as_HashedSecret := as_HashedSecret a;
     as_PublicKey := pk; as_Signature := as_Signature a;
     as_Secret := secret |}.

Definition as_sign (a : AtomicSwapInputLock) (sig : bytes)
  : AtomicSwapInputLock :=
  {| as_Timelock := as_Timelock a; as_Sender := as_Sender a;
     as_Receiver := as_Receiver a; as_HashedSecret := as_HashedSecret a;
     as_PublicKey := as_PublicKey a; as_Signature := sig;
     as_Secret := as_Secret a |}.

Definition AtomicSwapInputLock_Lock (a : AtomicSwapInputLock)
    (now : Timestamp) (inputIndex : N) (tx : Transaction) (key : LockKey)
  : result (AtomicSwapInputLock * option error) :=
  if decide (length (as_Signature a) <> 0%nat) then
    Ret (a, Some ErrUnlockConditionLocked)
  else
    match key with
    | KeyAtomicSwapClaimKey v => (* claim *)
      if (as_Timelock a <? now)%N then
        Ret (a, Some (errorString "atomic swap contract expired already"))
      else
        let a1 := as_claim a (ck_Secret v) (ck_PublicKey v) in
        let hashedSecret := Sum256 (as_Secret a1) in
        if decide (as_HashedSecret a1 <> hashedSecret) then
          Ret (a1, Some ErrInvalidPreImageSha256)
        else
          r <-! signHashUsingSiaPublicKey (ck_PublicKey v) inputIndex tx
                  (KeySecretKey (ck_SecretKey v))
                  [ObjAtomicSwapSecret (as_Secret a1)];
          Ret (as_sign a1 r.1, r.2)
    | KeyAtomicSwapRefundKey v => (* refund *)
      if (now <=? as_Timelock a)%N then
        Ret (a, Some (errorString "atomic swap contract not yet expired"))
      else
        let a1 := as_claim a (as_Secret a) (rk_PublicKey v) in
        r <-! signHashUsingSiaPublicKey (rk_PublicKey v) inputIndex tx
                (KeySecretKey (rk_SecretKey v)) [];
        Ret (as_sign a1 r.1, r.2)
    | _ =>
      Ret (a, Some (errorString
                      ("cannot atomic-swap-lock using " ++ typeName key ++ " key")))
    end.

Definition AtomicSwapInputLock_Unlock (a : AtomicSwapInputLock)
    (now : Timestamp) (inputIndex : N) (tx : Transaction)
  : result (option error) :=
  (* create the unlockHash for the given public Key *)
  p <-! NewSingleSignatureInputLock (as_PublicKey a);
  unlockHash <-! InputLockProxy_UnlockHash p;
  (* prior to our timelock, only the receiver can claim the unspend output *)
  if (now <=? as_Timelock a)%N then
    if decide (uh_Type unlockHash <> uh_Type (as_Receiver a)
               \/ uh_Hash unlockHash <> uh_Hash (as_Receiver a)) then
      Ret (Some ErrInvalidRedeemer)
    else
      match verifyHashUsingSiaPublicKey (as_PublicKey a) inputIndex tx
              (as_Signature a) [ObjAtomicSwapSecret (as_Secret a)] with
      | Some err => Ret (Some err)
      | None =>
        let hashedSecret := Sum256 (as_Secret a) in
        if decide (as_HashedSecret a <> hashedSecret) then
          Ret (Some ErrInvalidPreImageSha256)
        else Ret None
      end
  else
    if decide (uh_Type unlockHash <> uh_Type (as_Sender a)
               \/ uh_Hash unlockHash <> uh_Hash (as_Sender a)) then
      Ret (Some ErrInvalidRedeemer)
    else
      Ret (verifyHashUsingSiaPublicKey (as_PublicKey a) inputIndex tx
             (as_Signature a) []).

Definition AtomicSwapInputLock_EncodeCondition (a : AtomicSwapInputLock)
  : bytes :=
  codec.EncAtomicSwapCondition
    {| c_Sender := as_Sender a; c_Receiver := as_Receiver a;
       c_Timelock := as_Timelock a; c_HashedSecret := as_HashedSecret a |}.

Definition AtomicSwapInputLock_EncodeFulfillment (a : AtomicSwapInputLock)
  : bytes :=
  codec.EncAtomicSwapFulfillment
    {| f_PublicKey := as_PublicKey a; f_Signature := as_Signature a;
       f_Secret := as_Secret a |}.

Definition AtomicSwapInputLock_Decode (a : AtomicSwapInputLock)
    (rf : RawInputLockFormat) : AtomicSwapInputLock * option error :=
  match Unmarshal codec.DecAtomicSwapCondition (rf_Condition rf) with
  | inr err => (a, Some err)
  | inl condition =>
    let a1 := {| as_Timelock := c_Timelock condition;
                 as_Sender := c_Sender condition;
                 as_Receiver := c_Receiver condition;
                 as_HashedSecret := c_HashedSecret condition;
                 as_PublicKey := as_PublicKey a;
                 as_Signature := as_Signature a;
                 as_Secret := as_Secret a |} in
    match Unmarshal codec.DecAtomicSwapFulfillment (rf_Fulfillment rf) with
    | inr err => (a1, Some err)
    | inl fulfillment =>
      (as_sign (as_claim a1 (f_Secret fulfillment) (f_PublicKey fulfillment))
         (f_Signature fulfillment), None)
    end
  end.

Definition AtomicSwapInputLock_StrictCheck (a : AtomicSwapInputLock)
  : option error :=
  strictSignatureCheck (as_PublicKey a) (as_Signature a).

#[global] Instance AtomicSwapInputLock_InputLock
  : InputLockMethods AtomicSwapInputLock := {
  Lock := AtomicSwapInputLock_Lock;
  Unlock := AtomicSwapInputLock_Unlock;
  StrictCheck := AtomicSwapInputLock_StrictCheck;
  EncodeCondition := AtomicSwapInputLock_EncodeCondition;
  EncodeFulfillment := AtomicSwapInputLock_EncodeFulfillment;
  Decode := AtomicSwapInputLock_Decode
}.

Definition NewAtomicSwapInputLock (s r : UnlockHash) (hs : bytes)
    (tl : Timestamp) : result InputLockProxy :=
  NewInputLockProxy UnlockTypeAtomicSwap
    (Some (mkInputLock
             {| as_Timelock := tl; as_Sender := s; as_Receiver := r;
                as_HashedSecret := hs;
                as_PublicKey := SiaPublicKey_zero;
                as_Signature := [];
                as_Secret := zeroes sha256_Size |})).

(** *** The registry of unlock types

    [_RegisteredUnlockTypes] is a package variable; here it is passed to
    the one function that reads it. A constructor returns a fresh,
    non-nil lock. *)
Definition InputLockConstructor : Type := unit -> InputLock.

Definition RegisterUnlockType (t : UnlockType)
    (ilc : option InputLockConstructor)
    (reg : gmap UnlockType InputLockConstructor)
  : result (gmap UnlockType InputLockConstructor) :=
  match ilc with
  | None => Panic "cannot register nil input locker"
  | Some c => Ret (<[t := c]> reg)
  end.

Definition UnregisterUnlockType (t : UnlockType)
    (reg : gmap UnlockType InputLockConstructor)
  : gmap UnlockType InputLockConstructor :=
  delete t reg.

(** The registry after [init()]. *)
Definition init : gmap UnlockType InputLockConstructor :=
  <[UnlockTypeAtomicSwap := fun _ => mkInputLock AtomicSwapInputLock_zero]>
    (<[UnlockTypeSingleSignature :=
         fun _ => mkInputLock SingleSignatureInputLock_zero]> ∅).

(** [InputLockProxy.UnmarshalSia], reading off the stream [r]: the proxy
    as the call leaves it, the error, and what is left of the stream. *)
Definition InputLockProxy_UnmarshalSia
    (reg : gmap UnlockType InputLockConstructor)
    (p : InputLockProxy) (r : bytes)
  : InputLockProxy * option error * bytes :=
  match codec.DecUnlockType r with
  | DecodeErr err => (p, Some err, r)
  | Decoded ty r1 =>
    let p1 := {| t := ty; il := il p |} in
    if decide (ty = UnlockTypeNil) then (p1, None, r1)
    else
      match codec.RawInputLockFormat_UnmarshalSia r1 with
      | DecodeErr err => (p1, Some err, r1)
      | Decoded rf r2 =>
        let fresh :=
          match reg !! ty with
          | Some c => c tt
          | None => mkInputLock UnknownInputLock_zero
          end in
        let d := il_Decode fresh rf in
        ({| t := ty; il := Some d.1 |}, d.2, r2)
      end
  end.

End InputLocks.

(** ** Vocabulary of the properties *)

Section Vocabulary.
Context `{Externals}.

Implicit Types (reg : gmap UnlockType InputLockConstructor).
Implicit Types (rf : RawInputLockFormat).

(** Well-formedness: what Go's types guarantee of the values and the
    lists of the embedding do not. *)
Definition wf_slice (b : bytes) : Prop := N.of_nat (length b) < 2 ^ 64.

Definition wf_UnlockHash (h : UnlockHash) : Prop :=
  length (uh_Hash h) = HashSize.

Definition wf_SiaPublicKey (pk : SiaPublicKey) : Prop :=
  length (Algorithm pk) = SpecifierLen /\ wf_slice (Key pk).

Definition wf_AtomicSwapCondition (c : AtomicSwapCondition) : Prop :=
  wf_UnlockHash (c_Sender c) /\ wf_UnlockHash (c_Receiver c)
  /\ length (c_HashedSecret c) = sha256_Size /\ c_Timelock c < 2 ^ 64.

Definition wf_AtomicSwapFulfillment (f : AtomicSwapFulfillment) : Prop :=
  wf_SiaPublicKey (f_PublicKey f) /\ wf_slice (f_Signature f)
  /\ length (f_Secret f) = sha256_Size.

(** The unlock hash of the single-signature lock over [pk]. *)
Definition singleSignatureUnlockHash (pk : SiaPublicKey) : UnlockHash :=
  NewUnlockHash UnlockTypeSingleSignature
    (HashObject (codec.EncSiaPublicKey pk)).

(** The lock that [UnmarshalSia] makes for type [ty] before it decodes
    into it. *)
Definition freshLock reg (ty : UnlockType) : InputLock :=
  match reg !! ty with
  | Some c => c tt
  | None => mkInputLock UnknownInputLock_zero
  end.

(** The bytes on the wire of a lock of type [ty] with raw format [rf]. *)
Definition wire (ty : UnlockType) rf : bytes :=
  codec.EncUnlockType ty ++ codec.RawInputLockFormat_MarshalSia rf.

(** What is said of a lock of type [ty] with the given condition and
    fulfillment bytes on the wire when it is treated as unknown:
    decoding it into [p] under [reg] leaves an [UnknownInputLock] with
    those very bytes and no error, [Unlock] on it succeeds, and
    [StrictCheck] on it returns an error. *)
Definition passesThrough reg (p : InputLockProxy) (ty : UnlockType)
    (condition fulfillment rest : bytes) (now : Timestamp) (inputIndex : N)
    (tx : Transaction) : Prop :=
  let unknown :=
    {| t := ty;
       il := Some (mkInputLock {| u_Condition := condition;
                                  u_Fulfillment := fulfillment |}) |} in
  InputLockProxy_UnmarshalSia reg p
    (wire ty {| rf_Condition := condition; rf_Fulfillment := fulfillment |}
       ++ rest)
  = (unknown, None, rest)
  /\ InputLockProxy_Unlock unknown now inputIndex tx = Ret None
  /\ exists err, InputLockProxy_StrictCheck unknown = Ret (Some err).

(** The proxies that are encoded and decoded: the nil type with any
    payload, the two registered types with their own locks, and a type
    that [init] does not register with an [UnknownInputLock] holding any
    bytes. The side conditions are those of Go's types: array lengths,
    64-bit integers and slice lengths. *)
Inductive wellFormedProxy : InputLockProxy -> Prop :=
  | wf_nil payload :
      wellFormedProxy {| t := UnlockTypeNil; il := payload |}
  | wf_single_signature ss :
      wf_SiaPublicKey (ss_PublicKey ss) ->
      wf_slice (SingleSignatureInputLock_EncodeCondition ss) ->
      wf_slice (SingleSignatureInputLock_EncodeFulfillment ss) ->
      wellFormedProxy {| t := UnlockTypeSingleSignature;
                         il := Some (mkInputLock ss) |}
  | wf_atomic_swap a :
      wf_AtomicSwapCondition
        {| c_Sender := as_Sender a; c_Receiver := as_Receiver a;
           c_HashedSecret := as_HashedSecret a; c_Timelock := as_Timelock a |} ->
      wf_AtomicSwapFulfillment
        {| f_PublicKey := as_PublicKey a; f_Signature := as_Signature a;
           f_Secret := as_Secret a |} ->
      wf_slice (AtomicSwapInputLock_EncodeCondition a) ->
      wf_slice (AtomicSwapInputLock_EncodeFulfillment a) ->
      wellFormedProxy {| t := UnlockTypeAtomicSwap;
                         il := Some (mkInputLock a) |}
  | wf_unknown (ty : UnlockType) u :
      ty <> UnlockTypeNil -> init !! ty = None ->
      wf_slice (u_Condition u) -> wf_slice (u_Fulfillment u) ->
      wellFormedProxy {| t := ty; il := Some (mkInputLock u) |}.

End Vocabulary.

Section MoreVocabulary.
Context `{Externals}.

(** A lock of one of the three types inputlock.go defines. *)
Definition standardLock (l : InputLock) : Prop :=
  (exists u : UnknownInputLock, l = mkInputLock u)
  \/ (exists ss : SingleSignatureInputLock, l = mkInputLock ss)
  \/ (exists a : AtomicSwapInputLock, l = mkInputLock a).

(** The condition of an atomic-swap lock, as [EncodeCondition] collects it. *)
Definition conditionOf (a : AtomicSwapInputLock) : AtomicSwapCondition :=
  {| c_Sender := as_Sender a; c_Receiver := as_Receiver a;
     c_HashedSecret := as_HashedSecret a; c_Timelock := as_Timelock a |}.

(** The proxy never dereferences a nil lock. *)
Definition holdsLock (p : InputLockProxy) : Prop :=
  t p <> UnlockTypeNil -> il p <> None.

End MoreVocabulary.

(** ** Package consensus: [CreateGenesisState] *)

Module consensus.

Definition BlockID : Type := bytes.
Definition OutputID : Type := bytes.
Definition FileContractID : Type := bytes.
Definition CoinAddress : Type := bytes.
Definition BlockHeight : Type := N.
Definition Currency : Type := N.

Definition NewCurrency64 (x : N) : Currency := x.

(** [CoinAddress{0}] and [OutputID{0}]: arrays of zero bytes. *)
Definition ZeroAddress : CoinAddress := zeroes HashSize.
Definition ZeroOutputID : OutputID := zeroes HashSize.
Definition ZeroCurrency : Currency := NewCurrency64 0.

Record SiacoinOutput : Type := mkSiacoinOutput {
  sco_Value : Currency;
  sco_SpendHash : CoinAddress
}.

Record SiafundOutput : Type := mkSiafundOutput {
  sfo_Value : Currency;
  sfo_SpendHash : CoinAddress;
  sfo_ClaimDestination : CoinAddress
}.

(** A block: its timestamp, and the fields [CreateGenesisState] leaves at
    their zero values. *)
Record Block (Body : Type) : Type := mkBlock {
  b_Timestamp : Timestamp;
  b_body : Body
}.
Arguments mkBlock {Body} _ _.
Arguments b_Timestamp {Body} _.
Arguments b_body {Body} _.

(** The fields of a block node that [CreateGenesisState] sets. *)
Record blockNode (Body Target Depth : Type) : Type := mkBlockNode {
  block : Block Body;
  target : Target;
  depth : Depth
}.
Arguments mkBlockNode {Body Target Depth} _ _ _.
Arguments block {Body Target Depth} _.
Arguments target {Body Target Depth} _.
Arguments depth {Body Target Depth} _.

(** What the file takes from the rest of package consensus. *)
Class ChainExternals : Type := {
  BlockBody : Type;
  BlockBody_zero : BlockBody;
  Target : Type;
  Depth : Type;
  FileContract : Type;
  RootTarget : Target;
  RootDepth : Depth;
  SiafundCount : N;
  CalculateCoinbase : BlockHeight -> Currency;
  Block_ID : Block BlockBody -> BlockID;
  Block_MinerPayoutID : Block BlockBody -> N -> OutputID
}.

(** A pointer to a block node. *)
Definition ptr : Type := positive.

Section State.
Context `{ChainExternals}.

(** The block nodes allocated so far. *)
Definition Heap : Type := gmap ptr (blockNode BlockBody Target Depth).

(** The state, without its mutex. *)
Record State : Type := mkState {
  blockRoot : ptr;
  badBlocks : gset BlockID;
  blockMap : gmap BlockID ptr;
  currentBlockID : BlockID;
  currentPath : gmap BlockHeight BlockID;
  siafundPool : Currency;
  unspentSiacoinOutputs : gmap OutputID SiacoinOutput;
  openFileContracts : gmap FileContractID FileContract;
  unspentSiafundOutputs : gmap OutputID SiafundOutput;
  delayedSiacoinOutputs : gmap BlockHeight (gmap OutputID SiacoinOutput)
}.

(** [&blockNode{...}]: a node at an address not in use. *)
Definition alloc (h : Heap) (n : blockNode BlockBody Target Depth)
  : Heap * ptr :=
  let l := fresh (dom h) in (<[l := n]> h, l).

Definition CreateGenesisState (h : Heap) (genesisTime : Timestamp)
  : Heap * State :=
  (* Create the genesis block and add it as the BlockRoot. *)
  let genesisBlock := mkBlock genesisTime BlockBody_zero in
  let '(h1, root) :=
    alloc h (mkBlockNode genesisBlock RootTarget RootDepth) in
  (h1,
   {| blockRoot := root;
      badBlocks := ∅;
      blockMap := <[Block_ID genesisBlock := root]> ∅;
      (* Fill out the consensus informaiton for the genesis block. *)
      currentBlockID := Block_ID genesisBlock;
      currentPath := <[0%N := Block_ID genesisBlock]> ∅;
      siafundPool := 0;
      unspentSiacoinOutputs :=
        <[Block_MinerPayoutID genesisBlock 0 :=
            {| sco_Value := CalculateCoinbase 0;
               sco_SpendHash := ZeroAddress |}]> ∅;
      openFileContracts := ∅;
      unspentSiafundOutputs :=
        <[ZeroOutputID :=
            {| sfo_Value := NewCurrency64 SiafundCount;
               sfo_SpendHash := ZeroAddress;
               sfo_ClaimDestination := ZeroAddress |}]> ∅;
      delayedSiacoinOutputs := ∅ |}).

(** "These are the consensus variables", with the current path they
    are a function of. *)
Record ConsensusVariables : Type := mkConsensusVariables {
  cv_currentBlockID : BlockID;
  cv_currentPath : gmap BlockHeight BlockID;
  cv_siafundPool : Currency;
  cv_unspentSiacoinOutputs : gmap OutputID SiacoinOutput;
  cv_openFileContracts : gmap FileContractID FileContract;
  cv_unspentSiafundOutputs : gmap OutputID SiafundOutput;
  cv_delayedSiacoinOutputs : gmap BlockHeight (gmap OutputID SiacoinOutput)
}.

Definition consensusVariables (s : State) : ConsensusVariables :=
  {| cv_currentBlockID := currentBlockID s;
     cv_currentPath := currentPath s;
     cv_siafundPool := siafundPool s;
     cv_unspentSiacoinOutputs := unspentSiacoinOutputs s;
     cv_openFileContracts := openFileContracts s;
     cv_unspentSiafundOutputs := unspentSiafundOutputs s;
     cv_delayedSiacoinOutputs := delayedSiacoinOutputs s |}.

End State.

End consensus.

(** ** Package electrum: [newResponse] and [ServerVersion] *)

Module electrum.

Definition jsonRPCVersion : string := "2.0".

Section RPC.
(** The values held in [interface{}] fields: request ids, results and
    error data. A nil interface is [None]. *)
Context {V : Type}.

Record RPCError : Type := mkRPCError {
  Code : Z;
  Message : string;
  Data : option V
}.

Record Response : Type := mkResponse {
  JSONRPC : string;
  Result : option V;
  Error : option RPCError;
  ID : option V
}.

(** A non-nil [error] as [newResponse] looks at it: an [RPCError], or any
    other error with the text its [Error()] returns. *)
Inductive callError : Type :=
  | IsRPCError (rpce : RPCError)
  | OtherError (text : string).

(** The zero value of [RPCError], as [var rpcError RPCError] declares it. *)
Definition RPCError_zero : RPCError :=
  {| Code := 0; Message := ""; Data := None |}.

(** The result is a pointer: [None] is the nil response. *)
Definition newResponse (ID : option V) (result : option V)
    (err : option callError) : option Response :=
  (* If ID is not set, this was a notification and no result should be send *)
  match ID with
  | None => None
  | Some _ =>
    let r := {| JSONRPC := jsonRPCVersion; Result := None; Error := None;
                ID := ID |} in
    match err with
    | Some e =>
      let rpcError :=
        match e with
        | IsRPCError rpce => rpce
        | OtherError text =>
          (* Convert to RPCError *)
          {| Code := 1; Message := text; Data := Data RPCError_zero |}
        end in
      Some {| JSONRPC := JSONRPC r; Result := Result r;
              Error := Some rpcError; ID := ID |}
    | None =>
      Some {| JSONRPC := JSONRPC r; Result := result; Error := Error r;
              ID := ID |}
    end
  end.

End RPC.
Arguments RPCError : clear implicits.
Arguments Response : clear implicits.
Arguments callError : clear implicits.

(** The methods registered as [rpcFunc] values. *)
Inductive rpcMethod : Type :=
  | ServerPingMethod
  | ServerVersionMethod
  | BlockchainAddressSubscribeMethod.

(** What rpc.go takes from the rest of package electrum and from
    encoding/json. *)
Class ServerExternals (V : Type) : Type := {
  ProtocolVersion : Type;
  ProtocolVersion_eq_dec :: EqDecision ProtocolVersion;
  (* ProtocolVersion{} *)
  ProtocolVersion_zero : ProtocolVersion;
  (* cl.serviceMap, with cl.registerService on it *)
  Services : Type;
  registerService : Services -> string -> rpcMethod -> Services * option string;
  (* json.Unmarshal of the arguments into input: the client name and the
     protocolMax of the protocol version argument, or an error *)
  decodeVersionParams : bytes -> option (string * ProtocolVersion);
  ErrInvalidParams : RPCError V;
  ErrInternal : RPCError V;
  errFatal : callError V
}.

Section Server.
Context {V : Type} `{ServerExternals V}.

(** The fields of [Client] that the methods read or write. *)
Record Client : Type := mkClient {
  protoVersion : ProtocolVersion;
  clientName : string;
  serviceMap : Services
}.

(** The field of [Electrum] that [ServerVersion] reads. *)
Record Electrum : Type := mkElectrum {
  availableVersions : list ProtocolVersion
}.

(** The anonymous struct [ServerVersion] answers with. *)
Record VersionResponse : Type := mkVersionResponse {
  ServerVersionField : string;
  ProtoVersion : ProtocolVersion
}.

Definition registerBlockchainMethods (cl : Client) : Client * option string :=
  let r := registerService (serviceMap cl) "blockchain.address.subscribe"
             BlockchainAddressSubscribeMethod in
  ({| protoVersion := protoVersion cl; clientName := clientName cl;
      serviceMap := r.1 |}, r.2).

Definition ServerPing (cl : Client) (args : option bytes)
  : option V * option (callError V) :=
  (None, None).

(** [args] is a pointer, [None] when nil. The client is returned as the
    call leaves it. *)
Definition ServerVersion (e : Electrum) (cl : Client) (args : option bytes)
  : result ((option VersionResponse * option (callError V)) * Client) :=
  if decide (protoVersion cl <> ProtocolVersion_zero) then
    (* Protocol version already set, ignore this request *)
    Ret ((None,
          Some (IsRPCError
                  {| Code := 101;
                     Message := "Protocol version already set for this connection";
                     Data := None |})), cl)
  else
    match args with
    | None => Panic "invalid memory address or nil pointer dereference"
    | Some raw =>
      match decodeVersionParams raw with
      | None => Ret ((None, Some (IsRPCError ErrInvalidParams)), cl)
      | Some (ClientName, protocolMax) =>
        match availableVersions e with
        | [] => Panic "index out of range"
        | v0 :: _ =>
          if decide (protocolMax <> v0) then
            (* If no protocol version can be found, the connection
               should be closed *)
            Ret ((None, Some errFatal), cl)
          else
            let r := registerBlockchainMethods cl in
            match r.2 with
            | Some _ => Ret ((None, Some (IsRPCError ErrInternal)), r.1)
            | None =>
              Ret ((Some {| ServerVersionField := ""; ProtoVersion := v0 |},
                    None),
                   {| protoVersion := protocolMax;
                      clientName := ClientName;
                      serviceMap := serviceMap r.1 |})
            end
        end
      end
    end.

(** The error of a [server.version] on a client that has a protocol
    version. *)
Definition versionAlreadySet : callError V :=
  IsRPCError {| Code := 101;
                Message := "Protocol version already set for this connection";
                Data := None |}.

End Server.

End electrum.

(** ** Package wallet: the transaction builder *)

Module wallet.

#[global] Instance UnlockHash_countable : Countable UnlockHash.
Proof.
  refine (inj_countable' (fun h => (uh_Type h, uh_Hash h))
            (fun x => {| uh_Type := x.1; uh_Hash := x.2 |}) _).
  by intros [ty h].
Defined.

(** [CoinOutputID], [BlockStakeOutputID] and [OutputID] are the same array
    of bytes; the conversions between them are the identity. *)
Definition OutputID : Type := bytes.
Definition Currency : Type := N.
Definition BlockHeight : Type := N.

Inductive werror : Type :=
  (* modules.ErrIncompleteTransactions, modules.ErrLowBalance *)
  | ErrIncompleteTransactions
  | ErrLowBalance
  (* an error of another part of the wallet *)
  | walletError (text : string).

(** The types of package types that the builder handles without looking
    into them, and what it calls on them. *)
Class TypesExternals : Type := {
  Condition : Type;
  Fulfillment : Type;
  FulfillableContext : Type;
  Fulfillable : Condition -> FulfillableContext -> bool;
  (* Condition.UnlockHash() *)
  ConditionUnlockHash : Condition -> UnlockHash;
  (* types.NewCondition(types.NewUnlockHashCondition(uh)) *)
  NewUnlockHashCondition : UnlockHash -> Condition;
  (* types.NewFulfillment(types.NewSingleSignatureFulfillment(
       types.Ed25519PublicKey(pk))) *)
  NewSingleSignatureFulfillment : bytes -> Fulfillment;
  RespendTimeout : BlockHeight
}.

Section Builder.
Context `{TypesExternals}.

Record CoinInput : Type := mkCoinInput {
  ci_ParentID : OutputID;
  ci_Fulfillment : Fulfillment
}.

Record CoinOutput : Type := mkCoinOutput {
  co_Value : Currency;
  co_Condition : Condition
}.

Record BlockStakeInput : Type := mkBlockStakeInput {
  bsi_ParentID : OutputID;
  bsi_Fulfillment : Fulfillment
}.

Record BlockStakeOutput : Type := mkBlockStakeOutput {
  bso_Value : Currency;
  bso_Condition : Condition
}.

Record Transaction : Type := mkTransaction {
  Version : byte;
  CoinInputs : list CoinInput;
  CoinOutputs : list CoinOutput;
  BlockStakeInputs : list BlockStakeInput;
  BlockStakeOutputs : list BlockStakeOutput;
  MinerFees : list Currency;
  ArbitraryData : bytes
}.

(** [types.Transaction{Version: v}]. *)
Definition Transaction_new (v : byte) : Transaction :=
  {| Version := v; CoinInputs := []; CoinOutputs := [];
     BlockStakeInputs := []; BlockStakeOutputs := []; MinerFees := [];
     ArbitraryData := [] |}.

Record spendableKey : Type := mkSpendableKey {
  PublicKey : bytes;
  SecretKey : bytes
}.

Definition spendableKey_zero : spendableKey :=
  {| PublicKey := zeroes PublicKeySize; SecretKey := zeroes 64 |}.

Record inputSignContext : Type := mkInputSignContext {
  InputIndex : nat;
  isc_UnlockHash : UnlockHash
}.

(** The fields of [Wallet] that the builder reads or writes; of the
    unconfirmed processed transactions their [Transaction] field, of
    [chainCts] its [DefaultTransactionVersion]; [seed] is what
    [nextPrimarySeedAddress] works on besides. *)
Record Wallet (Seed : Type) : Type := mkWallet {
  coinOutputs : gmap OutputID CoinOutput;
  blockstakeOutputs : gmap OutputID BlockStakeOutput;
  unspentblockstakeoutputs : gmap OutputID BlockStakeOutput;
  unconfirmedProcessedTransactions : list Transaction;
  keys : gmap UnlockHash spendableKey;
  spentOutputs : gmap OutputID BlockHeight;
  consensusSetHeight : BlockHeight;
  DefaultTransactionVersion : byte;
  seed : Seed
}.
#[global] Arguments mkWallet {Seed}.
#[global] Arguments coinOutputs {Seed}.
#[global] Arguments blockstakeOutputs {Seed}.
#[global] Arguments unspentblockstakeoutputs {Seed}.
#[global] Arguments unconfirmedProcessedTransactions {Seed}.
#[global] Arguments keys {Seed}.
#[global] Arguments spentOutputs {Seed}.
#[global] Arguments consensusSetHeight {Seed}.
#[global] Arguments DefaultTransactionVersion {Seed}.
#[global] Arguments seed {Seed}.

(** The builder, without its pointer to the wallet: the wallet is passed
    to the methods that use it and returned by those that change it. *)
Record transactionBuilder : Type := mkTransactionBuilder {
  parents : list Transaction;
  signed : bool;
  transaction : Transaction;
  newParents : list nat;
  coinInputs : list inputSignContext;
  blockstakeInputs : list inputSignContext
}.

(** What the builder calls on the wallet and on package types without
    their code being among the sources. *)
Class WalletExternals (Seed : Type) : Type := {
  getFulfillableContextForLatestBlock : Wallet Seed -> FulfillableContext;
  (* the address, the error, and the wallet as the call leaves it *)
  nextPrimarySeedAddress : Wallet Seed -> Wallet Seed * UnlockHash * option werror;
  (* Transaction.CoinOutputID(i) *)
  CoinOutputID : Transaction -> N -> OutputID;
  (* sort.Sort(sort.Reverse(so)) on the candidates, ids and outputs
     side by side *)
  sortReverse : list (OutputID * CoinOutput) -> list (OutputID * CoinOutput);
  (* sorting rearranges, it neither drops nor adds an output *)
  sortReverse_Permutation : forall so, Permutation (sortReverse so) so
}.

Definition with_transaction (tb : transactionBuilder) (txn : Transaction)
  : transactionBuilder :=
  {| parents := parents tb; signed := signed tb; transaction := txn;
     newParents := newParents tb; coinInputs := coinInputs tb;
     blockstakeInputs := blockstakeInputs tb |}.

Definition with_spentOutputs {Seed} (w : Wallet Seed)
    (m : gmap OutputID BlockHeight) : Wallet Seed :=
  {| coinOutputs := coinOutputs w; blockstakeOutputs := blockstakeOutputs w;
     unspentblockstakeoutputs := unspentblockstakeoutputs w;
     unconfirmedProcessedTransactions := unconfirmedProcessedTransactions w;
     keys := keys w; spentOutputs := m;
     consensusSetHeight := consensusSetHeight w;
     DefaultTransactionVersion := DefaultTransactionVersion w;
     seed := seed w |}.

(** [uint64(len(s) - 1)] after an append. *)
Definition lastIndex {A} (s : list A) : N := N.of_nat (length s - 1).

Definition AddParents (tb : transactionBuilder) (newParents' : list Transaction)
  : transactionBuilder :=
  {| parents := parents tb ++ newParents'; signed := signed tb;
     transaction := transaction tb; newParents := newParents tb;
     coinInputs := coinInputs tb; blockstakeInputs := blockstakeInputs tb |}.

Definition AddMinerFee (tb : transactionBuilder) (fee : Currency)
  : transactionBuilder * N :=
  let t0 := transaction tb in
  let fees := MinerFees t0 ++ [fee] in
  (with_transaction tb
     {| Version := Version t0; CoinInputs := CoinInputs t0;
        CoinOutputs := CoinOutputs t0; BlockStakeInputs := BlockStakeInputs t0;
        BlockStakeOutputs := BlockStakeOutputs t0; MinerFees := fees;
        ArbitraryData := ArbitraryData t0 |},
   lastIndex fees).

Definition set_CoinInputs (t0 : Transaction) (l : list CoinInput) : Transaction :=
  {| Version := Version t0; CoinInputs := l;
     CoinOutputs := CoinOutputs t0; BlockStakeInputs := BlockStakeInputs t0;
     BlockStakeOutputs := BlockStakeOutputs t0; MinerFees := MinerFees t0;
     ArbitraryData := ArbitraryData t0 |}.

Definition set_CoinOutputs (t0 : Transaction) (l : list CoinOutput) : Transaction :=
  {| Version := Version t0; CoinInputs := CoinInputs t0;
     CoinOutputs := l; BlockStakeInputs := BlockStakeInputs t0;
     BlockStakeOutputs := BlockStakeOutputs t0; MinerFees := MinerFees t0;
     ArbitraryData := ArbitraryData t0 |}.

Definition set_BlockStakeInputs (t0 : Transaction) (l : list BlockStakeInput)
  : Transaction :=
  {| Version := Version t0; CoinInputs := CoinInputs t0;
     CoinOutputs := CoinOutputs t0; BlockStakeInputs := l;
     BlockStakeOutputs := BlockStakeOutputs t0; MinerFees := MinerFees t0;
     ArbitraryData := ArbitraryData t0 |}.

Definition set_BlockStakeOutputs (t0 : Transaction) (l : list BlockStakeOutput)
  : Transaction :=
  {| Version := Version t0; CoinInputs := CoinInputs t0;
     CoinOutputs := CoinOutputs t0; BlockStakeInputs := BlockStakeInputs t0;
     BlockStakeOutputs := l; MinerFees := MinerFees t0;
     ArbitraryData := ArbitraryData t0 |}.

Definition AddCoinInput (tb : transactionBuilder) (input : CoinInput)
  : transactionBuilder * N :=
  let l := CoinInputs (transaction tb) ++ [input] in
  (with_transaction tb (set_CoinInputs (transaction tb) l), lastIndex l).

Definition AddCoinOutput (tb : transactionBuilder) (output : CoinOutput)
  : transactionBuilder * N :=
  let l := CoinOutputs (transaction tb) ++ [output] in
  (with_transaction tb (set_CoinOutputs (transaction tb) l), lastIndex l).

Definition AddBlockStakeInput (tb : transactionBuilder) (input : BlockStakeInput)
  : transactionBuilder * N :=
  let l := BlockStakeInputs (transaction tb) ++ [input] in
  (with_transaction tb (set_BlockStakeInputs (transaction tb) l), lastIndex l).

Definition AddBlockStakeOutput (tb : transactionBuilder)
    (output : BlockStakeOutput) : transactionBuilder * N :=
  let l := BlockStakeOutputs (transaction tb) ++ [output] in
  (with_transaction tb (set_BlockStakeOutputs (transaction tb) l), lastIndex l).

Definition SetArbitraryData (tb : transactionBuilder) (arb : bytes)
  : transactionBuilder :=
  let t0 := transaction tb in
  with_transaction tb
    {| Version := Version t0; CoinInputs := CoinInputs t0;
       CoinOutputs := CoinOutputs t0; BlockStakeInputs := BlockStakeInputs t0;
       BlockStakeOutputs := BlockStakeOutputs t0; MinerFees := MinerFees t0;
       ArbitraryData := arb |}.

Definition View (tb : transactionBuilder) : Transaction * list Transaction :=
  (transaction tb, parents tb).

Definition ViewAdded (tb : transactionBuilder)
  : list nat * list nat * list nat :=
  (newParents tb, map InputIndex (coinInputs tb),
   map InputIndex (blockstakeInputs tb)).

(** The public key the wallet holds for an unlock hash: the zero key when
    it holds none. *)
Definition keyOf {Seed} (w : Wallet Seed) (uh : UnlockHash) : spendableKey :=
  default spendableKey_zero (keys w !! uh).

Definition SpendBlockStake {Seed} (tb : transactionBuilder) (w : Wallet Seed)
    (ubsoid : OutputID) : transactionBuilder * Wallet Seed * option werror :=
  match unspentblockstakeoutputs w !! ubsoid with
  | None => (tb, w, Some ErrIncompleteTransactions)
  | Some ubso =>
    let uh := ConditionUnlockHash (bso_Condition ubso) in
    let bsi := {| bsi_ParentID := ubsoid;
                  bsi_Fulfillment :=
                    NewSingleSignatureFulfillment (PublicKey (keyOf w uh)) |} in
    let t0 := transaction tb in
    let tb' :=
      {| parents := parents tb; signed := signed tb;
         transaction := set_BlockStakeInputs t0 (BlockStakeInputs t0 ++ [bsi]);
         newParents := newParents tb; coinInputs := coinInputs tb;
         blockstakeInputs :=
           blockstakeInputs tb
             ++ [{| InputIndex := length (BlockStakeInputs t0);
                    isc_UnlockHash := uh |}] |} in
    (* Mark output as spent. *)
    (tb', with_spentOutputs w (<[ubsoid := consensusSetHeight w]> (spentOutputs w)),
     None)
  end.

(** The parent IDs of the coin inputs of the transactions, in the order
    in which [Drop] ranges over them. *)
Definition coinParentIDs (txns : list Transaction) : list OutputID :=
  flat_map (fun txn => map ci_ParentID (CoinInputs txn)) txns.

Definition Drop {Seed} (tb : transactionBuilder) (w : Wallet Seed)
  : transactionBuilder * Wallet Seed :=
  let txns := parents tb ++ [transaction tb] in
  let spent := foldl (fun m id => delete id m) (spentOutputs w)
                 (coinParentIDs txns) in
  ({| parents := []; signed := false;
      transaction := Transaction_new (DefaultTransactionVersion w);
      newParents := []; coinInputs := []; blockstakeInputs := [] |},
   with_spentOutputs w spent).

Section Funding.
Context {Seed : Type} `{WalletExternals Seed}.

(** [tb.wallet.spentOutputs[id]]: the zero height for an output that is
    not in the map. *)
Definition spendHeight (w : Wallet Seed) (id : OutputID) : BlockHeight :=
  default 0 (spentOutputs w !! id).

(** [tb.wallet.consensusSetHeight - RespendTimeout] on uint64, replaced
    by 0 where the subtraction wraps around. *)
Definition allowedHeight (w : Wallet Seed) : BlockHeight :=
  let allowed := (consensusSetHeight w + 2 ^ 64 - RespendTimeout) mod 2 ^ 64 in
  if consensusSetHeight w <? RespendTimeout then 0 else allowed.

(** [spendHeight > allowedHeight]: the output was spent by the wallet
    too recently to be spent again. *)
Definition recentlySpent (w : Wallet Seed) (id : OutputID) : bool :=
  allowedHeight w <? spendHeight w id.

(** The outputs [FundCoins] collects before it sorts them: the
    fulfillable ones of the wallet, then the fulfillable ones of the
    unconfirmed transactions whose unlock hash the wallet has a key
    for. *)
Definition coinCandidates (w : Wallet Seed) (ctx : FulfillableContext)
  : list (OutputID * CoinOutput) :=
  List.filter (fun p => Fulfillable (co_Condition p.2) ctx)
    (map_to_list (coinOutputs w))
  ++ flat_map (fun upt =>
       flat_map (fun p : nat * CoinOutput =>
         let uh := ConditionUnlockHash (co_Condition p.2) in
         if negb (bool_decide (is_Some (keys w !! uh)))
            || negb (Fulfillable (co_Condition p.2) ctx)
         then []
         else [(CoinOutputID upt (N.of_nat p.1), p.2)])
         (zip (seq 0 (length (CoinOutputs upt))) (CoinOutputs upt)))
       (unconfirmedProcessedTransactions w).

(** The variables of the loops of [FundCoins] and [FundBlockStakes]. *)
Record funding : Type := mkFunding {
  fd_builder : transactionBuilder;
  fd_fund : Currency;
  fd_potentialFund : Currency;
  fd_spent : list OutputID
}.

Definition coinInputFor (w : Wallet Seed) (scoid : OutputID) (sco : CoinOutput)
  : CoinInput :=
  {| ci_ParentID := scoid;
     ci_Fulfillment :=
       NewSingleSignatureFulfillment
         (PublicKey (keyOf w (ConditionUnlockHash (co_Condition sco)))) |}.

Fixpoint fundCoinsLoop (w : Wallet Seed) (amount : Currency)
    (so : list (OutputID * CoinOutput)) (st : funding) : funding :=
  match so with
  | [] => st
  | (scoid, sco) :: so' =>
    (* Check that this output has not recently been spent by the wallet. *)
    if recentlySpent w scoid then
      fundCoinsLoop w amount so'
        {| fd_builder := fd_builder st; fd_fund := fd_fund st;
           fd_potentialFund := fd_potentialFund st + co_Value sco;
           fd_spent := fd_spent st |}
    else
      (* Add a coin input for this output. *)
      let tb := fd_builder st in
      let uh := ConditionUnlockHash (co_Condition sco) in
      let t0 := transaction tb in
      let tb' :=
        {| parents := parents tb; signed := signed tb;
           transaction :=
             set_CoinInputs t0 (CoinInputs t0 ++ [coinInputFor w scoid sco]);
           newParents := newParents tb;
           coinInputs :=
             coinInputs tb ++ [{| InputIndex := length (CoinInputs t0);
                                  isc_UnlockHash := uh |}];
           blockstakeInputs := blockstakeInputs tb |} in
      let st' :=
        {| fd_builder := tb'; fd_fund := fd_fund st + co_Value sco;
           fd_potentialFund := fd_potentialFund st + co_Value sco;
           fd_spent := fd_spent st ++ [scoid] |} in
      if amount <=? fd_fund st' then st' else fundCoinsLoop w amount so' st'
  end.

(** Mark all outputs that were spent as spent. *)
Definition markSpent (w : Wallet Seed) (spent : list OutputID) : Wallet Seed :=
  with_spentOutputs w
    (foldl (fun m id => <[id := consensusSetHeight w]> m) (spentOutputs w) spent).

Definition FundCoins (tb : transactionBuilder) (w : Wallet Seed)
    (amount : Currency) : transactionBuilder * Wallet Seed * option werror :=
  let ctx := getFulfillableContextForLatestBlock w in
  let so := sortReverse (coinCandidates w ctx) in
  let st := fundCoinsLoop w amount so
              {| fd_builder := tb; fd_fund := 0; fd_potentialFund := 0;
                 fd_spent := [] |} in
  let tb1 := fd_builder st in
  if (amount <=? fd_potentialFund st) && (fd_fund st <? amount) then
    (tb1, w, Some ErrIncompleteTransactions)
  else if fd_fund st <? amount then
    (tb1, w, Some ErrLowBalance)
  else if negb (amount =? fd_fund st) then
    (* Create a refund output if needed. *)
    let '(w1, refundUnlockHash, err) := nextPrimarySeedAddress w in
    match err with
    | Some e => (tb1, w1, Some e)
    | None =>
      let refundOutput :=
        {| co_Value := fd_fund st - amount;
           co_Condition := NewUnlockHashCondition refundUnlockHash |} in
      let t1 := transaction tb1 in
      (with_transaction tb1 (set_CoinOutputs t1 (CoinOutputs t1 ++ [refundOutput])),
       markSpent w1 (fd_spent st), None)
    end
  else (tb1, markSpent w (fd_spent st), None).

Definition blockStakeInputFor (w : Wallet Seed) (sfoid : OutputID)
    (sfo : BlockStakeOutput) : BlockStakeInput :=
  {| bsi_ParentID := sfoid;
     bsi_Fulfillment :=
       NewSingleSignatureFulfillment
         (PublicKey (keyOf w (ConditionUnlockHash (bso_Condition sfo)))) |}.

(** The loop of [FundBlockStakes] over the entries of
    [tb.wallet.blockstakeOutputs] in the order [range] yields them. *)
Fixpoint fundBlockStakesLoop (w : Wallet Seed) (ctx : FulfillableContext)
    (amount : Currency) (order : list (OutputID * BlockStakeOutput))
    (st : funding) : funding :=
  match order with
  | [] => st
  | (sfoid, sfo) :: order' =>
    if negb (Fulfillable (bso_Condition sfo) ctx) then
      fundBlockStakesLoop w ctx amount order' st
    else if recentlySpent w sfoid then
      fundBlockStakesLoop w ctx amount order'
        {| fd_builder := fd_builder st; fd_fund := fd_fund st;
           fd_potentialFund := fd_potentialFund st + bso_Value sfo;
           fd_spent := fd_spent st |}
    else
      let tb := fd_builder st in
      let uh := ConditionUnlockHash (bso_Condition sfo) in
      let t0 := transaction tb in
      let tb' :=
        {| parents := parents tb; signed := signed tb;
           transaction :=
             set_BlockStakeInputs t0
               (BlockStakeInputs t0 ++ [blockStakeInputFor w sfoid sfo]);
           newParents := newParents tb;
           coinInputs := coinInputs tb;
           blockstakeInputs :=
             blockstakeInputs tb
               ++ [{| InputIndex := length (BlockStakeInputs t0);
                      isc_UnlockHash := uh |}] |} in
      let st' :=
        {| fd_builder := tb'; fd_fund := fd_fund st + bso_Value sfo;
           fd_potentialFund := fd_potentialFund st + bso_Value sfo;
           fd_spent := fd_spent st ++ [sfoid] |} in
      if amount <=? fd_fund st' then st'
      else fundBlockStakesLoop w ctx amount order' st'
  end.

(** [order] is the order in which [range] yields the entries of
    [tb.wallet.blockstakeOutputs], which Go leaves open: some
    permutation of the entries of the map. *)
Definition FundBlockStakes (order : list (OutputID * BlockStakeOutput))
    (tb : transactionBuilder) (w : Wallet Seed) (amount : Currency)
  : transactionBuilder * Wallet Seed * option werror :=
  let ctx := getFulfillableContextForLatestBlock w in
  let st := fundBlockStakesLoop w ctx amount order
              {| fd_builder := tb; fd_fund := 0; fd_potentialFund := 0;
                 fd_spent := [] |} in
  let tb1 := fd_builder st in
  if (amount <=? fd_potentialFund st) && (fd_fund st <? amount) then
    (tb1, w, Some ErrIncompleteTransactions)
  else if fd_fund st <? amount then
    (tb1, w, Some ErrLowBalance)
  else if negb (amount =? fd_fund st) then
    let '(w1, refundUnlockHash, err) := nextPrimarySeedAddress w in
    match err with
    | Some e => (tb1, w1, Some e)
    | None =>
      let refundOutput :=
        {| bso_Value := fd_fund st - amount;
           bso_Condition := NewUnlockHashCondition refundUnlockHash |} in
      let t1 := transaction tb1 in
      (with_transaction tb1
         (set_BlockStakeOutputs t1 (BlockStakeOutputs t1 ++ [refundOutput])),
       markSpent w1 (fd_spent st), None)
    end
  else (tb1, markSpent w (fd_spent st), None).

(** *** Vocabulary of the properties *)

(** The sum of the values of outputs. *)
Fixpoint totalValue {A} (value : A -> Currency) (so : list (OutputID * A))
  : Currency :=
  match so with
  | [] => 0
  | p :: so' => value p.2 + totalValue value so'
  end.

(** The outputs among [so] that the wallet has not spent recently. *)
Definition spendableOf {A} (w : Wallet Seed) (so : list (OutputID * A))
  : list (OutputID * A) :=
  List.filter (fun p => negb (recentlySpent w p.1)) so.

(** The block stake outputs among [order] that are fulfillable. *)
Definition fulfillableOf (ctx : FulfillableContext)
    (order : list (OutputID * BlockStakeOutput))
  : list (OutputID * BlockStakeOutput) :=
  List.filter (fun p => Fulfillable (bso_Condition p.2) ctx) order.

(** The sign contexts the builder keeps for inputs it appends for the
    outputs [chosen] to a list of [n] inputs. *)
Definition signContextsFrom {A} (unlockHash : A -> UnlockHash) (n : nat)
    (chosen : list (OutputID * A)) : list inputSignContext :=
  imap (fun i p => {| InputIndex := n + i; isc_UnlockHash := unlockHash p.2 |})
    chosen.

(** [tb'] differs from [tb] at most in the coin inputs of the
    transaction and in the sign contexts kept for coin inputs. *)
Definition sameButCoinInputs (tb tb' : transactionBuilder) : Prop :=
  tb = {| parents := parents tb'; signed := signed tb';
          transaction :=
            set_CoinInputs (transaction tb') (CoinInputs (transaction tb));
          newParents := newParents tb'; coinInputs := coinInputs tb;
          blockstakeInputs := blockstakeInputs tb' |}.

(** [tb'] differs from [tb] at most in the block stake inputs of the
    transaction and in the sign contexts kept for block stake inputs. *)
Definition sameButBlockStakeInputs (tb tb' : transactionBuilder) : Prop :=
  tb = {| parents := parents tb'; signed := signed tb';
          transaction :=
            set_BlockStakeInputs (transaction tb')
              (BlockStakeInputs (transaction tb));
          newParents := newParents tb'; coinInputs := coinInputs tb';
          blockstakeInputs := blockstakeInputs tb |}.

(** Every sign context of the builder holds the index of an input of
    the transaction. *)
Definition signContextsInRange (tb : transactionBuilder) : Prop :=
  Forall (fun c => (InputIndex c < length (CoinInputs (transaction tb)))%nat)
    (coinInputs tb)
  /\ Forall (fun c =>
        (InputIndex c < length (BlockStakeInputs (transaction tb)))%nat)
      (blockstakeInputs tb).

(** The calls on a builder, with their arguments; [FundBlockStakesCall]
    with the order in which the map is ranged over. *)
Inductive builderCall : Type :=
  | FundCoinsCall (amount : Currency)
  | FundBlockStakesCall (order : list (OutputID * BlockStakeOutput))
      (amount : Currency)
  | AddParentsCall (newParents : list Transaction)
  | AddMinerFeeCall (fee : Currency)
  | AddCoinInputCall (input : CoinInput)
  | AddCoinOutputCall (output : CoinOutput)
  | AddBlockStakeInputCall (input : BlockStakeInput)
  | SpendBlockStakeCall (ubsoid : OutputID)
  | AddBlockStakeOutputCall (output : BlockStakeOutput)
  | SetArbitraryDataCall (arb : bytes)
  | DropCall.

(** The builder and the wallet after a call, whatever it returns. *)
Definition call (c : builderCall) (s : transactionBuilder * Wallet Seed)
  : transactionBuilder * Wallet Seed :=
  let '(tb, w) := s in
  match c with
  | FundCoinsCall amount => (FundCoins tb w amount).1
  | FundBlockStakesCall order amount => (FundBlockStakes order tb w amount).1
  | AddParentsCall ps => (AddParents tb ps, w)
  | AddMinerFeeCall fee => ((AddMinerFee tb fee).1, w)
  | AddCoinInputCall input => ((AddCoinInput tb input).1, w)
  | AddCoinOutputCall output => ((AddCoinOutput tb output).1, w)
  | AddBlockStakeInputCall input => ((AddBlockStakeInput tb input).1, w)
  | SpendBlockStakeCall ubsoid => (SpendBlockStake tb w ubsoid).1
  | AddBlockStakeOutputCall output => ((AddBlockStakeOutput tb output).1, w)
  | SetArbitraryDataCall arb => (SetArbitraryData tb arb, w)
  | DropCall => Drop tb w
  end.

End Funding.

End Builder.

End wallet.

(** ** The gateway's peers (package gateway, peers.go) *)

Module gateway.

Definition NetAddress : Type := string.

Inductive gerror : Type :=
  (* errNoPeers *)
  | errNoPeers
  (* errors.New(text), fmt.Errorf with its text *)
  | errorText (text : string)
  (* an error returned by g.threads.Add() *)
  | threadsError (text : string).

(** What peers.go takes from the rest of packages gateway, modules and
    encoding. *)
Class GatewayExternals : Type := {
  (* build.ProtocolVersion *)
  ProtocolVersion : Type;
  (* streamSession, as far as Close is called on it *)
  Session : Type;
  (* the values of g.nodes *)
  Node : Type;
  (* NetAddress.Host() *)
  Host : NetAddress -> string;
  (* NetAddress.IsStdValid(), with the text of its error *)
  IsStdValid : NetAddress -> option string;
  fullyConnectedThreshold : nat;
  (* net.Conn *)
  Conn : Type;
  (* encoding.ReadObject(conn, &remoteAddress, max): the connection after
     the read, what remoteAddress holds after it, and the text of the
     error *)
  ReadNetAddress : Conn -> Conn * NetAddress * option string;
  (* encoding.WriteObject(conn, s) for a string or a NetAddress s *)
  WriteObject : Conn -> string -> Conn * option string;
  (* host, _, _ := net.SplitHostPort(conn.LocalAddr().String()) *)
  LocalHost : Conn -> string;
  (* net.JoinHostPort *)
  JoinHostPort : string -> string -> string
}.

Section Peers.
Context `{GatewayExternals}.

(** [modules.Peer]. *)
Record Peer : Type := mkPeer {
  Inbound : bool;
  Local : bool;
  Peer_NetAddress : NetAddress;
  Peer_Version : ProtocolVersion
}.

(** [peer] embeds [modules.Peer]: [p.NetAddress] is [pNetAddress p]. *)
Record peer : Type := mkpeer {
  peer_Peer : Peer;
  sess : Session
}.

Definition pNetAddress (p : peer) : NetAddress := Peer_NetAddress (peer_Peer p).
Definition pInbound (p : peer) : bool := Inbound (peer_Peer p).
Definition pLocal (p : peer) : bool := Local (peer_Peer p).

(** The fields of [Gateway] that these methods read or write, and what
    they do besides: the sessions they call [Close] on, in that order,
    and the peers they start a [threadedListenPeer] goroutine for. Log
    lines are left out. *)
Record Gateway : Type := mkGateway {
  peers : gmap NetAddress peer;
  nodes : gmap NetAddress Node;
  port : string;
  closedSessions : list Session;
  listenedPeers : list peer
}.

Definition addPeer (g : Gateway) (p : peer) : Gateway :=
  {| peers := <[pNetAddress p := p]> (peers g); nodes := nodes g;
     port := port g; closedSessions := closedSessions g;
     listenedPeers := listenedPeers g ++ [p] |}.

Section Chance.
(** What Go leaves open: [order] is the order in which [range] yields
    the entries of [g.peers], a permutation of its entries; [Intn n] is
    the number [fastrand.Intn(n)] returns. *)
Variable order : list (NetAddress * peer).
Variable Intn : nat -> nat.

Definition randomOutboundPeer : result (NetAddress * option gerror) :=
  (* Get the list of outbound peers. *)
  let addrs := map fst (List.filter (fun ap => negb (pInbound ap.2)) order) in
  if (length addrs =? 0)%nat then Ret (""%string, Some errNoPeers)
  else
    (* Of the remaining options, select one at random. *)
    match addrs !! Intn (length addrs) with
    | Some addr => Ret (addr, None)
    | None => Panic "index out of range"
    end.

(** The loop of [acceptPeer] that selects the peers to kick from. *)
Fixpoint kickCandidates (host : string) (entries : list (NetAddress * peer))
    (addrs : list NetAddress) : list NetAddress :=
  match entries with
  | [] => addrs
  | (addr, pr) :: entries' =>
    (* Do not kick outbound peers or local peers. *)
    if negb (pInbound pr) || pLocal pr then kickCandidates host entries' addrs
    (* Prefer kicking a peer with the same hostname. *)
    else if String.eqb (Host addr) host then [addr]
    else kickCandidates host entries' (addrs ++ [addr])
  end.

Definition acceptPeer (g : Gateway) (p : peer) : result Gateway :=
  (* If we are not fully connected, add the peer without kicking any out. *)
  if (size (peers g) <? fullyConnectedThreshold)%nat then Ret (addPeer g p)
  else
    let addrs := kickCandidates (Host (pNetAddress p)) order [] in
    if (length addrs =? 0)%nat then
      (* There is nobody suitable to kick, therefore do not kick anyone. *)
      Ret (addPeer g p)
    else
      match addrs !! Intn (length addrs) with
      | None => Panic "index out of range"
      | Some kick =>
        match peers g !! kick with
        | None => Panic "invalid memory address or nil pointer dereference"
        | Some kicked =>
          Ret (addPeer
                 {| peers := delete kick (peers g); nodes := nodes g;
                    port := port g;
                    closedSessions := closedSessions g ++ [sess kicked];
                    listenedPeers := listenedPeers g |} p)
        end
      end.

(** [Peers]: the peers in the order of the range. *)
Definition Peers : list Peer := map (fun ap => peer_Peer ap.2) order.

End Chance.

(** [threadsAdd] is what [g.threads.Add()] returns. The peer list is
    taken not to change between the lookup and the removal, which the
    source does under two separate locks. *)
Definition Disconnect (threadsAdd : option gerror) (g : Gateway)
    (addr : NetAddress) : Gateway * option gerror :=
  match threadsAdd with
  | Some err => (g, Some err)
  | None =>
    match peers g !! addr with
    | None => (g, Some (errorText "not connected to that node"))
    | Some p =>
      ({| peers := delete addr (peers g); nodes := delete addr (nodes g);
          port := port g; closedSessions := closedSessions g ++ [sess p];
          listenedPeers := listenedPeers g |}, None)
    end
  end.

(** The connection as the handshake leaves it, the remote address and
    the error. *)
Definition acceptConnSessionHandshakeV102 (g : Gateway) (conn : Conn)
  : Conn * NetAddress * option gerror :=
  (* receive their address first, as we accept *)
  let '(conn1, remoteAddress, rerr) := ReadNetAddress conn in
  let err0 :=
    match rerr with
    | Some e =>
      Some (errorText ("accept: could not read remote address: " ++ e))
    | None => None
    end in
  (* validate the address *)
  let '(conn2, err1) :=
    match IsStdValid remoteAddress with
    | Some e =>
      ((WriteObject conn1 "reject").1,
       Some (errorText ("peer's address (" ++ remoteAddress
                          ++ ") is invalid: " ++ e)))
    | None => (conn1, None)
    end in
  (* write now our net address *)
  let host := LocalHost conn2 in
  let netAddr := JoinHostPort host (port g) in
  let '(conn3, werr) := WriteObject conn2 netAddr in
  match werr with
  | Some e => (conn3, remoteAddress,
               Some (errorText ("could not write address: " ++ e)))
  | None => (conn3, remoteAddress, None)
  end.

(** *** Vocabulary of the properties *)

(** [acceptPeer] may kick the peer: it is inbound and not local. *)
Definition kickable (pr : peer) : Prop :=
  pInbound pr = true /\ pLocal pr = false.

(** [Intn] keeps the contract of [fastrand.Intn]: a number below its
    argument. *)
Definition inRange (Intn : nat -> nat) : Prop :=
  forall n, (0 < n)%nat -> (Intn n < n)%nat.

End Peers.

End gateway.

(** ** A test double of the externals

    Small stand-ins for the hash functions and the signature scheme, to run
    the model on concrete inputs. Nothing below is proved from them except
    the examples that name them. *)

Module testing.
Import encoding.

Definition specifier (s : string) : Specifier :=
  let b := list_byte_of_string s in b ++ zeroes (SpecifierLen - length b).

(** The low 32 bytes of the input read as a number. *)
Definition fold32 (b : bytes) : bytes := le_bytes 32 (le_value b).

Definition objectBytes (o : Object) : bytes :=
  match o with ObjAtomicSwapSecret s => s end.

(** A signature is the hash followed by the key; the secret key is the
    public key. *)
Definition sign (h sk : bytes) : bytes := h ++ sk.

Definition verify (h pk sig : bytes) : option error :=
  if decide (sig = h ++ pk) then None else Some ErrInvalidSignature.

#[export] Instance externals : Externals := {
  Transaction := bytes;
  InputSigHash tx i extra :=
    fold32 (EncUint64 i ++ concat (map objectBytes extra) ++ tx);
  SignatureEntropy := specifier "entropy";
  SignatureEd25519 := specifier "ed25519";
  SignatureEntropy_Ed25519 := ltac:(discriminate);
  HashBytes := fold32;
  SignHash := sign;
  VerifyHash := verify;
  Sum256 := fold32
}.

#[export] Instance chain : consensus.ChainExternals := {
  consensus.BlockBody := unit;
  consensus.BlockBody_zero := tt;
  consensus.Target := N;
  consensus.Depth := N;
  consensus.FileContract := unit;
  consensus.RootTarget := 32;
  consensus.RootDepth := 0;
  consensus.SiafundCount := 10000;
  consensus.CalculateCoinbase h := 300000 - h;
  consensus.Block_ID b := fold32 (EncUint64 (consensus.b_Timestamp b));
  consensus.Block_MinerPayoutID b i :=
    fold32 (EncUint64 (consensus.b_Timestamp b) ++ EncUint64 i)
}.

(** Inputs of the examples. *)
Definition key32 : bytes := replicate 32 Byte.x07.
Definition sig64 : bytes := replicate 64 Byte.x05.
Definition secret0 : bytes := replicate 32 Byte.x2a.
Definition tx0 : Transaction := [Byte.x01; Byte.x02; Byte.x03].

Definition ed25519Key : SiaPublicKey :=
  {| Algorithm := specifier "ed25519"; Key := key32 |}.
Definition entropyKey : SiaPublicKey :=
  {| Algorithm := specifier "entropy"; Key := key32 |}.
Definition futureKey : SiaPublicKey :=
  {| Algorithm := specifier "schnorr"; Key := key32 |}.

Definition holder : UnlockHash := singleSignatureUnlockHash ed25519Key.
Definition other : UnlockHash := singleSignatureUnlockHash entropyKey.

(** A swap from [sender] to [receiver] until time 10, fulfilled by the
    Ed25519 key with a signature over the given extra objects. *)
Definition swap (sender receiver : UnlockHash) (extra : list Object)
  : AtomicSwapInputLock :=
  {| as_Timelock := 10;
     as_Sender := sender;
     as_Receiver := receiver;
     as_HashedSecret := Sum256 secret0;
     as_PublicKey := ed25519Key;
     as_Signature := SignHash (InputSigHash tx0 0 extra) key32;
     as_Secret := secret0 |}.

Definition claimLock : AtomicSwapInputLock :=
  swap other holder [ObjAtomicSwapSecret secret0].
Definition refundLock : AtomicSwapInputLock := swap holder other [].

(** [claimLock] fulfilled with another secret, signed as such. *)
Definition wrongSecret : bytes := replicate 32 Byte.x2b.

Definition wrongSecretLock : AtomicSwapInputLock :=
  as_sign (as_claim claimLock wrongSecret ed25519Key)
    (SignHash (InputSigHash tx0 0 [ObjAtomicSwapSecret wrongSecret]) key32).

(** The receiver's key under a refund signature. *)
Definition receiverRefundLock : AtomicSwapInputLock := swap other holder [].

Definition zeroProxy : InputLockProxy := {| t := UnlockTypeNil; il := None |}.

(** The single-signature proxy over the Ed25519 key, before and after it
    is locked for input 0 of [tx0]. *)
Definition openProxy : InputLockProxy :=
  {| t := UnlockTypeSingleSignature;
     il := Some (mkInputLock {| ss_PublicKey := ed25519Key;
                                ss_Signature := [] |}) |}.

Definition lockedProxy : InputLockProxy :=
  {| t := UnlockTypeSingleSignature;
     il := Some (mkInputLock
                   {| ss_PublicKey := ed25519Key;
                      ss_Signature := SignHash (InputSigHash tx0 0 []) key32 |}) |}.

(** A proxy of type 0x03, which [init] does not register. *)
Definition unknownProxy : InputLockProxy :=
  {| t := Byte.x03;
     il := Some (mkInputLock {| u_Condition := key32;
                                u_Fulfillment := sig64 |}) |}.

(** [claimLock] before it is signed, and the receiver's claim key. *)
Definition openSwap : AtomicSwapInputLock := as_sign claimLock [].

Definition claimKey : AtomicSwapClaimKey :=
  {| ck_PublicKey := ed25519Key; ck_SecretKey := key32; ck_Secret := secret0 |}.



(** The bytes of [lockedProxy] under its type, held as an unknown lock:
    what [UnmarshalSia] makes of the encoding of [lockedProxy] when the
    single-signature type is not registered. *)
Definition rawLockedProxy : InputLockProxy :=
  {| t := UnlockTypeSingleSignature;
     il := Some (mkInputLock
                   {| u_Condition := codec.EncSiaPublicKey ed25519Key;
                      u_Fulfillment := SignHash (InputSigHash tx0 0 []) key32 |}) |}.

(** Single-signature locks: signed for input 0 of [tx0], and unsigned
    ones over the three kinds of key. *)
Definition signedLock : SingleSignatureInputLock :=
  {| ss_PublicKey := ed25519Key;
     ss_Signature := SignHash (InputSigHash tx0 0 []) key32 |}.

Definition unsignedLock (pk : SiaPublicKey) : SingleSignatureInputLock :=
  {| ss_PublicKey := pk; ss_Signature := [] |}.

(** A later version that gives type 0x03 to single-signature locks. *)
Definition futureConstructor : InputLockConstructor :=
  fun _ => mkInputLock SingleSignatureInputLock_zero.

(** A test double of the externals of package electrum: protocol
    versions are numbers, the services a list of names. *)
#[export] Instance server : electrum.ServerExternals nat := {
  electrum.ProtocolVersion := N;
  electrum.ProtocolVersion_zero := 0;
  electrum.Services := list string;
  electrum.registerService svc name _ :=
    if decide (name ∈ svc) then (svc, Some "Method already registered"%string)
    else (name :: svc, None);
  electrum.decodeVersionParams raw :=
    match raw with
    | [] => None
    | _ => Some ("client"%string, encoding.le_value raw)
    end;
  electrum.ErrInvalidParams :=
    {| electrum.Code := -32602; electrum.Message := "Invalid params";
       electrum.Data := None |};
  electrum.ErrInternal :=
    {| electrum.Code := -32603; electrum.Message := "Internal error";
       electrum.Data := None |};
  electrum.errFatal := electrum.OtherError "fatal"
}.

Definition newClient : electrum.Client :=
  {| electrum.protoVersion := 0; electrum.clientName := "";
     electrum.serviceMap := ["server.ping"%string; "server.version"%string] |}.

Definition server1 : electrum.Electrum :=
  {| electrum.availableVersions := [1] |}.

(** A test double of what the wallet's builder takes from package types
    and from the rest of the wallet: a condition is an unlock hash with
    the height from which it can be fulfilled, a fulfillment the public
    key, the seed a counter of the addresses handed out. *)
#[export] Instance walletTypes : wallet.TypesExternals := {
  wallet.Condition := UnlockHash * N;
  wallet.Fulfillment := bytes;
  wallet.FulfillableContext := N;
  wallet.Fulfillable c ctx := c.2 <=? ctx;
  wallet.ConditionUnlockHash c := c.1;
  wallet.NewUnlockHashCondition uh := (uh, 0);
  wallet.NewSingleSignatureFulfillment pk := pk;
  wallet.RespendTimeout := 40
}.

Definition keyFor (n : N) : bytes := replicate 32 (byte_of_N n).

Definition addressOf (n : N) : UnlockHash :=
  NewUnlockHash UnlockTypeSingleSignature (keyFor n).

(** The order of [sort.Reverse]: the larger value first. *)
Definition largerFirst (a b : wallet.OutputID * wallet.CoinOutput) : Prop :=
  wallet.co_Value b.2 <= wallet.co_Value a.2.

#[export] Instance largerFirst_dec (a b : wallet.OutputID * wallet.CoinOutput)
  : Decision (largerFirst a b) := N.le_dec _ _.

#[export] Instance walletOf : wallet.WalletExternals N := {
  wallet.getFulfillableContextForLatestBlock w := wallet.consensusSetHeight w;
  wallet.nextPrimarySeedAddress w :=
    (wallet.mkWallet (wallet.coinOutputs w) (wallet.blockstakeOutputs w)
       (wallet.unspentblockstakeoutputs w)
       (wallet.unconfirmedProcessedTransactions w)
       (<[addressOf (wallet.seed w) :=
            wallet.mkSpendableKey (keyFor (wallet.seed w))
              (zeroes 64)]> (wallet.keys w))
       (wallet.spentOutputs w) (wallet.consensusSetHeight w)
       (wallet.DefaultTransactionVersion w) (wallet.seed w + 1),
     addressOf (wallet.seed w), None);
  wallet.CoinOutputID txn i := wallet.ArbitraryData txn ++ encoding.EncUint64 i;
  wallet.sortReverse := merge_sort largerFirst;
  wallet.sortReverse_Permutation := merge_sort_Permutation _
}.

(** A wallet at height 100 with the coin outputs [a] (5 coins), [b] (3
    coins) and [c] (7 coins, spent at height 90), the block stake
    output [s], and keys for the addresses 1 and 2. *)
Definition idA : wallet.OutputID := [Byte.x0a].
Definition idB : wallet.OutputID := [Byte.x0b].
Definition idC : wallet.OutputID := [Byte.x0c].
Definition idS : wallet.OutputID := [Byte.x05].

Definition wallet100 : wallet.Wallet N :=
  wallet.mkWallet
    (<[idA := wallet.mkCoinOutput 5 (addressOf 1, 0)]>
       (<[idB := wallet.mkCoinOutput 3 (addressOf 2, 0)]>
          (<[idC := wallet.mkCoinOutput 7 (addressOf 1, 0)]> ∅)))
    (<[idS := wallet.mkBlockStakeOutput 10 (addressOf 1, 0)]> ∅)
    (<[idS := wallet.mkBlockStakeOutput 10 (addressOf 1, 0)]> ∅)
    []
    (<[addressOf 1 := wallet.mkSpendableKey (keyFor 1) (zeroes 64)]>
       (<[addressOf 2 := wallet.mkSpendableKey (keyFor 2) (zeroes 64)]> ∅))
    (<[idC := 90]> ∅)
    100 Byte.x01 3.

(** The builder [StartTransaction] returns. *)
Definition builder0 : wallet.transactionBuilder :=
  wallet.mkTransactionBuilder [] false (wallet.Transaction_new Byte.x01)
    [] [] [].

Definition inputA : wallet.CoinInput :=
  {| wallet.ci_ParentID := idA; wallet.ci_Fulfillment := keyFor 1 |}.
Definition inputB : wallet.CoinInput :=
  {| wallet.ci_ParentID := idB; wallet.ci_Fulfillment := keyFor 2 |}.

(** The calls of the examples: funding 6 coins from [wallet100],
    funding 4 coins from it, funding 2 coins from [wallet120], funding 4
    block stakes from [wallet100]. *)
Definition funded6
  : wallet.transactionBuilder * wallet.Wallet N * option wallet.werror :=
  wallet.FundCoins builder0 wallet100 6.
Definition funded4
  : wallet.transactionBuilder * wallet.Wallet N * option wallet.werror :=
  wallet.FundCoins builder0 wallet100 4.
(** The wallet [w] at another height. *)
Definition atHeight (h : wallet.BlockHeight) (w : wallet.Wallet N)
  : wallet.Wallet N :=
  wallet.mkWallet (wallet.coinOutputs w) (wallet.blockstakeOutputs w)
    (wallet.unspentblockstakeoutputs w)
    (wallet.unconfirmedProcessedTransactions w) (wallet.keys w)
    (wallet.spentOutputs w) h (wallet.DefaultTransactionVersion w)
    (wallet.seed w).

(** The wallet after [funded4], after another builder has spent the
    block stake [s], at height 120. *)
Definition wallet120 : wallet.Wallet N :=
  atHeight 120 (wallet.SpendBlockStake builder0 funded4.1.2 idS).1.2.

Definition funded2
  : wallet.transactionBuilder * wallet.Wallet N * option wallet.werror :=
  wallet.FundCoins builder0 wallet120 2.

(** The wallet after [funded4], after another builder has been given an
    input for [a] and has been dropped. *)
Definition droppedWallet : wallet.Wallet N :=
  (wallet.Drop (wallet.AddCoinInput builder0 inputA).1 funded4.1.2).2.
Definition stakeOrder : list (wallet.OutputID * wallet.BlockStakeOutput) :=
  [(idS, wallet.mkBlockStakeOutput 10 (addressOf 1, 0))].
Definition staked4
  : wallet.transactionBuilder * wallet.Wallet N * option wallet.werror :=
  wallet.FundBlockStakes stakeOrder builder0 wallet100 4.

(** A test double of the externals of package gateway: the host of an
    address is what precedes its colon, every address but the empty one
    is valid, two peers make the gateway fully connected, and a
    connection is the list of the objects written to it, on which every
    write succeeds and from which one address is read. *)
Fixpoint hostOf (s : string) : string :=
  match s with
  | EmptyString => EmptyString
  | String c s' => if String.eqb (String c EmptyString) ":" then EmptyString else String c (hostOf s')
  end.

#[export] Instance gatewayOf : gateway.GatewayExternals := {
  gateway.ProtocolVersion := N;
  gateway.Session := N;
  gateway.Node := unit;
  gateway.Host := hostOf;
  gateway.IsStdValid a :=
    if String.eqb a "" then Some "empty address"%string else None;
  gateway.fullyConnectedThreshold := 2;
  gateway.Conn := list string;
  gateway.ReadNetAddress c := (c, "10.0.0.9:23112"%string, None);
  gateway.WriteObject c s := (c ++ [s], None);
  gateway.LocalHost _ := "10.0.0.1"%string;
  gateway.JoinHostPort h p := (h ++ ":" ++ p)%string
}.

(** An inbound peer from 10.0.0.2 on session 2, an outbound peer at
    10.0.0.3 on session 3, and a new inbound peer from 10.0.0.2 on
    session 7. *)
Definition peer2 : gateway.peer :=
  gateway.mkpeer (gateway.mkPeer true false "10.0.0.2:1" 1) 2.
Definition peer3 : gateway.peer :=
  gateway.mkpeer (gateway.mkPeer false false "10.0.0.3:1" 1) 3.
Definition peer7 : gateway.peer :=
  gateway.mkpeer (gateway.mkPeer true false "10.0.0.2:7" 1) 7.

Definition gateway2 : gateway.Gateway :=
  gateway.mkGateway
    (<["10.0.0.2:1"%string := peer2]> (<["10.0.0.3:1"%string := peer3]> ∅))
    ∅ "23112" [] [].

Definition order2 : list (gateway.NetAddress * gateway.peer) :=
  [("10.0.0.3:1"%string, peer3); ("10.0.0.2:1"%string, peer2)].

(** [fastrand.Intn] returning 0. *)
Definition firstOf (n : nat) : nat := 0.

End testing.

(** * Properties *)

(** ** The codec *)

Section Codec.
Import encoding.

Lemma byte_to_of_N (n : N) : n < 256 -> Byte.to_N (byte_of_N n) = n.
Proof.
  intros Hn. unfold byte_of_N.
  destruct (Byte.of_N n) as [b|] eqn:E.
  - simpl. by apply Byte.to_of_N.
  - apply Byte.of_N_None_iff in E. lia.
Qed.

Lemma length_le_bytes (k : nat) (n : N) : length (le_bytes k n) = k.
Proof. revert n. induction k as [|k IH]; intros n; simpl; [done|]. by rewrite IH. Qed.

Lemma le_value_le_bytes (k : nat) (n : N) :
  le_value (le_bytes k n) = n mod 256 ^ N.of_nat k.
Proof.
  revert n. induction k as [|k IH]; intros n.
  - simpl. by rewrite N.mod_1_r.
  - cbn [le_bytes le_value]. rewrite IH.
    rewrite byte_to_of_N by (apply N.mod_lt; lia).
    rewrite Nat2N.inj_succ, N.pow_succ_r'.
    rewrite N.Div0.mod_mul_r. lia.
Qed.

Lemma le_value_EncUint64 (n : N) : n < 2 ^ 64 -> le_value (EncUint64 n) = n.
Proof.
  intros Hn. unfold EncUint64. rewrite le_value_le_bytes.
  apply N.mod_small. exact Hn.
Qed.

Lemma readFull_app (a r : bytes) :
  readFull (N.of_nat (length a)) (a ++ r) = Decoded a r.
Proof.
  unfold readFull. rewrite length_app, Nat2N.id.
  destruct (N.leb_spec (N.of_nat (length a)) (N.of_nat (length a + length r)));
    [|lia].
  by rewrite take_app_length, drop_app_length.
Qed.

Lemma readFull_app' (n : N) (a r : bytes) :
  n = N.of_nat (length a) -> readFull n (a ++ r) = Decoded a r.
Proof. intros ->. apply readFull_app. Qed.

Lemma DecUint64_Enc (n : N) (r : bytes) :
  n < 2 ^ 64 -> DecUint64 (EncUint64 n ++ r) = Decoded n r.
Proof.
  intros Hn. unfold DecUint64, dbind.
  rewrite (readFull_app' 8 (EncUint64 n) r)
    by (unfold EncUint64; by rewrite length_le_bytes).
  unfold dret. by rewrite le_value_EncUint64.
Qed.

Lemma DecBytes_Enc (b r : bytes) :
  N.of_nat (length b) < 2 ^ 64 -> DecBytes (EncBytes b ++ r) = Decoded b r.
Proof.
  intros Hb. unfold DecBytes, EncBytes, dbind.
  rewrite <- app_assoc, DecUint64_Enc by done.
  apply readFull_app.
Qed.

Lemma DecArray_Enc (n : nat) (b r : bytes) :
  length b = n -> DecArray n (EncArray b ++ r) = Decoded b r.
Proof. intros <-. apply readFull_app. Qed.

Lemma dbind_Decoded {A B} (d : Decoder A) (k : A -> Decoder B) r a r' :
  d r = Decoded a r' -> dbind d k r = k a r'.
Proof. unfold dbind. by intros ->. Qed.

Lemma DecUnlockType_Enc (t : UnlockType) (r : bytes) :
  codec.DecUnlockType (codec.EncUnlockType t ++ r) = Decoded t r.
Proof.
  unfold codec.DecUnlockType, codec.EncUnlockType.
  by erewrite dbind_Decoded by (by apply readFull_app').
Qed.

Lemma DecUnlockHash_Enc (h : UnlockHash) (r : bytes) :
  wf_UnlockHash h ->
  codec.DecUnlockHash (codec.EncUnlockHash h ++ r) = Decoded h r.
Proof.
  intros Hh. destruct h as [t hash]. unfold codec.DecUnlockHash, codec.EncUnlockHash.
  rewrite <- app_assoc.
  erewrite dbind_Decoded by apply DecUnlockType_Enc.
  erewrite dbind_Decoded by (apply DecArray_Enc, Hh).
  reflexivity.
Qed.

Lemma DecSiaPublicKey_Enc (pk : SiaPublicKey) (r : bytes) :
  wf_SiaPublicKey pk ->
  codec.DecSiaPublicKey (codec.EncSiaPublicKey pk ++ r) = Decoded pk r.
Proof.
  intros [Ha Hk]. destruct pk as [a k].
  unfold codec.DecSiaPublicKey, codec.EncSiaPublicKey.
  rewrite <- app_assoc.
  erewrite dbind_Decoded by (apply DecArray_Enc, Ha).
  erewrite dbind_Decoded by (apply DecBytes_Enc, Hk).
  reflexivity.
Qed.

Lemma DecAtomicSwapCondition_Enc (c : AtomicSwapCondition) (r : bytes) :
  wf_AtomicSwapCondition c ->
  codec.DecAtomicSwapCondition (codec.EncAtomicSwapCondition c ++ r)
  = Decoded c r.
Proof.
  intros (Hs & Hr & Hh & Ht). destruct c as [s rc hs tl].
  unfold codec.DecAtomicSwapCondition, codec.EncAtomicSwapCondition.
  rewrite <- !app_assoc.
  erewrite dbind_Decoded by (apply DecUnlockHash_Enc, Hs).
  erewrite dbind_Decoded by (apply DecUnlockHash_Enc, Hr).
  erewrite dbind_Decoded by (apply DecArray_Enc, Hh).
  erewrite dbind_Decoded by (apply DecUint64_Enc, Ht).
  reflexivity.
Qed.

Lemma DecAtomicSwapFulfillment_Enc (f : AtomicSwapFulfillment) (r : bytes) :
  wf_AtomicSwapFulfillment f ->
  codec.DecAtomicSwapFulfillment (codec.EncAtomicSwapFulfillment f ++ r)
  = Decoded f r.
Proof.
  intros (Hp & Hs & Hx). destruct f as [pk sig sec].
  unfold codec.DecAtomicSwapFulfillment, codec.EncAtomicSwapFulfillment.
  rewrite <- !app_assoc.
  erewrite dbind_Decoded by (apply DecSiaPublicKey_Enc, Hp).
  erewrite dbind_Decoded by (apply DecBytes_Enc, Hs).
  erewrite dbind_Decoded by (apply DecArray_Enc, Hx).
  reflexivity.
Qed.

Lemma RawInputLockFormat_UnmarshalSia_MarshalSia (rf : RawInputLockFormat) r :
  wf_slice (rf_Condition rf) -> wf_slice (rf_Fulfillment rf) ->
  codec.RawInputLockFormat_UnmarshalSia
    (codec.RawInputLockFormat_MarshalSia rf ++ r) = Decoded rf r.
Proof.
  intros Hc Hf. destruct rf as [c f].
  unfold codec.RawInputLockFormat_UnmarshalSia,
    codec.RawInputLockFormat_MarshalSia.
  rewrite <- !app_assoc.
  erewrite dbind_Decoded by (apply DecBytes_Enc, Hc).
  erewrite dbind_Decoded by (apply DecBytes_Enc, Hf).
  reflexivity.
Qed.

Lemma Unmarshal_Enc {A} (d : Decoder A) (enc : bytes) (a : A) :
  d (enc ++ []) = Decoded a [] -> Unmarshal d enc = inl a.
Proof. rewrite app_nil_r. unfold Unmarshal. by intros ->. Qed.

End Codec.

(** ** Signatures *)

Section Signatures.
Context `{Externals}.

Lemma strictSignatureCheck_Ed25519 (pk : SiaPublicKey) (sig : bytes) :
  Algorithm pk = SignatureEd25519 ->
  strictSignatureCheck pk sig = None
  <-> length (Key pk) = PublicKeySize /\ length sig = SignatureSize.
Proof.
  intros Ha. unfold strictSignatureCheck. rewrite Ha.
  destruct (decide (SignatureEd25519 = SignatureEntropy)) as [E|_].
  { exfalso. by apply SignatureEntropy_Ed25519. }
  rewrite decide_True by done.
  repeat case_decide; split; try done; intros [? ?]; done.
Qed.

Lemma strictSignatureCheck_Entropy (pk : SiaPublicKey) (sig : bytes) :
  Algorithm pk = SignatureEntropy -> strictSignatureCheck pk sig = None.
Proof. intros Ha. unfold strictSignatureCheck. by rewrite decide_True. Qed.

Lemma verifyHash_unrecognized pk inputIndex tx sig extra :
  Algorithm pk <> SignatureEntropy -> Algorithm pk <> SignatureEd25519 ->
  verifyHashUsingSiaPublicKey pk inputIndex tx sig extra = None.
Proof.
  intros He Hd. unfold verifyHashUsingSiaPublicKey.
  by rewrite !decide_False.
Qed.

(** C7. With the entropy tag as algorithm of the public key, signing
    returns no signature and [ErrEntropyKey], and verifying returns
    [ErrEntropyKey], whatever the input index, the transaction, the key,
    the extra objects and the signature are. *)
Theorem entropy_never_signs_nor_verifies (pk : SiaPublicKey)
    (inputIndex : N) (tx : Transaction) (key : LockKey) (sig : bytes)
    (extraObjects : list Object) :
  Algorithm pk = SignatureEntropy ->
  signHashUsingSiaPublicKey pk inputIndex tx key extraObjects
    = Ret ([], Some ErrEntropyKey)
  /\ verifyHashUsingSiaPublicKey pk inputIndex tx sig extraObjects
    = Some ErrEntropyKey.
Proof.
  intros Ha. unfold signHashUsingSiaPublicKey, verifyHashUsingSiaPublicKey.
  by rewrite !decide_True.
Qed.


End Signatures.

(** ** The proxy *)

Section Proxy.
Context `{Externals}.
Import encoding.

(** C5. A proxy of the nil type (0x00) has the all-zero unlock hash,
    type byte zero and 32 zero bytes, whatever lock it carries. *)
Theorem nil_proxy_zero_unlock_hash (payload : option InputLock) :
  InputLockProxy_UnlockHash {| t := UnlockTypeNil; il := payload |}
  = Ret {| uh_Type := Byte.x00; uh_Hash := replicate 32 Byte.x00 |}.
Proof.
  unfold InputLockProxy_UnlockHash. cbn [t].
  rewrite decide_True by reflexivity.
  reflexivity.
Qed.


Lemma NewSingleSignatureInputLock_UnlockHash (pk : SiaPublicKey) :
  (p <-! NewSingleSignatureInputLock pk; InputLockProxy_UnlockHash p)
  = Ret (singleSignatureUnlockHash pk).
Proof. reflexivity. Qed.

Lemma UnlockHash_differs (x y : UnlockHash) :
  (uh_Type x <> uh_Type y \/ uh_Hash x <> uh_Hash y) <-> x <> y.
Proof.
  destruct x as [tx hx], y as [ty hy]; simpl. split.
  - intros [Hd|Hd] [= -> ->]; by apply Hd.
  - intros Hd. destruct (decide (tx = ty)) as [->|]; [|by left].
    right. intros ->. by apply Hd.
Qed.

(** [AtomicSwapInputLock.Unlock], as an equation. *)
Lemma AtomicSwapInputLock_Unlock_eq (a : AtomicSwapInputLock)
    (now : Timestamp) (inputIndex : N) (tx : Transaction) :
  AtomicSwapInputLock_Unlock a now inputIndex tx =
  Ret (if (now <=? as_Timelock a)%N then
         if decide (singleSignatureUnlockHash (as_PublicKey a) <> as_Receiver a)
         then Some ErrInvalidRedeemer
         else match verifyHashUsingSiaPublicKey (as_PublicKey a) inputIndex
                      tx (as_Signature a) [ObjAtomicSwapSecret (as_Secret a)] with
              | Some err => Some err
              | None => if decide (as_HashedSecret a <> Sum256 (as_Secret a))
                        then Some ErrInvalidPreImageSha256 else None
              end
       else
         if decide (singleSignatureUnlockHash (as_PublicKey a) <> as_Sender a)
         then Some ErrInvalidRedeemer
         else verifyHashUsingSiaPublicKey (as_PublicKey a) inputIndex tx
                (as_Signature a) []).
Proof.
  unfold AtomicSwapInputLock_Unlock.
  change (NewSingleSignatureInputLock (as_PublicKey a))
    with (Ret {| t := UnlockTypeSingleSignature;
                 il := Some (mkInputLock {| ss_PublicKey := as_PublicKey a;
                                           ss_Signature := [] |}) |}).
  cbn [rbind].
  change (InputLockProxy_UnlockHash _)
    with (Ret (singleSignatureUnlockHash (as_PublicKey a))).
  cbn [rbind].
  destruct (now <=? as_Timelock a)%N.
  - destruct (decide (singleSignatureUnlockHash (as_PublicKey a) <> as_Receiver a))
      as [Hd|Hd].
    + rewrite decide_True by (by apply UnlockHash_differs). done.
    + rewrite decide_False by (by rewrite UnlockHash_differs).
      destruct (verifyHashUsingSiaPublicKey _ _ _ _ _); [done|].
      by case_decide.
  - destruct (decide (singleSignatureUnlockHash (as_PublicKey a) <> as_Sender a))
      as [Hd|Hd].
    + rewrite decide_True by (by apply UnlockHash_differs). done.
    + rewrite decide_False by (by rewrite UnlockHash_differs). done.
Qed.

End Proxy.

(** ** The atomic swap *)

Section AtomicSwap.
Context `{Externals}.

(** C1. Up to the timelock, an atomic-swap lock unlocks exactly when the
    single-signature unlock hash of the fulfilling public key is the
    receiver's, the signature verifies with the secret as extra signed
    object, and the SHA-256 of the secret is the hashed secret; it fails
    otherwise, with [ErrInvalidPreImageSha256] when only the secret is
    wrong. After the timelock it unlocks exactly when that unlock hash
    is the sender's and the signature verifies without extra object, and
    the secret plays no part. *)
Theorem atomic_swap_unlock_rule (a : AtomicSwapInputLock) (now : Timestamp)
    (inputIndex : N) (tx : Transaction) :
  let redeemer := singleSignatureUnlockHash (as_PublicKey a) in
  let verifies extraObjects :=
    verifyHashUsingSiaPublicKey (as_PublicKey a) inputIndex tx
      (as_Signature a) extraObjects = None in
  let claimable :=
    redeemer = as_Receiver a
    /\ verifies [ObjAtomicSwapSecret (as_Secret a)]
    /\ Sum256 (as_Secret a) = as_HashedSecret a in
  let refundable := redeemer = as_Sender a /\ verifies [] in
  (now <= as_Timelock a ->
     (AtomicSwapInputLock_Unlock a now inputIndex tx = Ret None <-> claimable)
     /\ (~ claimable ->
         exists err, AtomicSwapInputLock_Unlock a now inputIndex tx
                     = Ret (Some err))
     /\ (redeemer = as_Receiver a ->
         verifies [ObjAtomicSwapSecret (as_Secret a)] ->
         Sum256 (as_Secret a) <> as_HashedSecret a ->
         AtomicSwapInputLock_Unlock a now inputIndex tx
         = Ret (Some ErrInvalidPreImageSha256)))
  /\ (as_Timelock a < now ->
     (AtomicSwapInputLock_Unlock a now inputIndex tx = Ret None <-> refundable)
     /\ (~ refundable ->
         exists err, AtomicSwapInputLock_Unlock a now inputIndex tx
                     = Ret (Some err))
     /\ (forall secret,
         AtomicSwapInputLock_Unlock (as_claim a secret (as_PublicKey a))
           now inputIndex tx
         = AtomicSwapInputLock_Unlock a now inputIndex tx)).
Proof.
  intros redeemer verifies claimable refundable.
  subst claimable refundable verifies redeemer. cbv beta.
  split; intros Hnow.
  - assert ((now <=? as_Timelock a)%N = true) as Hle by (by apply N.leb_le).
    rewrite AtomicSwapInputLock_Unlock_eq, Hle.
    destruct (decide (singleSignatureUnlockHash (as_PublicKey a) <> as_Receiver a))
      as [Hr|Hr].
    { split; [|split].
      - split; [discriminate|]. intros (Hr' & _). done.
      - eauto.
      - intros Hr'. done. }
    apply dec_stable in Hr.
    destruct (verifyHashUsingSiaPublicKey (as_PublicKey a) inputIndex tx
                (as_Signature a) [ObjAtomicSwapSecret (as_Secret a)])
      as [e|] eqn:Hv.
    { split; [|split].
      - split; [discriminate|]. intros (_ & Hv' & _). discriminate.
      - eauto.
      - intros _ Hv'. discriminate. }
    destruct (decide (as_HashedSecret a <> Sum256 (as_Secret a))) as [Hs|Hs].
    { split; [|split].
      - split; [discriminate|]. intros (_ & _ & Hs'). by destruct Hs.
      - eauto.
      - done. }
    apply dec_stable in Hs.
    split; [|split].
    + split; [|done]. intros _. by rewrite Hs.
    + intros Hc. destruct Hc. by rewrite Hs.
    + intros _ _ Hs'. by destruct Hs'.
  - assert ((now <=? as_Timelock a)%N = false) as Hle by (by apply N.leb_gt).
    split; [|split].
    + rewrite AtomicSwapInputLock_Unlock_eq, Hle.
      case_decide as Hr.
      * split; [discriminate|]. intros (Hr' & _). done.
      * split.
        -- intros [= Hv]. done.
        -- intros (_ & ->). done.
    + rewrite AtomicSwapInputLock_Unlock_eq, Hle. intros Hc.
      case_decide as Hr; [eauto|].
      destruct (verifyHashUsingSiaPublicKey _ _ _ _ _) as [e|] eqn:Hv;
        [eauto|]. by destruct Hc.
    + intros secret. rewrite !AtomicSwapInputLock_Unlock_eq. simpl.
      by rewrite Hle.
Qed.

End AtomicSwap.

(** ** Decoding a proxy *)

Section Decoding.
Context `{Externals}.
Import encoding.

Implicit Types (reg : gmap UnlockType InputLockConstructor).
Implicit Types (p : InputLockProxy) (rf : RawInputLockFormat).

Lemma UnmarshalSia_nil reg p (r : bytes) :
  InputLockProxy_UnmarshalSia reg p (codec.EncUnlockType UnlockTypeNil ++ r)
  = ({| t := UnlockTypeNil; il := il p |}, None, r).
Proof.
  unfold InputLockProxy_UnmarshalSia.
  by rewrite DecUnlockType_Enc, decide_True.
Qed.

Lemma UnmarshalSia_wire reg p (ty : UnlockType) rf (r : bytes) :
  ty <> UnlockTypeNil ->
  wf_slice (rf_Condition rf) -> wf_slice (rf_Fulfillment rf) ->
  InputLockProxy_UnmarshalSia reg p (wire ty rf ++ r)
  = ({| t := ty; il := Some (il_Decode (freshLock reg ty) rf).1 |},
     (il_Decode (freshLock reg ty) rf).2, r).
Proof.
  intros Hty Hc Hf. unfold InputLockProxy_UnmarshalSia, wire.
  rewrite <- app_assoc, DecUnlockType_Enc.
  rewrite decide_False by done.
  by rewrite RawInputLockFormat_UnmarshalSia_MarshalSia.
Qed.

(** What a decoding that returns no error leaves in the proxy. *)
Lemma UnmarshalSia_inv reg p p' (data rest : bytes) :
  InputLockProxy_UnmarshalSia reg p data = (p', None, rest) ->
  (t p' = UnlockTypeNil /\ il p' = il p)
  \/ (t p' <> UnlockTypeNil
      /\ exists rf, il p' = Some (il_Decode (freshLock reg (t p')) rf).1).
Proof.
  unfold InputLockProxy_UnmarshalSia.
  destruct (codec.DecUnlockType data) as [ty r1|e]; [|discriminate].
  destruct (decide (ty = UnlockTypeNil)) as [Hty|Hty].
  { intros [= <- <-]. by left. }
  destruct (codec.RawInputLockFormat_UnmarshalSia r1) as [rf r2|e];
    [|discriminate].
  intros [= <- Hd <-]. right. split; [done|]. by exists rf.
Qed.

Lemma freshLock_unknown reg (ty : UnlockType) :
  reg !! ty = None -> freshLock reg ty = mkInputLock UnknownInputLock_zero.
Proof. unfold freshLock, InputLockConstructor in *. by intros ->. Qed.

End Decoding.

(** ** Unknown types *)

Section Unknown.
Context `{Externals}.
Import encoding.

Implicit Types (reg : gmap UnlockType InputLockConstructor).
Implicit Types (p : InputLockProxy) (rf : RawInputLockFormat).

Lemma il_Decode_unknown rf :
  il_Decode (mkInputLock UnknownInputLock_zero) rf
  = (mkInputLock {| u_Condition := rf_Condition rf;
                    u_Fulfillment := rf_Fulfillment rf |}, None).
Proof. reflexivity. Qed.

(** C4, amended. For a type other than the nil type that is not in the
    registry, decoding leaves in the proxy an [UnknownInputLock] holding
    the condition and fulfillment bytes as they were on the wire, with
    no error; [Unlock] on it succeeds for every input index, transaction
    and time, and [StrictCheck] returns an error. *)
Theorem unregistered_type_passes_through reg p (ty : UnlockType)
    (condition fulfillment rest : bytes) (now : Timestamp) (inputIndex : N)
    (tx : Transaction) :
  ty <> UnlockTypeNil ->
  reg !! ty = None ->
  wf_slice condition -> wf_slice fulfillment ->
  passesThrough reg p ty condition fulfillment rest now inputIndex tx.
Proof.
  intros Hty Hreg Hc Hf. unfold passesThrough. split; [|split].
  - rewrite UnmarshalSia_wire by done.
    by rewrite freshLock_unknown, il_Decode_unknown.
  - unfold InputLockProxy_Unlock. simpl. by rewrite decide_False.
  - unfold InputLockProxy_StrictCheck. simpl. rewrite decide_False by done.
    eauto.
Qed.

(** C6. [StrictCheck] returns an error on an [UnknownInputLock] under
    any type, and on every proxy that was decoded under a type that is
    not in the registry. On a single-signature or atomic-swap lock whose
    algorithm is Ed25519 it returns an error exactly when the key is not
    32 bytes long or the signature not 64. With one of the two
    recognized algorithm tags and those sizes it returns no error. *)
Theorem strict_check_rule reg p p' (data rest : bytes) (ty : UnlockType)
    (u : UnknownInputLock) (ss : SingleSignatureInputLock)
    (a : AtomicSwapInputLock) :
  let wrongSize pk sig :=
    length (Key pk) <> 32%nat \/ length sig <> 64%nat in
  let recognized pk :=
    Algorithm pk = SignatureEntropy \/ Algorithm pk = SignatureEd25519 in
  (exists err,
     InputLockProxy_StrictCheck {| t := ty; il := Some (mkInputLock u) |}
     = Ret (Some err))
  /\ (InputLockProxy_UnmarshalSia reg p data = (p', None, rest) ->
      reg !! t p' = None ->
      exists err, InputLockProxy_StrictCheck p' = Ret (Some err))
  /\ (Algorithm (ss_PublicKey ss) = SignatureEd25519 ->
      SingleSignatureInputLock_StrictCheck ss <> None
      <-> wrongSize (ss_PublicKey ss) (ss_Signature ss))
  /\ (Algorithm (as_PublicKey a) = SignatureEd25519 ->
      AtomicSwapInputLock_StrictCheck a <> None
      <-> wrongSize (as_PublicKey a) (as_Signature a))
  /\ (recognized (ss_PublicKey ss) ->
      ~ wrongSize (ss_PublicKey ss) (ss_Signature ss) ->
      SingleSignatureInputLock_StrictCheck ss = None)
  /\ (recognized (as_PublicKey a) ->
      ~ wrongSize (as_PublicKey a) (as_Signature a) ->
      AtomicSwapInputLock_StrictCheck a = None).
Proof.
  intros wrongSize recognized. subst wrongSize recognized. cbv beta.
  assert (forall pk sig, Algorithm pk = SignatureEd25519 ->
            strictSignatureCheck pk sig <> None
            <-> (length (Key pk) <> 32%nat \/ length sig <> 64%nat)) as Hed.
  { intros pk sig Ha. rewrite (strictSignatureCheck_Ed25519 pk sig Ha).
    unfold PublicKeySize, SignatureSize. split.
    - intros Hn. destruct (decide (length (Key pk) = 32%nat)); [|by left].
      right. intros Hs. by apply Hn.
    - intros [Hk|Hs] [? ?]; done. }
  assert (forall pk sig,
            Algorithm pk = SignatureEntropy \/ Algorithm pk = SignatureEd25519 ->
            ~ (length (Key pk) <> 32%nat \/ length sig <> 64%nat) ->
            strictSignatureCheck pk sig = None) as Hok.
  { intros pk sig [Ha|Ha] Hs.
    - by apply strictSignatureCheck_Entropy.
    - apply strictSignatureCheck_Ed25519; [done|].
      unfold PublicKeySize, SignatureSize.
      split; apply dec_stable; intros Hn; apply Hs; [by left|by right]. }
  split; [|split; [|split; [|split; [|split]]]].
  - unfold InputLockProxy_StrictCheck. simpl. case_decide; eauto.
  - intros Hdec Hreg. unfold InputLockProxy_StrictCheck.
    destruct (UnmarshalSia_inv _ _ _ _ _ Hdec) as [[Hn _]|[Hn [rf Hil]]].
    + rewrite decide_True by done. eauto.
    + rewrite decide_False by done.
      rewrite Hil, freshLock_unknown, il_Decode_unknown by done.
      simpl. eauto.
  - apply Hed.
  - apply Hed.
  - apply Hok.
  - apply Hok.
Qed.

(** C2. Take a type that is not in the registry and any condition and
    fulfillment bytes on the wire. Register the type with a constructor
    whose lock, once it has decoded them, encodes the same condition
    bytes. Then the proxy decoded before the registration, which holds
    an [UnknownInputLock], and the proxy decoded after it have the same
    unlock hash. *)
Theorem unlock_hash_stable_across_registration reg reg' p
    (ty : UnlockType) (ilc : InputLockConstructor)
    (condition fulfillment rest : bytes) :
  let rf := {| rf_Condition := condition; rf_Fulfillment := fulfillment |} in
  let legacy := (InputLockProxy_UnmarshalSia reg p (wire ty rf ++ rest)).1.1 in
  let upgraded := (InputLockProxy_UnmarshalSia reg' p (wire ty rf ++ rest)).1.1 in
  reg !! ty = None ->
  RegisterUnlockType ty (Some ilc) reg = Ret reg' ->
  wf_slice condition -> wf_slice fulfillment ->
  il_EncodeCondition (il_Decode (ilc tt) rf).1 = condition ->
  InputLockProxy_UnlockHash legacy = InputLockProxy_UnlockHash upgraded
  /\ (ty <> UnlockTypeNil ->
      il legacy = Some (mkInputLock {| u_Condition := condition;
                                       u_Fulfillment := fulfillment |})
      /\ InputLockProxy_UnlockHash upgraded
         = Ret (NewUnlockHash ty (HashObject condition))).
Proof.
  intros rf legacy upgraded Hreg Hreg' Hc Hf Henc.
  subst legacy upgraded.
  injection Hreg' as <-.
  destruct (decide (ty = UnlockTypeNil)) as [->|Hty].
  { split; [|done]. unfold wire.
    by rewrite <- !app_assoc, !UnmarshalSia_nil. }
  rewrite !UnmarshalSia_wire by done. cbn [fst].
  rewrite freshLock_unknown, il_Decode_unknown by done.
  assert (freshLock (<[ty:=ilc]> reg) ty = ilc tt) as ->.
  { unfold freshLock, InputLockConstructor in *. by rewrite lookup_insert_eq. }
  assert (InputLockProxy_UnlockHash
            {| t := ty; il := Some (il_Decode (ilc tt) rf).1 |}
          = Ret (NewUnlockHash ty (HashObject condition))) as Hup.
  { unfold InputLockProxy_UnlockHash. cbn [t il].
    rewrite decide_False by done. by rewrite Henc. }
  split; [|done].
  rewrite Hup. unfold InputLockProxy_UnlockHash. cbn [t il fst].
  by rewrite decide_False.
Qed.

End Unknown.

(** ** Round trip *)

Section RoundTrip.
Context `{Externals}.
Import encoding.

Lemma freshLock_init_single_signature :
  freshLock init UnlockTypeSingleSignature
  = mkInputLock SingleSignatureInputLock_zero.
Proof.
  unfold freshLock, init, InputLockConstructor.
  rewrite lookup_insert_ne by discriminate.
  by rewrite lookup_insert_eq.
Qed.

Lemma freshLock_init_atomic_swap :
  freshLock init UnlockTypeAtomicSwap = mkInputLock AtomicSwapInputLock_zero.
Proof.
  unfold freshLock, init, InputLockConstructor. by rewrite lookup_insert_eq.
Qed.

Lemma SingleSignatureInputLock_Decode_Encode ss ss0 :
  wf_SiaPublicKey (ss_PublicKey ss) ->
  SingleSignatureInputLock_Decode ss0
    {| rf_Condition := SingleSignatureInputLock_EncodeCondition ss;
       rf_Fulfillment := SingleSignatureInputLock_EncodeFulfillment ss |}
  = (ss, None).
Proof.
  intros Hpk. unfold SingleSignatureInputLock_Decode. cbn [rf_Condition rf_Fulfillment].
  unfold SingleSignatureInputLock_EncodeCondition.
  erewrite Unmarshal_Enc by (by apply DecSiaPublicKey_Enc).
  by destruct ss.
Qed.

Lemma AtomicSwapInputLock_Decode_Encode a a0 :
  wf_AtomicSwapCondition
    {| c_Sender := as_Sender a; c_Receiver := as_Receiver a;
       c_HashedSecret := as_HashedSecret a; c_Timelock := as_Timelock a |} ->
  wf_AtomicSwapFulfillment
    {| f_PublicKey := as_PublicKey a; f_Signature := as_Signature a;
       f_Secret := as_Secret a |} ->
  AtomicSwapInputLock_Decode a0
    {| rf_Condition := AtomicSwapInputLock_EncodeCondition a;
       rf_Fulfillment := AtomicSwapInputLock_EncodeFulfillment a |}
  = (a, None).
Proof.
  intros Hc Hf. unfold AtomicSwapInputLock_Decode. cbn [rf_Condition rf_Fulfillment].
  unfold AtomicSwapInputLock_EncodeCondition,
    AtomicSwapInputLock_EncodeFulfillment.
  erewrite Unmarshal_Enc by (by apply DecAtomicSwapCondition_Enc).
  erewrite Unmarshal_Enc by (by apply DecAtomicSwapFulfillment_Enc).
  by destruct a.
Qed.

(** C3. The encoding of a well-formed proxy decodes, under the registry
    of [init] and whatever follows on the stream, without error and to a
    proxy with the same encoding; unless its type is the nil type, to
    the proxy itself. *)
Theorem proxy_round_trip (x p : InputLockProxy) (rest : bytes) :
  wellFormedProxy x ->
  exists (enc : bytes) (x' : InputLockProxy),
    InputLockProxy_MarshalSia x = Ret enc
    /\ InputLockProxy_UnmarshalSia init p (enc ++ rest) = (x', None, rest)
    /\ InputLockProxy_MarshalSia x' = Ret enc
    /\ (t x <> UnlockTypeNil -> x' = x).
Proof.
  intros Hwf. destruct Hwf as [payload|ss Hpk Hc Hf|a Hac Haf Hc Hf|ty u Hty Hreg Hc Hf].
  - exists (codec.EncUnlockType UnlockTypeNil),
      {| t := UnlockTypeNil; il := il p |}.
    rewrite UnmarshalSia_nil. by repeat split.
  - set (rf := {| rf_Condition := SingleSignatureInputLock_EncodeCondition ss;
                  rf_Fulfillment := SingleSignatureInputLock_EncodeFulfillment ss |}).
    exists (wire UnlockTypeSingleSignature rf),
      {| t := UnlockTypeSingleSignature; il := Some (mkInputLock ss) |}.
    split; [reflexivity|].
    rewrite UnmarshalSia_wire by done.
    rewrite freshLock_init_single_signature.
    change (il_Decode (mkInputLock SingleSignatureInputLock_zero) rf)
      with (mkInputLock
              (SingleSignatureInputLock_Decode SingleSignatureInputLock_zero rf).1,
            (SingleSignatureInputLock_Decode SingleSignatureInputLock_zero rf).2).
    subst rf. rewrite SingleSignatureInputLock_Decode_Encode by done.
    by repeat split.
  - set (rf := {| rf_Condition := AtomicSwapInputLock_EncodeCondition a;
                  rf_Fulfillment := AtomicSwapInputLock_EncodeFulfillment a |}).
    exists (wire UnlockTypeAtomicSwap rf),
      {| t := UnlockTypeAtomicSwap; il := Some (mkInputLock a) |}.
    split; [reflexivity|].
    rewrite UnmarshalSia_wire by done.
    rewrite freshLock_init_atomic_swap.
    change (il_Decode (mkInputLock AtomicSwapInputLock_zero) rf)
      with (mkInputLock
              (AtomicSwapInputLock_Decode AtomicSwapInputLock_zero rf).1,
            (AtomicSwapInputLock_Decode AtomicSwapInputLock_zero rf).2).
    subst rf. rewrite AtomicSwapInputLock_Decode_Encode by done.
    by repeat split.
  - exists (wire ty {| rf_Condition := u_Condition u;
                       rf_Fulfillment := u_Fulfillment u |}),
      {| t := ty; il := Some (mkInputLock u) |}.
    assert (InputLockProxy_MarshalSia {| t := ty; il := Some (mkInputLock u) |}
            = Ret (wire ty {| rf_Condition := u_Condition u;
                              rf_Fulfillment := u_Fulfillment u |})) as Hm.
    { unfold InputLockProxy_MarshalSia. cbn [t il].
      by rewrite decide_False. }
    rewrite UnmarshalSia_wire by done.
    rewrite freshLock_unknown, il_Decode_unknown by done.
    cbn [fst snd rf_Condition rf_Fulfillment].
    destruct u. by repeat split.
Qed.

End RoundTrip.

(** ** The genesis state *)

Section Genesis.
Import consensus.
Context `{ChainExternals}.

(** C8. Whatever the genesis timestamp and the block nodes allocated
    before, the state of [CreateGenesisState] has the ID of the genesis
    block as current block and as the one entry of the current path, at
    height 0, and its unspent coin outputs map the ID of miner payout 0
    of the genesis block to an output worth the coinbase of height 0.
    Two states made from the same timestamp, at whatever addresses,
    have the same consensus variables. *)
Theorem genesis_state (h h' : Heap) (genesisTime : Timestamp) :
  let genesisBlock := mkBlock genesisTime BlockBody_zero in
  let s := (CreateGenesisState h genesisTime).2 in
  let s' := (CreateGenesisState h' genesisTime).2 in
  currentBlockID s = Block_ID genesisBlock
  /\ currentPath s !! 0%N = Some (Block_ID genesisBlock)
  /\ dom (currentPath s) = {[ 0%N ]}
  /\ (exists output,
        unspentSiacoinOutputs s !! Block_MinerPayoutID genesisBlock 0
        = Some output
        /\ sco_Value output = CalculateCoinbase 0)
  /\ consensusVariables s = consensusVariables s'.
Proof.
  intros genesisBlock s s'. subst s s' genesisBlock.
  unfold CreateGenesisState, alloc. cbn [snd currentBlockID currentPath
    unspentSiacoinOutputs].
  split; [reflexivity|].
  split; [apply lookup_insert_eq|].
  split.
  { unfold BlockHeight, BlockID.
    rewrite dom_insert_L, dom_empty_L. apply (right_id_L _ _). }
  split; [|reflexivity].
  eexists. split; [apply lookup_insert_eq|]. reflexivity.
Qed.

End Genesis.

(** ** The properties on concrete inputs *)

Section Examples.
Import testing.
Import encoding.

Lemma entropy_never_signs_nor_verifies_witness :
  Algorithm entropyKey = SignatureEntropy
  /\ signHashUsingSiaPublicKey entropyKey 0 tx0 (KeySecretKey key32) []
     = Ret ([], Some ErrEntropyKey)
  /\ verifyHashUsingSiaPublicKey entropyKey 0 tx0 sig64 []
     = Some ErrEntropyKey.
Proof.
  split; [reflexivity|].
  apply (entropy_never_signs_nor_verifies entropyKey 0 tx0
           (KeySecretKey key32) sig64 []).
  reflexivity.
Defined.




Lemma atomic_swap_unlock_rule_witness :
  (5 <= as_Timelock claimLock
   /\ AtomicSwapInputLock_Unlock claimLock 5 0 tx0 = Ret None)
  /\ (as_Timelock refundLock < 11
      /\ AtomicSwapInputLock_Unlock refundLock 11 0 tx0 = Ret None).
Proof.
  assert (5 <= as_Timelock claimLock) as Hbefore by (simpl; lia).
  assert (as_Timelock refundLock < 11) as Hafter by (simpl; lia).
  destruct (atomic_swap_unlock_rule claimLock 5 0 tx0) as [Hclaim _].
  destruct (atomic_swap_unlock_rule refundLock 11 0 tx0) as [_ Hrefund].
  split; (split; [assumption|]).
  - apply (proj1 (Hclaim Hbefore)). by vm_compute.
  - apply (proj1 (Hrefund Hafter)). by vm_compute.
Defined.

Lemma init_unregistered_3 : init !! Byte.x03 = None.
Proof. reflexivity. Qed.

Lemma unregistered_type_passes_through_witness :
  (Byte.x03 <> UnlockTypeNil /\ init !! Byte.x03 = None
   /\ wf_slice key32 /\ wf_slice sig64)
  /\ passesThrough init zeroProxy Byte.x03 key32 sig64 [] 0 0 tx0.
Proof.
  assert (Byte.x03 <> UnlockTypeNil) as Hty by discriminate.
  assert (wf_slice key32) as Hc by (by vm_compute).
  assert (wf_slice sig64) as Hf by (by vm_compute).
  split; [by auto using init_unregistered_3|].
  exact (unregistered_type_passes_through init zeroProxy Byte.x03 key32
           sig64 [] 0 0 tx0 Hty init_unregistered_3 Hc Hf).
Defined.

(** C4 as it is stated, for every type that is not in the registry,
    fails at the nil type: [init] does not register 0x00, and a proxy of
    that type cannot be unlocked. *)
Lemma nil_type_does_not_pass_through :
  ~ (init !! UnlockTypeNil = None ->
     wf_slice key32 -> wf_slice sig64 ->
     passesThrough init zeroProxy UnlockTypeNil key32 sig64 [] 0 0 tx0).
Proof.
  intros Hclaim.
  destruct Hclaim as (_ & Hunlock & _).
  - reflexivity.
  - by vm_compute.
  - by vm_compute.
  - change (Ret (Some (errorString "nil input lock cannot be unlocked"))
            = @Ret (option error) None) in Hunlock.
    discriminate Hunlock.
Qed.

Lemma strict_check_rule_witness :
  (exists err, InputLockProxy_StrictCheck unknownProxy = Ret (Some err))
  /\ SingleSignatureInputLock_StrictCheck
       {| ss_PublicKey := ed25519Key; ss_Signature := key32 |} <> None
  /\ AtomicSwapInputLock_StrictCheck refundLock = None
  /\ SingleSignatureInputLock_StrictCheck
       {| ss_PublicKey := entropyKey; ss_Signature := sig64 |} = None.
Proof.
  set (data := wire Byte.x03 {| rf_Condition := key32; rf_Fulfillment := sig64 |}).
  assert (InputLockProxy_UnmarshalSia init zeroProxy data
          = (unknownProxy, None, [])) as Hdata by reflexivity.
  destruct (strict_check_rule init zeroProxy unknownProxy data [] Byte.x03
              UnknownInputLock_zero
              {| ss_PublicKey := ed25519Key; ss_Signature := key32 |}
              refundLock)
    as (_ & Hdec & Hss & _ & _ & Has).
  destruct (strict_check_rule init zeroProxy unknownProxy data [] Byte.x03
              UnknownInputLock_zero
              {| ss_PublicKey := entropyKey; ss_Signature := sig64 |}
              refundLock)
    as (_ & _ & _ & _ & Hent & _).
  split; [exact (Hdec Hdata init_unregistered_3)|].
  split; [apply Hss; [reflexivity|]; right; discriminate|].
  split; [apply Has; [by right|]; intros [Hlen|Hlen]; by apply Hlen|].
  apply Hent; [by left|]. intros [Hlen|Hlen]; by apply Hlen.
Defined.

Lemma unlock_hash_stable_across_registration_witness :
  let rf := {| rf_Condition := codec.EncSiaPublicKey ed25519Key;
               rf_Fulfillment := sig64 |} in
  InputLockProxy_UnlockHash
    (InputLockProxy_UnmarshalSia init zeroProxy (wire Byte.x03 rf ++ [])).1.1
  = InputLockProxy_UnlockHash
      (InputLockProxy_UnmarshalSia (<[Byte.x03 := futureConstructor]> init)
         zeroProxy (wire Byte.x03 rf ++ [])).1.1.
Proof.
  intros rf.
  assert (wf_slice (codec.EncSiaPublicKey ed25519Key)) as Hc by (by vm_compute).
  assert (wf_slice sig64) as Hf by (by vm_compute).
  assert (il_EncodeCondition (il_Decode (futureConstructor tt) rf).1
          = codec.EncSiaPublicKey ed25519Key) as Henc by reflexivity.
  exact (proj1 (unlock_hash_stable_across_registration init
                  (<[Byte.x03 := futureConstructor]> init) zeroProxy Byte.x03
                  futureConstructor (codec.EncSiaPublicKey ed25519Key) sig64 []
                  init_unregistered_3 eq_refl Hc Hf Henc)).
Defined.

Lemma proxy_round_trip_witness :
  let x := {| t := UnlockTypeAtomicSwap; il := Some (mkInputLock claimLock) |} in
  wellFormedProxy x
  /\ exists enc x',
       InputLockProxy_MarshalSia x = Ret enc
       /\ InputLockProxy_UnmarshalSia init zeroProxy (enc ++ []) = (x', None, [])
       /\ InputLockProxy_MarshalSia x' = Ret enc
       /\ (t x <> UnlockTypeNil -> x' = x).
Proof.
  intros x.
  assert (wellFormedProxy x) as Hwf.
  { apply wf_atomic_swap; repeat split; by vm_compute. }
  split; [exact Hwf|].
  exact (proxy_round_trip x zeroProxy [] Hwf).
Defined.

(** The two rejections of the atomic-swap scenarios: a claim without the
    right secret, and a refund attempted by the receiver. *)
Example claim_with_wrong_secret :
  AtomicSwapInputLock_Unlock wrongSecretLock 5 0 tx0
  = Ret (Some ErrInvalidPreImageSha256).
Proof. reflexivity. Qed.

Example refund_by_receiver :
  AtomicSwapInputLock_Unlock receiverRefundLock 11 0 tx0
  = Ret (Some ErrInvalidRedeemer).
Proof. reflexivity. Qed.

(** A lock made by the proxy's [Lock] is checked against the clock: the
    claim locked before the timelock no longer unlocks after it. *)
Example claim_after_timelock :
  AtomicSwapInputLock_Unlock claimLock 11 0 tx0 = Ret (Some ErrInvalidRedeemer).
Proof. reflexivity. Qed.

(** The genesis state at time 1500000000, with no block node allocated
    before. *)
Example genesis_1500000000 :
  let s := (consensus.CreateGenesisState ∅ 1500000000).2 in
  consensus.currentPath s !! 0 = Some (consensus.currentBlockID s)
  /\ consensus.sco_Value
       <$> consensus.unspentSiacoinOutputs s
           !! consensus.Block_MinerPayoutID
                (consensus.mkBlock 1500000000 consensus.BlockBody_zero) 0
     = Some (consensus.CalculateCoinbase 0).
Proof. split; reflexivity. Qed.

End Examples.

(** * Further properties of the input locks *)

Section LockMethods.
Context `{Externals}.
Import encoding.

Lemma length_zero_nil (b : bytes) : ~ length b <> 0%nat -> b = [].
Proof. destruct b; [done|]. intros Hn. exfalso. apply Hn. discriminate. Qed.

(** A signing that returns an error returns no signature. *)
Lemma signHash_error pk inputIndex tx key extra sig err :
  signHashUsingSiaPublicKey pk inputIndex tx key extra = Ret (sig, Some err) ->
  sig = [] /\ err = ErrEntropyKey.
Proof.
  unfold signHashUsingSiaPublicKey.
  repeat case_decide; [by intros [= <- <-]| |discriminate].
  destruct key; discriminate.
Qed.

Lemma SingleSignatureInputLock_Lock_inv ss ss' now inputIndex tx key err :
  SingleSignatureInputLock_Lock ss now inputIndex tx key = Ret (ss', err) ->
  ss_PublicKey ss' = ss_PublicKey ss
  /\ (err <> None -> ss_Signature ss' = ss_Signature ss).
Proof.
  unfold SingleSignatureInputLock_Lock.
  destruct (decide (length (ss_Signature ss) <> 0%nat)) as [Hl|Hl].
  { intros [= <- <-]. done. }
  apply length_zero_nil in Hl.
  destruct (signHashUsingSiaPublicKey _ _ _ _ _) as [[sig e]|msg] eqn:Hs;
    [|discriminate].
  cbn [rbind fst snd]. intros [= <- <-]. split; [done|]. cbn [ss_Signature].
  destruct e as [e|]; [|done]. intros _.
  apply signHash_error in Hs as [-> _]. by rewrite Hl.
Qed.

Lemma AtomicSwapInputLock_Lock_inv a a' now inputIndex tx key err :
  AtomicSwapInputLock_Lock a now inputIndex tx key = Ret (a', err) ->
  conditionOf a' = conditionOf a
  /\ (err <> None -> as_Signature a' = as_Signature a).
Proof.
  unfold AtomicSwapInputLock_Lock.
  destruct (decide (length (as_Signature a) <> 0%nat)) as [Hl|Hl].
  { intros [= <- <-]. done. }
  apply length_zero_nil in Hl.
  destruct key as [sk|v|v|n].
  - intros [= <- <-]. done.
  - destruct (as_Timelock a <? now)%N; [intros [= <- <-]; done|].
    cbn zeta. case_decide; [intros [= <- <-]; done|].
    destruct (signHashUsingSiaPublicKey _ _ _ _ _) as [[sig e]|msg] eqn:Hs;
      [|discriminate].
    cbn [rbind fst snd]. intros [= <- <-]. split; [done|].
    destruct e as [e|]; [|done]. intros _.
    apply signHash_error in Hs as [-> _]. by rewrite Hl.
  - destruct (now <=? as_Timelock a)%N; [intros [= <- <-]; done|].
    cbn zeta.
    destruct (signHashUsingSiaPublicKey _ _ _ _ _) as [[sig e]|msg] eqn:Hs;
      [|discriminate].
    cbn [rbind fst snd]. intros [= <- <-]. split; [done|].
    destruct e as [e|]; [|done]. intros _.
    apply signHash_error in Hs as [-> _]. by rewrite Hl.
  - intros [= <- <-]. done.
Qed.

Lemma il_Lock_standard l l' now inputIndex tx key err :
  standardLock l ->
  il_Lock l now inputIndex tx key = Ret (l', err) ->
  standardLock l' /\ il_EncodeCondition l' = il_EncodeCondition l.
Proof.
  intros [[u ->]|[[ss ->]|[a ->]]]; unfold il_Lock; cbn [il_methods il_value].
  - cbn. intros [= <- <-]. split; [left; eauto|done].
  - cbn [Lock SingleSignatureInputLock_InputLock].
    destruct (SingleSignatureInputLock_Lock ss now inputIndex tx key)
      as [[ss' e]|msg] eqn:HL; [|discriminate].
    cbn [rbind fst snd]. intros [= <- <-].
    apply SingleSignatureInputLock_Lock_inv in HL as [Hpk _].
    split; [right; left; eauto|].
    unfold il_EncodeCondition. cbn. unfold SingleSignatureInputLock_EncodeCondition.
    by rewrite Hpk.
  - cbn [Lock AtomicSwapInputLock_InputLock].
    destruct (AtomicSwapInputLock_Lock a now inputIndex tx key)
      as [[a' e]|msg] eqn:HL; [|discriminate].
    cbn [rbind fst snd]. intros [= <- <-].
    apply AtomicSwapInputLock_Lock_inv in HL as [Hc _].
    split; [right; right; eauto|].
    unfold il_EncodeCondition. cbn. unfold AtomicSwapInputLock_EncodeCondition.
    injection Hc as -> -> -> ->. done.
Qed.

(** X1. Whatever [Lock] on a proxy over one of the three lock types of
    inputlock.go returns, an error or none, the proxy it leaves has the
    type and the unlock hash it had: locking changes the fulfillment and
    never the condition. *)
Theorem lock_keeps_unlock_hash (p p' : InputLockProxy) (l : InputLock)
    (now now' : Timestamp) (inputIndex : N) (tx : Transaction)
    (key : LockKey) (err : option error) :
  il p = Some l -> standardLock l ->
  InputLockProxy_Lock p now now' inputIndex tx key = Ret (p', err) ->
  t p' = t p
  /\ InputLockProxy_UnlockHash p' = InputLockProxy_UnlockHash p.
Proof.
  intros Hil Hstd. unfold InputLockProxy_Lock. rewrite Hil.
  destruct (decide (t p = UnlockTypeNil)) as [Hn|Hn].
  { intros [= <- <-]. done. }
  destruct (il_Lock l now inputIndex tx key) as [[l' e]|msg] eqn:HL;
    [|discriminate].
  cbn [rbind fst snd].
  destruct (il_Lock_standard _ _ _ _ _ _ _ Hstd HL) as [_ Henc].
  assert (InputLockProxy_UnlockHash {| t := t p; il := Some l' |}
          = InputLockProxy_UnlockHash p) as Hh.
  { unfold InputLockProxy_UnlockHash. cbn [t il]. rewrite Hil.
    rewrite !decide_False by done. by rewrite Henc. }
  destruct e as [e|].
  - intros [= <- <-]. done.
  - destruct (il_Unlock l' now' inputIndex tx) as [e'|msg]; [|discriminate].
    cbn [rbind]. intros [= <- <-]. done.
Qed.

(** X2. [AtomicSwapInputLock.Lock] returns without error only on a lock
    that has no signature yet, and either with a claim key, not after the
    timelock, whose secret hashes to the hashed secret, or with a refund
    key after the timelock. It then holds the key's public key, the
    claim's secret (the refund keeps the old one) and the signature made
    with the key's secret key, over the secret for a claim and over no
    extra object for a refund; the condition is as before. *)
Theorem atomic_swap_lock_success (a a' : AtomicSwapInputLock)
    (now : Timestamp) (inputIndex : N) (tx : Transaction) (key : LockKey) :
  AtomicSwapInputLock_Lock a now inputIndex tx key = Ret (a', None) ->
  as_Signature a = []
  /\ conditionOf a' = conditionOf a
  /\ ((exists v,
         key = KeyAtomicSwapClaimKey v
         /\ now <= as_Timelock a
         /\ Sum256 (ck_Secret v) = as_HashedSecret a
         /\ as_Secret a' = ck_Secret v
         /\ as_PublicKey a' = ck_PublicKey v
         /\ signHashUsingSiaPublicKey (ck_PublicKey v) inputIndex tx
              (KeySecretKey (ck_SecretKey v))
              [ObjAtomicSwapSecret (ck_Secret v)]
            = Ret (as_Signature a', None))
      \/ (exists v,
            key = KeyAtomicSwapRefundKey v
            /\ as_Timelock a < now
            /\ as_Secret a' = as_Secret a
            /\ as_PublicKey a' = rk_PublicKey v
            /\ signHashUsingSiaPublicKey (rk_PublicKey v) inputIndex tx
                 (KeySecretKey (rk_SecretKey v)) []
               = Ret (as_Signature a', None))).
Proof.
  intros HL.
  destruct (AtomicSwapInputLock_Lock_inv _ _ _ _ _ _ _ HL) as [Hc _].
  revert HL. unfold AtomicSwapInputLock_Lock.
  destruct (decide (length (as_Signature a) <> 0%nat)) as [Hl|Hl];
    [discriminate|].
  apply length_zero_nil in Hl.
  destruct key as [sk|v|v|n]; [discriminate| | |discriminate].
  - destruct (N.ltb_spec (as_Timelock a) now) as [Hlt|Hle]; [discriminate|].
    cbn zeta. case_decide as Hs; [discriminate|].
    destruct (signHashUsingSiaPublicKey _ _ _ _ _) as [[sig e]|msg] eqn:Hsig;
      [|discriminate].
    cbn [rbind fst snd]. intros [= <- ->].
    split; [done|]. split; [done|]. left. exists v.
    cbn in Hs. by repeat split.
  - destruct (N.leb_spec now (as_Timelock a)) as [Hle|Hlt]; [discriminate|].
    cbn zeta.
    destruct (signHashUsingSiaPublicKey _ _ _ _ _) as [[sig e]|msg] eqn:Hsig;
      [|discriminate].
    cbn [rbind fst snd]. intros [= <- ->].
    split; [done|]. split; [done|]. right. exists v. by repeat split.
Qed.

(** X3. A [Lock] of a single-signature or atomic-swap lock that returns
    an error leaves the signature as it was: no signature is stored by a
    failed call, and none is replaced. The single-signature lock keeps
    its public key as well. *)
Theorem failed_lock_keeps_signature (ss ss' : SingleSignatureInputLock)
    (a a' : AtomicSwapInputLock) (now : Timestamp) (inputIndex : N)
    (tx : Transaction) (key : LockKey) (err err' : error) :
  (SingleSignatureInputLock_Lock ss now inputIndex tx key = Ret (ss', Some err) ->
   ss' = ss)
  /\ (AtomicSwapInputLock_Lock a now inputIndex tx key = Ret (a', Some err') ->
      as_Signature a' = as_Signature a /\ conditionOf a' = conditionOf a).
Proof.
  split; intros HL.
  - apply SingleSignatureInputLock_Lock_inv in HL as [Hpk Hs].
    destruct ss, ss'. cbn in *. rewrite Hpk, Hs; done.
  - apply AtomicSwapInputLock_Lock_inv in HL as [Hc Hs].
    split; [by apply Hs|done].
Qed.

End LockMethods.

Section SignedLocks.
Context `{Externals}.
Import encoding.

Lemma Unmarshal_DecArray (n : nat) (b : bytes) :
  length b = n -> Unmarshal (DecArray n) b = inl b.
Proof.
  intros Hb. apply Unmarshal_Enc.
  change (b ++ []) with (EncArray b ++ []). by apply DecArray_Enc.
Qed.

Lemma Ed25519_not_Entropy : SignatureEd25519 <> SignatureEntropy.
Proof. intros Heq. by apply SignatureEntropy_Ed25519. Qed.

(** With the Ed25519 tag and a key and a signature of the sizes that
    [strictSignatureCheck] asks for, the verification is that of package
    crypto. *)
Lemma verifyHash_Ed25519 pk inputIndex tx sig extra :
  Algorithm pk = SignatureEd25519 ->
  length (Key pk) = PublicKeySize -> length sig = SignatureSize ->
  verifyHashUsingSiaPublicKey pk inputIndex tx sig extra
  = VerifyHash (InputSigHash tx inputIndex extra) (Key pk) sig.
Proof.
  intros Ha Hk Hs. unfold verifyHashUsingSiaPublicKey. rewrite Ha.
  rewrite decide_False by apply Ed25519_not_Entropy.
  rewrite decide_True by done.
  rewrite !Unmarshal_DecArray by done.
  by destruct (VerifyHash _ _ _).
Qed.

(** X4. [Lock] on a proxy over a single-signature lock that has an
    Ed25519 key of 32 bytes and no signature yet, given a secret key that
    signs to 64 bytes, stores the signature of the input's signature hash
    and returns what [crypto.VerifyHash] says of it: the signature stays
    in the lock also when the validation that follows the signing
    fails. *)
Theorem single_signature_lock_ed25519 (pk : SiaPublicKey) (sk : bytes)
    (now now' : Timestamp) (inputIndex : N) (tx : Transaction) :
  let sigHash := InputSigHash tx inputIndex [] in
  let sig := SignHash sigHash sk in
  Algorithm pk = SignatureEd25519 ->
  length (Key pk) = 32%nat -> length sig = 64%nat ->
  InputLockProxy_Lock
    {| t := UnlockTypeSingleSignature;
       il := Some (mkInputLock {| ss_PublicKey := pk; ss_Signature := [] |}) |}
    now now' inputIndex tx (KeySecretKey sk)
  = Ret ({| t := UnlockTypeSingleSignature;
            il := Some (mkInputLock {| ss_PublicKey := pk;
                                       ss_Signature := sig |}) |},
         VerifyHash sigHash (Key pk) sig).
Proof.
  intros sigHash sig Ha Hk Hs. subst sigHash sig.
  unfold InputLockProxy_Lock. cbn [t il].
  rewrite decide_False by discriminate.
  unfold il_Lock. cbn [il_methods il_value Lock SingleSignatureInputLock_InputLock].
  unfold SingleSignatureInputLock_Lock. cbn [ss_Signature ss_PublicKey length].
  rewrite decide_False by (intros Hn; by apply Hn).
  unfold signHashUsingSiaPublicKey. rewrite Ha.
  rewrite decide_False by apply Ed25519_not_Entropy.
  rewrite decide_True by done.
  cbn [rbind fst snd].
  unfold il_Unlock. cbn [il_methods il_value Unlock SingleSignatureInputLock_InputLock].
  unfold SingleSignatureInputLock_Unlock. cbn [rbind ss_Signature ss_PublicKey].
  by rewrite verifyHash_Ed25519.
Qed.

(** X5. On a single-signature lock with the Ed25519 tag that passes
    [StrictCheck], [Unlock] returns exactly what [crypto.VerifyHash] says
    of the key, the signature and the input's signature hash: the
    decoding of the key and of the signature cannot fail. *)
Theorem strict_checked_unlock_is_verification (ss : SingleSignatureInputLock)
    (now : Timestamp) (inputIndex : N) (tx : Transaction) :
  Algorithm (ss_PublicKey ss) = SignatureEd25519 ->
  SingleSignatureInputLock_StrictCheck ss = None ->
  SingleSignatureInputLock_Unlock ss now inputIndex tx
  = Ret (VerifyHash (InputSigHash tx inputIndex [])
           (Key (ss_PublicKey ss)) (ss_Signature ss)).
Proof.
  intros Ha Hstrict. unfold SingleSignatureInputLock_StrictCheck in Hstrict.
  apply strictSignatureCheck_Ed25519 in Hstrict as [Hk Hs]; [|done].
  unfold SingleSignatureInputLock_Unlock. by rewrite verifyHash_Ed25519.
Qed.

(** X6. [StrictCheck] and [Unlock] of a single-signature lock disagree
    outside Ed25519. With the entropy tag the lock passes [StrictCheck]
    whatever the sizes of its key and signature, and never unlocks; with
    a tag that is neither entropy nor Ed25519 it never passes
    [StrictCheck], and always unlocks. *)
Theorem strict_check_disagrees_with_unlock (ss : SingleSignatureInputLock)
    (now : Timestamp) (inputIndex : N) (tx : Transaction) :
  (Algorithm (ss_PublicKey ss) = SignatureEntropy ->
   SingleSignatureInputLock_StrictCheck ss = None
   /\ SingleSignatureInputLock_Unlock ss now inputIndex tx
      = Ret (Some ErrEntropyKey))
  /\ (Algorithm (ss_PublicKey ss) <> SignatureEntropy ->
      Algorithm (ss_PublicKey ss) <> SignatureEd25519 ->
      SingleSignatureInputLock_StrictCheck ss
      = Some (errorString "unrecognized public key type in transaction")
      /\ SingleSignatureInputLock_Unlock ss now inputIndex tx = Ret None).
Proof.
  split.
  - intros Ha. split.
    + by apply strictSignatureCheck_Entropy.
    + unfold SingleSignatureInputLock_Unlock, verifyHashUsingSiaPublicKey.
      by rewrite decide_True.
  - intros He Hd. split.
    + unfold SingleSignatureInputLock_StrictCheck, strictSignatureCheck.
      by rewrite !decide_False.
    + unfold SingleSignatureInputLock_Unlock.
      by rewrite verifyHash_unrecognized.
Qed.

(** X7. [Lock] of a single-signature lock with an Ed25519 key and no
    signature yet panics when the key it is given is not a
    [crypto.SecretKey], and so does [Lock] of its proxy; an atomic-swap
    lock given a key that is neither a claim key nor a refund key returns
    an error and stays as it is. *)
Theorem lock_with_foreign_key (ss : SingleSignatureInputLock)
    (a : AtomicSwapInputLock) (now now' : Timestamp) (inputIndex : N)
    (tx : Transaction) (key : LockKey) :
  Algorithm (ss_PublicKey ss) = SignatureEd25519 ->
  ss_Signature ss = [] -> as_Signature a = [] ->
  (forall sk, key <> KeySecretKey sk) ->
  (exists msg,
     SingleSignatureInputLock_Lock ss now inputIndex tx key = Panic msg
     /\ InputLockProxy_Lock
          {| t := UnlockTypeSingleSignature; il := Some (mkInputLock ss) |}
          now now' inputIndex tx key
        = Panic msg)
  /\ (forall (who : string) (sk : bytes),
        AtomicSwapInputLock_Lock a now inputIndex tx (KeyOther who)
        = Ret (a, Some (errorString
                          ("cannot atomic-swap-lock using " ++ who ++ " key")))
        /\ AtomicSwapInputLock_Lock a now inputIndex tx (KeySecretKey sk)
           = Ret (a, Some (errorString
                    "cannot atomic-swap-lock using crypto.SecretKey key"))).
Proof.
  intros Ha Hs Hsa Hkey. split.
  - assert (exists msg,
              SingleSignatureInputLock_Lock ss now inputIndex tx key = Panic msg)
      as [msg Hp].
    { unfold SingleSignatureInputLock_Lock. rewrite Hs. cbn [length].
      rewrite decide_False by (intros Hn; by apply Hn).
      unfold signHashUsingSiaPublicKey. rewrite Ha.
      rewrite decide_False by apply Ed25519_not_Entropy.
      rewrite decide_True by done.
      destruct key as [sk| | |]; [by destruct (Hkey sk)|eauto..]. }
    exists msg. split; [done|].
    unfold InputLockProxy_Lock. cbn [t il].
    rewrite decide_False by discriminate.
    unfold il_Lock. cbn [il_methods il_value Lock SingleSignatureInputLock_InputLock].
    by rewrite Hp.
  - intros who sk. unfold AtomicSwapInputLock_Lock. rewrite Hsa. cbn [length].
    rewrite decide_False by (intros Hn; by apply Hn).
    by split.
Qed.

End SignedLocks.

Section Registry.
Context `{Externals}.
Import encoding.

Implicit Types (reg : gmap UnlockType InputLockConstructor).
Implicit Types (p : InputLockProxy) (rf : RawInputLockFormat).

Lemma freshLock_insert_eq reg (ty : UnlockType) (c : InputLockConstructor) :
  freshLock (<[ty := c]> reg) ty = c tt.
Proof. unfold freshLock, InputLockConstructor in *. by rewrite lookup_insert_eq. Qed.

Lemma freshLock_insert_ne reg (ty ty' : UnlockType) (c : InputLockConstructor) :
  ty <> ty' -> freshLock (<[ty := c]> reg) ty' = freshLock reg ty'.
Proof.
  intros Hne. unfold freshLock, InputLockConstructor in *.
  by rewrite lookup_insert_ne.
Qed.

Lemma freshLock_delete reg (ty : UnlockType) :
  freshLock (delete ty reg) ty = mkInputLock UnknownInputLock_zero.
Proof. unfold freshLock, InputLockConstructor in *. by rewrite lookup_delete_eq. Qed.

(** Decoding looks the registry up at the decoded type only. *)
Lemma UnmarshalSia_freshLock reg reg' p (ty : UnlockType) (r : bytes) :
  freshLock reg' ty = freshLock reg ty ->
  InputLockProxy_UnmarshalSia reg' p (codec.EncUnlockType ty ++ r)
  = InputLockProxy_UnmarshalSia reg p (codec.EncUnlockType ty ++ r).
Proof.
  intros Hf. unfold InputLockProxy_UnmarshalSia.
  rewrite DecUnlockType_Enc.
  destruct (decide (ty = UnlockTypeNil)); [done|].
  destruct (codec.RawInputLockFormat_UnmarshalSia r) as [rf r2|e]; [|done].
  fold (freshLock reg' ty). fold (freshLock reg ty). by rewrite Hf.
Qed.

(** X8. [RegisterUnlockType(t, ilc)] changes the decoding of type [t] and
    of no other: a stream that starts with another type byte decodes as
    before, and a lock of type [t], unless [t] is the nil type, is decoded
    by a fresh lock of the constructor. The nil type is decoded without a
    lock whatever is registered for it. *)
Theorem register_changes_one_type reg reg' p (ty ty' : UnlockType)
    (ilc : InputLockConstructor) rf (r rest : bytes) :
  RegisterUnlockType ty (Some ilc) reg = Ret reg' ->
  (ty' <> ty ->
   InputLockProxy_UnmarshalSia reg' p (codec.EncUnlockType ty' ++ r)
   = InputLockProxy_UnmarshalSia reg p (codec.EncUnlockType ty' ++ r))
  /\ (ty <> UnlockTypeNil ->
      wf_slice (rf_Condition rf) -> wf_slice (rf_Fulfillment rf) ->
      InputLockProxy_UnmarshalSia reg' p (wire ty rf ++ rest)
      = ({| t := ty; il := Some (il_Decode (ilc tt) rf).1 |},
         (il_Decode (ilc tt) rf).2, rest))
  /\ InputLockProxy_UnmarshalSia reg' p (codec.EncUnlockType UnlockTypeNil ++ r)
     = ({| t := UnlockTypeNil; il := il p |}, None, r).
Proof.
  intros [= <-]. split; [|split].
  - intros Hne. apply UnmarshalSia_freshLock.
    by apply freshLock_insert_ne.
  - intros Hty Hc Hf. rewrite UnmarshalSia_wire by done.
    by rewrite freshLock_insert_eq.
  - apply UnmarshalSia_nil.
Qed.

(** X9. After [UnregisterUnlockType(t)], for [t] other than the nil type,
    a lock of type [t] decodes to an [UnknownInputLock] with the bytes of
    the wire, which unlocks for every input index, transaction and time:
    unregistering a type removes its checks. Other types decode as
    before, and unregistering a type that had been registered on top of a
    registry without it gives that registry back. *)
Theorem unregister_makes_unknown reg reg' p (ty ty' : UnlockType)
    (ilc : InputLockConstructor) (condition fulfillment r rest : bytes)
    (now : Timestamp) (inputIndex : N) (tx : Transaction) :
  let unknown :=
    {| t := ty;
       il := Some (mkInputLock {| u_Condition := condition;
                                  u_Fulfillment := fulfillment |}) |} in
  (ty <> UnlockTypeNil ->
   wf_slice condition -> wf_slice fulfillment ->
   InputLockProxy_UnmarshalSia (UnregisterUnlockType ty reg) p
     (wire ty {| rf_Condition := condition; rf_Fulfillment := fulfillment |}
        ++ rest)
   = (unknown, None, rest)
   /\ InputLockProxy_Unlock unknown now inputIndex tx = Ret None)
  /\ (ty' <> ty ->
      InputLockProxy_UnmarshalSia (UnregisterUnlockType ty reg) p
        (codec.EncUnlockType ty' ++ r)
      = InputLockProxy_UnmarshalSia reg p (codec.EncUnlockType ty' ++ r))
  /\ (reg !! ty = None ->
      RegisterUnlockType ty (Some ilc) reg = Ret reg' ->
      UnregisterUnlockType ty reg' = reg).
Proof.
  intros unknown. subst unknown. split; [|split].
  - intros Hty Hc Hf. unfold UnregisterUnlockType. split.
    + rewrite UnmarshalSia_wire by done.
      by rewrite freshLock_delete.
    + unfold InputLockProxy_Unlock. cbn [t il]. by rewrite decide_False.
  - intros Hne. apply UnmarshalSia_freshLock.
    unfold UnregisterUnlockType, freshLock, InputLockConstructor in *.
    by rewrite lookup_delete_ne.
  - intros Hreg [= <-]. unfold UnregisterUnlockType.
    unfold InputLockConstructor in *.
    rewrite delete_insert_eq. by apply delete_id.
Qed.

End Registry.

Section ProxyInvariant.
Context `{Externals}.
Import encoding.

Implicit Types (reg : gmap UnlockType InputLockConstructor).
Implicit Types (p q : InputLockProxy).

(** X10. [NewInputLockProxy] panics exactly on a type other than nil with
    a nil lock. The proxy it returns otherwise, and every proxy that
    [UnmarshalSia] decodes without error, holds a lock unless it is of
    the nil type, and on such a proxy [MarshalSia], [UnlockHash] and
    [StrictCheck] return; on a proxy of another type than nil without a
    lock each of them, and [Lock] and [Unlock], panics on the nil
    lock. *)
Theorem proxy_holds_lock reg p p' q (ty : UnlockType)
    (l : option InputLock) (data rest : bytes) (now now' : Timestamp)
    (inputIndex : N) (tx : Transaction) (key : LockKey) :
  ((exists msg, NewInputLockProxy ty l = Panic msg)
   <-> ty <> UnlockTypeNil /\ l = None)
  /\ (NewInputLockProxy ty l = Ret q -> q = {| t := ty; il := l |} /\ holdsLock q)
  /\ (InputLockProxy_UnmarshalSia reg p data = (p', None, rest) -> holdsLock p')
  /\ (holdsLock q ->
      exists enc h e,
        InputLockProxy_MarshalSia q = Ret enc
        /\ InputLockProxy_UnlockHash q = Ret h
        /\ InputLockProxy_StrictCheck q = Ret e)
  /\ (~ holdsLock q ->
      InputLockProxy_MarshalSia q = nilDeref
      /\ InputLockProxy_UnlockHash q = nilDeref
      /\ InputLockProxy_StrictCheck q = nilDeref
      /\ InputLockProxy_Unlock q now inputIndex tx = nilDeref
      /\ InputLockProxy_Lock q now now' inputIndex tx key = nilDeref).
Proof.
  split; [|split; [|split; [|split]]].
  - unfold NewInputLockProxy. case_decide as Hd; split.
    + done.
    + eauto.
    + intros [msg Hm]. discriminate.
    + intros Hc. by destruct Hd.
  - unfold NewInputLockProxy, holdsLock. case_decide as Hd; [discriminate|].
    intros [= <-]. split; [done|]. cbn. intros Hty Hl. apply Hd. done.
  - intros Hdec. unfold holdsLock.
    destruct (UnmarshalSia_inv _ _ _ _ _ Hdec) as [[Hn _]|[_ [rf Hil]]].
    + done.
    + intros _. by rewrite Hil.
  - unfold holdsLock, InputLockProxy_MarshalSia, InputLockProxy_UnlockHash,
      InputLockProxy_StrictCheck.
    intros Hq. destruct (decide (t q = UnlockTypeNil)) as [Hn|Hn]; [eauto 10|].
    destruct (il q) as [lq|]; [eauto 10|]. by destruct (Hq Hn).
  - unfold holdsLock, InputLockProxy_MarshalSia, InputLockProxy_UnlockHash,
      InputLockProxy_StrictCheck, InputLockProxy_Unlock, InputLockProxy_Lock.
    intros Hq. destruct (decide (t q = UnlockTypeNil)) as [Hn|Hn].
    { destruct Hq. done. }
    destruct (il q) as [lq|]; [|done]. destruct Hq. done.
Qed.

Lemma app_EncBytes_inj (c f c' f' : bytes) :
  wf_slice c -> wf_slice f -> wf_slice c' -> wf_slice f' ->
  EncBytes c ++ EncBytes f = EncBytes c' ++ EncBytes f' ->
  c = c' /\ f = f'.
Proof.
  intros Hc Hf Hc' Hf' Heq.
  pose proof (RawInputLockFormat_UnmarshalSia_MarshalSia
                {| rf_Condition := c; rf_Fulfillment := f |} [] Hc Hf) as H1.
  pose proof (RawInputLockFormat_UnmarshalSia_MarshalSia
                {| rf_Condition := c'; rf_Fulfillment := f' |} [] Hc' Hf') as H2.
  unfold codec.RawInputLockFormat_MarshalSia in H1, H2.
  cbn [rf_Condition rf_Fulfillment] in H1, H2.
  rewrite Heq in H1. rewrite H1 in H2. by injection H2.
Qed.

(** X11. The encoding of a proxy determines its type and, unless that is
    the nil type, the condition and the fulfillment its lock encodes, for
    locks of any type, registered or not; two proxies with the same
    encoding have the same unlock hash. (The encoded slices are shorter
    than 2^64 bytes, as every Go slice is.) *)
Theorem encoding_determines_lock p q (enc : bytes) :
  (forall l, il p = Some l ->
     wf_slice (il_EncodeCondition l) /\ wf_slice (il_EncodeFulfillment l)) ->
  (forall l, il q = Some l ->
     wf_slice (il_EncodeCondition l) /\ wf_slice (il_EncodeFulfillment l)) ->
  InputLockProxy_MarshalSia p = Ret enc ->
  InputLockProxy_MarshalSia q = Ret enc ->
  t p = t q
  /\ InputLockProxy_UnlockHash p = InputLockProxy_UnlockHash q
  /\ (t p <> UnlockTypeNil ->
      exists lp lq,
        il p = Some lp /\ il q = Some lq
        /\ il_EncodeCondition lp = il_EncodeCondition lq
        /\ il_EncodeFulfillment lp = il_EncodeFulfillment lq).
Proof.
  intros Hwp Hwq.
  unfold InputLockProxy_MarshalSia, InputLockProxy_UnlockHash,
    codec.EncUnlockType, codec.RawInputLockFormat_MarshalSia.
  cbn [rf_Condition rf_Fulfillment].
  destruct (decide (t p = UnlockTypeNil)) as [Hp|Hp];
    destruct (decide (t q = UnlockTypeNil)) as [Hq|Hq].
  - intros [= <-] [= Heq]. by rewrite Hp, Hq.
  - intros [= <-]. destruct (il q); [|discriminate].
    intros Heq. exfalso. injection Heq as Heq _. by rewrite Hp in Heq.
  - destruct (il p); [|discriminate]. intros [= <-] Heq.
    exfalso. injection Heq as Heq _. by rewrite Hq in Heq.
  - destruct (il p) as [lp|] eqn:Hlp; [|discriminate].
    destruct (il q) as [lq|] eqn:Hlq; [|discriminate].
    remember (EncBytes (il_EncodeCondition lp)
                ++ EncBytes (il_EncodeFulfillment lp)) as rawp eqn:Erp.
    remember (EncBytes (il_EncodeCondition lq)
                ++ EncBytes (il_EncodeFulfillment lq)) as rawq eqn:Erq.
    intros Hep Heq. rewrite <- Heq in Hep. injection Hep as Ht Hraw.
    rewrite Erp, Erq in Hraw.
    destruct (Hwp lp eq_refl) as [Hc Hf].
    destruct (Hwq lq eq_refl) as [Hc' Hf'].
    destruct (app_EncBytes_inj _ _ _ _ Hc Hf Hc' Hf' Hraw) as [Hce Hfe].
    split; [done|]. rewrite Ht, Hce. split; [done|].
    intros _. exists lp, lq. by rewrite Hce, Hfe.
Qed.

(** X12. A proxy of a type other than nil over an [UnknownInputLock] is
    locked by any key at any time: [Lock] returns no error and leaves the
    proxy, and so its encoding, as they were. *)
Theorem unknown_lock_accepts_any_key (ty : UnlockType) (u : UnknownInputLock)
    (now now' : Timestamp) (inputIndex : N) (tx : Transaction)
    (key : LockKey) :
  ty <> UnlockTypeNil ->
  let p := {| t := ty; il := Some (mkInputLock u) |} in
  InputLockProxy_Lock p now now' inputIndex tx key = Ret (p, None)
  /\ InputLockProxy_MarshalSia p
     = Ret (wire ty {| rf_Condition := u_Condition u;
                       rf_Fulfillment := u_Fulfillment u |}).
Proof.
  intros Hty p. subst p.
  unfold InputLockProxy_Lock, InputLockProxy_MarshalSia. cbn [t il].
  rewrite !decide_False by done. split; reflexivity.
Qed.

End ProxyInvariant.

Section AtomicSwapPhases.
Context `{Externals}.

(** X13. The time matters to [AtomicSwapInputLock.Unlock] only through
    the side of the timelock it is on: two times on the same side give
    the same result, so a refund that is accepted once is accepted ever
    after, and a claim at every earlier time. When sender and receiver
    differ, a fulfillment that unlocks on one side of the timelock is
    rejected with [ErrInvalidRedeemer] on the other. *)
Theorem atomic_swap_phases (a : AtomicSwapInputLock) (now1 now2 : Timestamp)
    (inputIndex : N) (tx : Transaction) :
  ((now1 <= as_Timelock a <-> now2 <= as_Timelock a) ->
   AtomicSwapInputLock_Unlock a now1 inputIndex tx
   = AtomicSwapInputLock_Unlock a now2 inputIndex tx)
  /\ (as_Sender a <> as_Receiver a ->
      now1 <= as_Timelock a -> as_Timelock a < now2 ->
      (AtomicSwapInputLock_Unlock a now1 inputIndex tx = Ret None ->
       AtomicSwapInputLock_Unlock a now2 inputIndex tx
       = Ret (Some ErrInvalidRedeemer))
      /\ (AtomicSwapInputLock_Unlock a now2 inputIndex tx = Ret None ->
          AtomicSwapInputLock_Unlock a now1 inputIndex tx
          = Ret (Some ErrInvalidRedeemer))).
Proof.
  rewrite !AtomicSwapInputLock_Unlock_eq. split.
  - intros Hside.
    destruct (N.leb_spec now1 (as_Timelock a)) as [H1|H1];
      destruct (N.leb_spec now2 (as_Timelock a)) as [H2|H2]; try done.
    + apply Hside in H1. lia.
    + apply Hside in H2. lia.
  - intros Hne H1 H2.
    apply N.leb_le in H1. apply N.leb_gt in H2. rewrite H1, H2.
    split.
    + case_decide as Hr; [discriminate|]. intros _.
      rewrite decide_True; [done|].
      rewrite Hr. by intros Heq.
    + case_decide as Hs; [discriminate|]. intros _.
      rewrite decide_True; [done|].
      intros Heq. apply Hne. by rewrite <- Hs, Heq.
Qed.

End AtomicSwapPhases.

Section GenesisTree.
Import consensus.
Context `{ChainExternals}.

(** X14. [CreateGenesisState] puts the genesis block, with the root
    target and the root depth, in a block node at an address that was not
    in use, leaves the nodes that existed alone, and makes that node the
    block root and the one entry of the block map, under the genesis ID.
    No block is bad. The miner payout 0 of the genesis block is the only
    unspent coin output, the output [OutputID{0}] with [SiafundCount]
    funds the only unspent fund output, and there is no open contract, no
    delayed output and nothing in the fund pool. *)
Theorem genesis_tree_and_ledger (h : Heap) (genesisTime : Timestamp) :
  let genesisBlock := mkBlock genesisTime BlockBody_zero in
  let h1 := (CreateGenesisState h genesisTime).1 in
  let s := (CreateGenesisState h genesisTime).2 in
  h !! blockRoot s = None
  /\ h1 !! blockRoot s = Some (mkBlockNode genesisBlock RootTarget RootDepth)
  /\ (forall l, l <> blockRoot s -> h1 !! l = h !! l)
  /\ blockMap s !! Block_ID genesisBlock = Some (blockRoot s)
  /\ dom (blockMap s) = {[ Block_ID genesisBlock ]}
  /\ badBlocks s = ∅
  /\ dom (unspentSiacoinOutputs s) = {[ Block_MinerPayoutID genesisBlock 0 ]}
  /\ unspentSiafundOutputs s !! ZeroOutputID
     = Some {| sfo_Value := SiafundCount; sfo_SpendHash := ZeroAddress;
               sfo_ClaimDestination := ZeroAddress |}
  /\ dom (unspentSiafundOutputs s) = {[ ZeroOutputID ]}
  /\ openFileContracts s = ∅
  /\ delayedSiacoinOutputs s = ∅
  /\ siafundPool s = 0.
Proof.
  intros genesisBlock h1 s. subst genesisBlock h1 s.
  unfold CreateGenesisState, alloc.
  cbn [fst snd blockRoot blockMap badBlocks unspentSiacoinOutputs
         unspentSiafundOutputs openFileContracts delayedSiacoinOutputs
         siafundPool].
  unfold Heap in *.
  split; [apply not_elem_of_dom_1, is_fresh|].
  split; [apply lookup_insert_eq|].
  split.
  { intros l Hl. by apply lookup_insert_ne. }
  split; [apply lookup_insert_eq|].
  split.
  { unfold BlockID. rewrite dom_insert_L, dom_empty_L. apply (right_id_L _ _). }
  split; [reflexivity|].
  split.
  { unfold OutputID. rewrite dom_insert_L, dom_empty_L. apply (right_id_L _ _). }
  split; [apply lookup_insert_eq|].
  split.
  { unfold OutputID. rewrite dom_insert_L, dom_empty_L. apply (right_id_L _ _). }
  done.
Qed.

End GenesisTree.

(** ** The further properties on concrete inputs *)

Section MoreExamples.
Import testing.
Import encoding.

Lemma lock_keeps_unlock_hash_witness :
  InputLockProxy_Lock openProxy 3 4 0 tx0 (KeySecretKey key32)
  = Ret (lockedProxy, None)
  /\ t lockedProxy = t openProxy
  /\ InputLockProxy_UnlockHash lockedProxy = InputLockProxy_UnlockHash openProxy.
Proof.
  assert (InputLockProxy_Lock openProxy 3 4 0 tx0 (KeySecretKey key32)
          = Ret (lockedProxy, None)) as Hlock by reflexivity.
  split; [exact Hlock|].
  apply (lock_keeps_unlock_hash openProxy lockedProxy
           (mkInputLock (unsignedLock ed25519Key)) 3 4 0 tx0
           (KeySecretKey key32) None).
  - reflexivity.
  - right. left. by exists (unsignedLock ed25519Key).
  - exact Hlock.
Defined.

Lemma atomic_swap_lock_success_witness :
  AtomicSwapInputLock_Lock openSwap 5 0 tx0 (KeyAtomicSwapClaimKey claimKey)
  = Ret (claimLock, None)
  /\ as_Signature openSwap = []
  /\ conditionOf claimLock = conditionOf openSwap.
Proof.
  assert (AtomicSwapInputLock_Lock openSwap 5 0 tx0
            (KeyAtomicSwapClaimKey claimKey)
          = Ret (claimLock, None)) as Hlock by reflexivity.
  split; [exact Hlock|].
  destruct (atomic_swap_lock_success openSwap claimLock 5 0 tx0
              (KeyAtomicSwapClaimKey claimKey) Hlock) as (Hs & Hc & _).
  by split.
Defined.

Lemma failed_lock_keeps_signature_witness :
  (SingleSignatureInputLock_Lock (unsignedLock entropyKey) 3 0 tx0
     (KeySecretKey key32)
   = Ret (unsignedLock entropyKey, Some ErrEntropyKey))
  /\ (AtomicSwapInputLock_Lock openSwap 11 0 tx0 (KeyAtomicSwapClaimKey claimKey)
      = Ret (openSwap, Some (errorString "atomic swap contract expired already"))
      /\ as_Signature openSwap = as_Signature openSwap).
Proof.
  assert (SingleSignatureInputLock_Lock (unsignedLock entropyKey) 3 0 tx0
            (KeySecretKey key32)
          = Ret (unsignedLock entropyKey, Some ErrEntropyKey)) as H1
    by reflexivity.
  assert (AtomicSwapInputLock_Lock openSwap 11 0 tx0
            (KeyAtomicSwapClaimKey claimKey)
          = Ret (openSwap,
                 Some (errorString "atomic swap contract expired already")))
    as H2 by reflexivity.
  destruct (failed_lock_keeps_signature (unsignedLock entropyKey)
              (unsignedLock entropyKey) openSwap openSwap 11 0 tx0
              (KeyAtomicSwapClaimKey claimKey) ErrEntropyKey
              (errorString "atomic swap contract expired already"))
    as [_ Has].
  split; [exact H1|].
  split; [exact H2|]. exact (proj1 (Has H2)).
Defined.

Lemma single_signature_lock_ed25519_witness :
  (Algorithm ed25519Key = SignatureEd25519
   /\ length (Key ed25519Key) = 32%nat
   /\ length (SignHash (InputSigHash tx0 0 []) key32) = 64%nat)
  /\ InputLockProxy_Lock openProxy 3 4 0 tx0 (KeySecretKey key32)
     = Ret (lockedProxy,
            VerifyHash (InputSigHash tx0 0 []) (Key ed25519Key)
              (SignHash (InputSigHash tx0 0 []) key32)).
Proof.
  split; [by repeat split|].
  by apply (single_signature_lock_ed25519 ed25519Key key32 3 4 0 tx0).
Defined.

Lemma strict_checked_unlock_is_verification_witness :
  (Algorithm (ss_PublicKey signedLock) = SignatureEd25519
   /\ SingleSignatureInputLock_StrictCheck signedLock = None)
  /\ SingleSignatureInputLock_Unlock signedLock 4 0 tx0
     = Ret (VerifyHash (InputSigHash tx0 0 []) (Key (ss_PublicKey signedLock))
              (ss_Signature signedLock)).
Proof.
  split; [by split|].
  by apply (strict_checked_unlock_is_verification signedLock 4 0 tx0).
Defined.

Lemma strict_check_disagrees_with_unlock_witness :
  (SingleSignatureInputLock_StrictCheck (unsignedLock entropyKey) = None
   /\ SingleSignatureInputLock_Unlock (unsignedLock entropyKey) 4 0 tx0
      = Ret (Some ErrEntropyKey))
  /\ (SingleSignatureInputLock_StrictCheck (unsignedLock futureKey)
      = Some (errorString "unrecognized public key type in transaction")
      /\ SingleSignatureInputLock_Unlock (unsignedLock futureKey) 4 0 tx0
         = Ret None).
Proof.
  split.
  - by apply (proj1 (strict_check_disagrees_with_unlock
                       (unsignedLock entropyKey) 4 0 tx0)).
  - by apply (proj2 (strict_check_disagrees_with_unlock
                       (unsignedLock futureKey) 4 0 tx0)).
Defined.

Lemma lock_with_foreign_key_witness :
  exists msg,
    SingleSignatureInputLock_Lock (unsignedLock ed25519Key) 3 0 tx0
      (KeyOther "int") = Panic msg
    /\ InputLockProxy_Lock openProxy 3 4 0 tx0 (KeyOther "int") = Panic msg.
Proof.
  by apply (lock_with_foreign_key (unsignedLock ed25519Key) openSwap 3 4 0 tx0
              (KeyOther "int")).
Defined.

Lemma register_changes_one_type_witness :
  let reg' := <[Byte.x03 := futureConstructor]> init in
  let rf := {| rf_Condition := codec.EncSiaPublicKey ed25519Key;
               rf_Fulfillment := sig64 |} in
  InputLockProxy_UnmarshalSia reg' zeroProxy
    (codec.EncUnlockType UnlockTypeSingleSignature ++ [])
  = InputLockProxy_UnmarshalSia init zeroProxy
      (codec.EncUnlockType UnlockTypeSingleSignature ++ [])
  /\ InputLockProxy_UnmarshalSia reg' zeroProxy (wire Byte.x03 rf ++ [])
     = ({| t := Byte.x03; il := Some (il_Decode (futureConstructor tt) rf).1 |},
        (il_Decode (futureConstructor tt) rf).2, []).
Proof.
  intros reg' rf.
  destruct (register_changes_one_type init reg' zeroProxy Byte.x03
              UnlockTypeSingleSignature futureConstructor rf [] [] eq_refl)
    as (Hother & Hsame & _).
  split.
  - apply Hother. discriminate.
  - apply Hsame; [discriminate|by vm_compute|by vm_compute].
Defined.

Lemma unregister_makes_unknown_witness :
  let reg := UnregisterUnlockType UnlockTypeSingleSignature init in
  let unknown :=
    {| t := UnlockTypeSingleSignature;
       il := Some (mkInputLock {| u_Condition := key32;
                                  u_Fulfillment := [] |}) |} in
  InputLockProxy_UnmarshalSia reg zeroProxy
    (wire UnlockTypeSingleSignature
       {| rf_Condition := key32; rf_Fulfillment := [] |} ++ [])
  = (unknown, None, [])
  /\ InputLockProxy_Unlock unknown 4 0 tx0 = Ret None.
Proof.
  intros reg unknown.
  destruct (unregister_makes_unknown init init zeroProxy
              UnlockTypeSingleSignature UnlockTypeAtomicSwap futureConstructor
              key32 [] [] [] 4 0 tx0) as (Hunknown & _ & _).
  apply Hunknown; [discriminate|by vm_compute|by vm_compute].
Defined.

Lemma proxy_holds_lock_witness :
  holdsLock unknownProxy
  /\ exists enc h e,
       InputLockProxy_MarshalSia openProxy = Ret enc
       /\ InputLockProxy_UnlockHash openProxy = Ret h
       /\ InputLockProxy_StrictCheck openProxy = Ret e.
Proof.
  set (data := wire Byte.x03 {| rf_Condition := key32; rf_Fulfillment := sig64 |}).
  assert (InputLockProxy_UnmarshalSia init zeroProxy data
          = (unknownProxy, None, [])) as Hdata by reflexivity.
  destruct (proxy_holds_lock init zeroProxy unknownProxy openProxy
              UnlockTypeSingleSignature None data [] 3 4 0 tx0
              (KeySecretKey key32)) as (_ & _ & Hdec & Hret & _).
  split; [exact (Hdec Hdata)|].
  apply Hret. intros _. discriminate.
Defined.

(** The signed single-signature proxy and the unknown lock that holds
    its bytes under the same type are two proxies with one encoding. *)
Lemma encoding_determines_lock_witness :
  let enc := wire UnlockTypeSingleSignature
               {| rf_Condition := codec.EncSiaPublicKey ed25519Key;
                  rf_Fulfillment := ss_Signature signedLock |} in
  InputLockProxy_MarshalSia lockedProxy = Ret enc
  /\ InputLockProxy_MarshalSia rawLockedProxy = Ret enc
  /\ t lockedProxy = t rawLockedProxy
  /\ InputLockProxy_UnlockHash lockedProxy
     = InputLockProxy_UnlockHash rawLockedProxy
  /\ exists lp lq,
       il lockedProxy = Some lp /\ il rawLockedProxy = Some lq
       /\ il_EncodeCondition lp = il_EncodeCondition lq
       /\ il_EncodeFulfillment lp = il_EncodeFulfillment lq.
Proof.
  intros enc.
  assert (InputLockProxy_MarshalSia lockedProxy = Ret enc) as Henc
    by reflexivity.
  assert (InputLockProxy_MarshalSia rawLockedProxy = Ret enc) as Hraw
    by reflexivity.
  assert (forall l, il lockedProxy = Some l ->
            wf_slice (il_EncodeCondition l) /\ wf_slice (il_EncodeFulfillment l))
    as Hwf.
  { intros l [= <-]. split; by vm_compute. }
  assert (forall l, il rawLockedProxy = Some l ->
            wf_slice (il_EncodeCondition l) /\ wf_slice (il_EncodeFulfillment l))
    as Hwf'.
  { intros l [= <-]. split; by vm_compute. }
  split; [exact Henc|]. split; [exact Hraw|].
  destruct (encoding_determines_lock lockedProxy rawLockedProxy enc Hwf Hwf'
              Henc Hraw) as (Ht & Hh & Hl).
  split; [exact Ht|]. split; [exact Hh|].
  apply Hl. discriminate.
Defined.

Lemma unknown_lock_accepts_any_key_witness :
  InputLockProxy_Lock unknownProxy 3 4 0 tx0 (KeyOther "int")
  = Ret (unknownProxy, None).
Proof.
  apply (unknown_lock_accepts_any_key Byte.x03
           {| u_Condition := key32; u_Fulfillment := sig64 |} 3 4 0 tx0
           (KeyOther "int")).
  discriminate.
Defined.

Lemma atomic_swap_phases_witness :
  AtomicSwapInputLock_Unlock claimLock 3 0 tx0
  = AtomicSwapInputLock_Unlock claimLock 5 0 tx0
  /\ AtomicSwapInputLock_Unlock claimLock 5 0 tx0 = Ret None
  /\ AtomicSwapInputLock_Unlock claimLock 11 0 tx0
     = Ret (Some ErrInvalidRedeemer).
Proof.
  destruct (atomic_swap_phases claimLock 3 5 0 tx0) as [Hside _].
  destruct (atomic_swap_phases claimLock 5 11 0 tx0) as [_ Hcross].
  assert (AtomicSwapInputLock_Unlock claimLock 5 0 tx0 = Ret None) as Hclaim
    by reflexivity.
  split.
  - apply Hside. cbn. lia.
  - split; [exact Hclaim|].
    apply Hcross; [|cbn; lia|cbn; lia|exact Hclaim].
    intros Heq. vm_compute in Heq. discriminate Heq.
Defined.

End MoreExamples.

(** * Properties of the electrum service *)

Section ElectrumResponses.
Import electrum.
Context {V : Type}.

(** X15. [newResponse] returns no response exactly for a nil ID (a
    notification). A response carries the version "2.0" and the ID it
    was given, and never both a result and an error: it has an error
    exactly when the call returned one, and then no result, whatever
    result was passed. An [RPCError] is passed on as it is; any other
    error becomes an error of code 1 with the error's text; without an
    error the result is the one passed. *)
Theorem newResponse_shape (ID result : option V) (err : option (callError V)) :
  (newResponse ID result err = None <-> ID = None)
  /\ forall r, newResponse ID result err = Some r ->
       JSONRPC r = "2.0"%string
       /\ electrum.ID r = ID
       /\ (Error r = None \/ Result r = None)
       /\ (Error r = None <-> err = None)
       /\ (err = None -> Result r = result)
       /\ (forall rpce, err = Some (IsRPCError rpce) -> Error r = Some rpce)
       /\ (forall text, err = Some (OtherError text) ->
           Error r = Some {| Code := 1; Message := text; Data := None |}).
Proof.
  unfold newResponse. split.
  - destruct ID as [id|]; [|done]. destruct err as [[rpce|text]|]; by split.
  - intros r. destruct ID as [id|]; [|discriminate].
    destruct err as [[rpce|text]|]; intros [= <-]; cbn;
      repeat split; try done; try (by left); try (by right);
      try (by intros ? [= <-]).
Qed.

End ElectrumResponses.

Section ElectrumVersion.
Import electrum.
Context {V : Type} `{ServerExternals V}.

(** X16. A [ServerVersion] that answers without error was called on a
    client without protocol version, and leaves the client with the
    name it was sent and with the first available version, which is the
    version it answers. When that version is not the zero version,
    every later [ServerVersion] on this client, whatever its arguments
    (nil too), returns the error 101 and leaves the client as it is. A
    [ServerVersion] that returns an error leaves the protocol version
    and the name of the client as they were. *)
Theorem protocol_version_set_once (e : Electrum) (cl cl' : Client)
    (args args' : option bytes) (resp : option VersionResponse)
    (err : option (callError V)) :
  ServerVersion e cl args = Ret ((resp, err), cl') ->
  (err <> None ->
   resp = None /\ protoVersion cl' = protoVersion cl
   /\ clientName cl' = clientName cl)
  /\ (err = None ->
      exists name raw rest,
        resp = Some {| ServerVersionField := ""; ProtoVersion := protoVersion cl' |}
        /\ protoVersion cl = ProtocolVersion_zero
        /\ args = Some raw
        /\ decodeVersionParams raw = Some (name, protoVersion cl')
        /\ availableVersions e = protoVersion cl' :: rest
        /\ clientName cl' = name
        /\ (protoVersion cl' <> ProtocolVersion_zero ->
            ServerVersion e cl' args' = Ret ((None, Some versionAlreadySet), cl'))).
Proof.
  unfold ServerVersion.
  destruct (decide (protoVersion cl <> ProtocolVersion_zero)) as [Hset|Hset].
  { intros [= <- <- <-]. split; [done|]. intros Hn. discriminate. }
  apply dec_stable in Hset.
  destruct args as [raw|]; [|discriminate].
  destruct (decodeVersionParams raw) as [[name pmax]|] eqn:Hdec.
  2:{ intros [= <- <- <-]. split; [done|]. intros Hn. discriminate. }
  destruct (availableVersions e) as [|v0 rest] eqn:Hav; [discriminate|].
  destruct (decide (pmax <> v0)) as [Hne|Heq].
  { intros [= <- <- <-]. split; [done|]. intros Hn. discriminate. }
  apply dec_stable in Heq. subst v0.
  destruct (registerBlockchainMethods cl) as [cl1 [rerr|]] eqn:Hreg;
    cbn [fst snd].
  - intros [= <- <- <-]. split.
    + intros _. unfold registerBlockchainMethods in Hreg.
      injection Hreg as <- _. done.
    + intros Hn. discriminate.
  - intros [= <- <- <-]. split; [done|]. intros _.
    exists name, raw, rest. cbn [protoVersion clientName].
    repeat split; try done.
    intros Hnz. by rewrite decide_True.
Qed.

End ElectrumVersion.

Section ElectrumExamples.
Import electrum testing.

Lemma protocol_version_set_once_witness :
  let cl' := {| protoVersion := 1%N; clientName := "client";
                serviceMap := ["blockchain.address.subscribe"%string;
                               "server.ping"%string; "server.version"%string] |} in
  ServerVersion server1 newClient (Some [Byte.x01])
    = Ret ((Some {| ServerVersionField := ""; ProtoVersion := 1%N |}, None), cl')
  /\ ServerVersion server1 cl' None = Ret ((None, Some versionAlreadySet), cl').
Proof.
  intros cl'.
  assert (Hrun : ServerVersion server1 newClient (Some [Byte.x01])
    = Ret ((Some {| ServerVersionField := ""; ProtoVersion := 1%N |}, None), cl'))
    by reflexivity.
  split; [exact Hrun|].
  destruct (protocol_version_set_once server1 newClient cl' (Some [Byte.x01])
              None _ _ Hrun) as [_ Hok].
  destruct (Hok eq_refl) as (name & raw & rest & _ & _ & _ & _ & _ & _ & Hagain).
  apply Hagain. cbn. lia.
Defined.

End ElectrumExamples.

(** ** The wallet's transaction builder *)

Section BuilderSteps.
Import wallet.
Context `{TypesExternals} {Seed : Type}.

Lemma lastIndex_snoc {A} (l : list A) (x : A) :
  (l ++ [x]) !! N.to_nat (lastIndex (l ++ [x])) = Some x.
Proof.
  unfold lastIndex. rewrite length_app. cbn [length].
  rewrite Nat2N.id. replace (length l + 1 - 1)%nat with (length l + 0)%nat by lia.
  by rewrite lookup_app_r, Nat.add_0_r, Nat.sub_diag by lia.
Qed.

(** X17. Each of [AddMinerFee], [AddCoinInput], [AddCoinOutput],
    [AddBlockStakeInput] and [AddBlockStakeOutput] returns the index at
    which the transaction then holds the element added, after the
    elements that were there, and changes nothing else of the
    transaction; none of them makes the builder remember the element as
    one it added, so that [ViewAdded] reports what it reported before. *)
Theorem add_returns_index_of_added (tb : transactionBuilder) (fee : Currency)
    (ci : CoinInput) (co : CoinOutput) (bsi : BlockStakeInput)
    (bso : BlockStakeOutput) :
  (let (tb', i) := AddMinerFee tb fee in
   MinerFees (transaction tb') = MinerFees (transaction tb) ++ [fee]
   /\ MinerFees (transaction tb') !! N.to_nat i = Some fee
   /\ ViewAdded tb' = ViewAdded tb
   /\ CoinInputs (transaction tb') = CoinInputs (transaction tb)
   /\ BlockStakeInputs (transaction tb') = BlockStakeInputs (transaction tb))
  /\ (let (tb', i) := AddCoinInput tb ci in
      CoinInputs (transaction tb') = CoinInputs (transaction tb) ++ [ci]
      /\ CoinInputs (transaction tb') !! N.to_nat i = Some ci
      /\ ViewAdded tb' = ViewAdded tb
      /\ BlockStakeInputs (transaction tb') = BlockStakeInputs (transaction tb))
  /\ (let (tb', i) := AddCoinOutput tb co in
      CoinOutputs (transaction tb') = CoinOutputs (transaction tb) ++ [co]
      /\ CoinOutputs (transaction tb') !! N.to_nat i = Some co
      /\ ViewAdded tb' = ViewAdded tb
      /\ CoinInputs (transaction tb') = CoinInputs (transaction tb)
      /\ BlockStakeInputs (transaction tb') = BlockStakeInputs (transaction tb))
  /\ (let (tb', i) := AddBlockStakeInput tb bsi in
      BlockStakeInputs (transaction tb')
        = BlockStakeInputs (transaction tb) ++ [bsi]
      /\ BlockStakeInputs (transaction tb') !! N.to_nat i = Some bsi
      /\ ViewAdded tb' = ViewAdded tb
      /\ CoinInputs (transaction tb') = CoinInputs (transaction tb))
  /\ (let (tb', i) := AddBlockStakeOutput tb bso in
      BlockStakeOutputs (transaction tb')
        = BlockStakeOutputs (transaction tb) ++ [bso]
      /\ BlockStakeOutputs (transaction tb') !! N.to_nat i = Some bso
      /\ ViewAdded tb' = ViewAdded tb
      /\ CoinInputs (transaction tb') = CoinInputs (transaction tb)
      /\ BlockStakeInputs (transaction tb') = BlockStakeInputs (transaction tb)).
Proof.
  repeat apply conj; cbn; try reflexivity; apply lastIndex_snoc.
Qed.

Lemma foldl_delete_lookup (ids : list OutputID) (m : gmap OutputID BlockHeight)
    (id : OutputID) :
  foldl (fun m id => delete id m) m ids !! id
  = if decide (id ∈ ids) then None else m !! id.
Proof.
  revert m. induction ids as [|i ids IH]; intros m; cbn [foldl].
  - by rewrite decide_False by apply not_elem_of_nil.
  - rewrite IH. destruct (decide (id ∈ ids)) as [Hin|Hnin].
    + by rewrite decide_True by (by right).
    + destruct (decide (id = i)) as [->|Hne].
      * rewrite decide_True by left. apply lookup_delete_eq.
      * rewrite decide_False by (intros [?|?]%elem_of_cons; done).
        by apply lookup_delete_ne.
Qed.

Lemma coinParentIDs_snoc (ps : list Transaction) (t : Transaction) :
  coinParentIDs (ps ++ [t]) = coinParentIDs ps ++ map ci_ParentID (CoinInputs t).
Proof.
  unfold coinParentIDs. rewrite flat_map_app. cbn. by rewrite app_nil_r.
Qed.

(** X18. [Drop] leaves a builder as [StartTransaction] makes it: the
    empty transaction of the default version, no parents, nothing
    added, not signed. In the wallet it changes the spent outputs only:
    an output is no longer marked as spent when it is the parent of a
    coin input of the dropped transaction or of one of its parents, and
    is marked as before otherwise -- also when it is the parent of a
    block stake input. *)
Theorem Drop_releases_coin_inputs_only (tb : transactionBuilder)
    (w : Wallet Seed) (id : OutputID) :
  let (tb', w') := Drop tb w in
  View tb' = (Transaction_new (DefaultTransactionVersion w), [])
  /\ ViewAdded tb' = ([], [], [])
  /\ signed tb' = false
  /\ with_spentOutputs w' (spentOutputs w) = w
  /\ spentOutputs w' !! id
     = if decide (id ∈ coinParentIDs (parents tb ++ [transaction tb]))
       then None else spentOutputs w !! id.
Proof.
  cbn. split; [done|]. split; [done|]. split; [done|]. split.
  - by destruct w.
  - apply foldl_delete_lookup.
Qed.

(** X19. [SpendBlockStake] returns [ErrIncompleteTransactions] and
    changes nothing for an output that is not among the wallet's unspent
    block stake outputs. For one that is, it succeeds whether or not the
    output is marked as spent: it appends an input for it, remembers the
    index of that input as one to sign, and marks the output as spent at
    the current height. A [Drop] after it does not take that mark away,
    unless the output is also the parent of a coin input. *)
Theorem SpendBlockStake_marks_for_good (tb : transactionBuilder)
    (w : Wallet Seed) (ubsoid : OutputID) :
  let '(tb', w', err) := SpendBlockStake tb w ubsoid in
  match unspentblockstakeoutputs w !! ubsoid with
  | None => err = Some ErrIncompleteTransactions /\ tb' = tb /\ w' = w
  | Some ubso =>
    err = None
    /\ BlockStakeInputs (transaction tb')
       = BlockStakeInputs (transaction tb)
           ++ [blockStakeInputFor w ubsoid ubso]
    /\ (ViewAdded tb').2
       = (ViewAdded tb).2 ++ [length (BlockStakeInputs (transaction tb))]
    /\ spentOutputs w' !! ubsoid = Some (consensusSetHeight w)
    /\ (ubsoid ∉ coinParentIDs (parents tb ++ [transaction tb]) ->
        spentOutputs (Drop tb' w').2 !! ubsoid = Some (consensusSetHeight w))
  end.
Proof.
  unfold SpendBlockStake.
  destruct (unspentblockstakeoutputs w !! ubsoid) as [ubso|]; [|done].
  split; [done|]. split; [done|]. split.
  { cbn. by rewrite map_app. }
  split; [apply lookup_insert_eq|].
  intros Hnin. cbn [Drop snd with_spentOutputs spentOutputs parents transaction
                    set_BlockStakeInputs CoinInputs].
  rewrite foldl_delete_lookup, decide_False.
  - apply lookup_insert_eq.
  - rewrite coinParentIDs_snoc in *. exact Hnin.
Qed.

End BuilderSteps.

Section FundingLoops.
Import wallet.
Context `{TypesExternals} {Seed : Type} `{!WalletExternals Seed}.

Local Ltac clia := unfold Currency, BlockHeight in *; lia.

Lemma totalValue_app {A} (v : A -> Currency) (l1 l2 : list (OutputID * A)) :
  totalValue v (l1 ++ l2) = totalValue v l1 + totalValue v l2.
Proof.
  induction l1 as [|p l1 IH]; cbn; [done|].
  rewrite IH. clia.
Qed.

Lemma totalValue_Permutation {A} (v : A -> Currency)
    (l1 l2 : list (OutputID * A)) :
  Permutation l1 l2 -> totalValue v l1 = totalValue v l2.
Proof.
  induction 1 as [|p l1 l2 _ IH|p q l|l1 l2 l3 _ IH1 _ IH2]; cbn.
  - done.
  - by rewrite IH.
  - clia.
  - congruence.
Qed.

Lemma spendableOf_app {A} (w : Wallet Seed) (l1 l2 : list (OutputID * A)) :
  spendableOf w (l1 ++ l2) = spendableOf w l1 ++ spendableOf w l2.
Proof. apply List.filter_app. Qed.

Lemma filter_Permutation' {A} (f : A -> bool) (l1 l2 : list A) :
  Permutation l1 l2 -> Permutation (List.filter f l1) (List.filter f l2).
Proof.
  induction 1 as [|p l1 l2 _ IH|p q l|l1 l2 l3 _ IH1 _ IH2]; cbn.
  - done.
  - destruct (f p); by rewrite IH.
  - destruct (f p), (f q); try done. apply perm_swap.
  - by etrans.
Qed.

Lemma spendableOf_Permutation {A} (w : Wallet Seed)
    (l1 l2 : list (OutputID * A)) :
  Permutation l1 l2 -> Permutation (spendableOf w l1) (spendableOf w l2).
Proof. apply filter_Permutation'. Qed.

Lemma totalValue_filter_le {A} (v : A -> Currency)
    (f : OutputID * A -> bool) (l : list (OutputID * A)) :
  totalValue v (List.filter f l) <= totalValue v l.
Proof.
  induction l as [|p l IH]; cbn; [lia|].
  destruct (f p); cbn; clia.
Qed.

Lemma signContextsFrom_cons {A} (u : A -> UnlockHash) (n : nat)
    (p : OutputID * A) (l : list (OutputID * A)) :
  signContextsFrom u n (p :: l)
  = {| InputIndex := n; isc_UnlockHash := u p.2 |}
      :: signContextsFrom u (S n) l.
Proof.
  unfold signContextsFrom. cbn [imap]. rewrite Nat.add_0_r. f_equal.
  apply imap_ext. intros i x _. cbn. f_equal. clia.
Qed.

Lemma sameButCoinInputs_more (tb tb' : transactionBuilder)
    (l : list CoinInput) (cs : list inputSignContext) :
  sameButCoinInputs
    {| parents := parents tb; signed := signed tb;
       transaction := set_CoinInputs (transaction tb) l;
       newParents := newParents tb; coinInputs := cs;
       blockstakeInputs := blockstakeInputs tb |} tb' ->
  sameButCoinInputs tb tb'.
Proof.
  unfold sameButCoinInputs. destruct tb as [ps sg tx np ci bi]. destruct tx.
  cbn. intros E. by simplify_eq.
Qed.

(** The loop of [FundCoins] goes through a first part [done] of the
    outputs and stops: at the end of the outputs, or after the first
    output with which the fund reaches the amount. *)
Lemma fundCoinsLoop_run (w : Wallet Seed) (amount : Currency)
    (so : list (OutputID * CoinOutput)) (st : funding) :
  exists done rest : list (OutputID * CoinOutput),
    let st' := fundCoinsLoop w amount so st in
    let chosen := spendableOf w done in
    so = done ++ rest
    /\ fd_fund st' = fd_fund st + totalValue co_Value chosen
    /\ fd_potentialFund st' = fd_potentialFund st + totalValue co_Value done
    /\ fd_spent st' = fd_spent st ++ chosen.*1
    /\ CoinInputs (transaction (fd_builder st'))
       = CoinInputs (transaction (fd_builder st))
           ++ map (fun p => coinInputFor w p.1 p.2) chosen
    /\ coinInputs (fd_builder st')
       = coinInputs (fd_builder st)
           ++ signContextsFrom (fun o => ConditionUnlockHash (co_Condition o))
                (length (CoinInputs (transaction (fd_builder st)))) chosen
    /\ sameButCoinInputs (fd_builder st) (fd_builder st')
    /\ (fd_fund st' < amount -> rest = [])
    /\ (amount <= fd_fund st' -> chosen <> [] ->
        exists done0 p,
          done = done0 ++ [p] /\ recentlySpent w p.1 = false
          /\ (spendableOf w done0 = []
              \/ fd_fund st + totalValue co_Value (spendableOf w done0)
                 < amount)).
Proof.
  revert st. induction so as [|[scoid sco] so IH]; intros st.
  { exists [], []. cbn. rewrite !N.add_0_r, !app_nil_r.
    repeat apply conj; try done. by destruct st as [[] ? ? ?]; destruct transaction0. }
  cbn [fundCoinsLoop].
  destruct (recentlySpent w scoid) eqn:Hrs.
  - match goal with |- context [fundCoinsLoop w amount so ?s] =>
      destruct (IH s) as (done & rest & IH') end.
    cbn zeta in IH'. cbn [fd_fund fd_potentialFund fd_spent fd_builder] in IH'.
    destruct IH' as (-> & Hf & Hp & Hs & Hci & Hsc & Hsame & Hlt & Hbrk).
    exists ((scoid, sco) :: done), rest. cbn zeta.
    unfold spendableOf in *. cbn [List.filter fst]. rewrite Hrs. cbn [negb].
    repeat apply conj; try done.
    + rewrite Hp. cbn. clia.
    + intros Hge Hne. destruct (Hbrk Hge Hne) as (done0 & p & -> & Hp0 & Hmin).
      exists ((scoid, sco) :: done0), p. cbn [List.filter fst]. rewrite Hrs.
      by cbn.
  - cbn zeta. cbn [fd_fund].
    destruct (amount <=? fd_fund st + co_Value sco) eqn:Hle.
    + apply N.leb_le in Hle.
      exists [(scoid, sco)], so. cbn zeta.
      unfold spendableOf. cbn [List.filter fst]. rewrite Hrs. cbn [negb].
      cbn. rewrite N.add_0_r.
      repeat apply conj; try done.
      * unfold signContextsFrom. cbn. by rewrite Nat.add_0_r.
      * unfold sameButCoinInputs. cbn.
        by destruct st as [[] ? ? ?]; destruct transaction0.
      * intros Hlt. clia.
      * intros _ _. exists [], (scoid, sco). cbn. by auto.
    + apply N.leb_gt in Hle.
      match goal with |- context [fundCoinsLoop w amount so ?s] =>
        destruct (IH s) as (done & rest & IH') end.
      cbn zeta in IH'.
      cbn [fd_fund fd_potentialFund fd_spent fd_builder transaction CoinInputs
           set_CoinInputs coinInputs] in IH'.
      destruct IH' as (-> & Hf & Hp & Hs & Hci & Hsc & Hsame & Hlt & Hbrk).
      exists ((scoid, sco) :: done), rest. cbn zeta.
      unfold spendableOf in *. cbn [List.filter fst]. rewrite Hrs. cbn [negb].
      repeat apply conj; try done.
      * rewrite Hf. cbn. clia.
      * rewrite Hp. cbn. clia.
      * rewrite Hs. cbn. by rewrite <- app_assoc.
      * rewrite Hci. cbn. by rewrite <- app_assoc.
      * rewrite Hsc, signContextsFrom_cons, <- app_assoc. cbn.
        rewrite length_app. cbn. by rewrite Nat.add_1_r.
      * eapply sameButCoinInputs_more, Hsame.
      * intros Hge _.
        set (chosen := List.filter _ done) in *.
        assert (Hne : chosen <> []).
        { intros E. rewrite E in Hf. cbn in Hf. clia. }
        destruct (Hbrk Hge Hne) as (done0 & p & -> & Hp0 & Hmin).
        exists ((scoid, sco) :: done0), p. cbn [List.filter fst]. rewrite Hrs.
        cbn [negb]. repeat apply conj; try done. right.
        destruct Hmin as [E|Hmin].
        -- rewrite E. cbn. clia.
        -- cbn. clia.
Qed.

End FundingLoops.

Section FundingCoins.
Import wallet.
Context `{TypesExternals} {Seed : Type} `{!WalletExternals Seed}.

Local Ltac clia := unfold Currency, BlockHeight in *; lia.

Lemma foldl_insert_lookup (h : BlockHeight) (ids : list OutputID)
    (m : gmap OutputID BlockHeight) (id : OutputID) :
  foldl (fun m id => <[id := h]> m) m ids !! id
  = if decide (id ∈ ids) then Some h else m !! id.
Proof.
  revert m. induction ids as [|i ids IH]; intros m; cbn [foldl].
  - by rewrite decide_False by apply not_elem_of_nil.
  - rewrite IH. destruct (decide (id ∈ ids)) as [Hin|Hnin].
    + by rewrite decide_True by (by right).
    + destruct (decide (id = i)) as [->|Hne].
      * rewrite decide_True by left. apply lookup_insert_eq.
      * rewrite decide_False by (intros [?|?]%elem_of_cons; done).
        by apply lookup_insert_ne.
Qed.

Lemma markSpent_lookup (w : Wallet Seed) (ids : list OutputID) (id : OutputID) :
  spentOutputs (markSpent w ids) !! id
  = if decide (id ∈ ids) then Some (consensusSetHeight w)
    else spentOutputs w !! id.
Proof. apply foldl_insert_lookup. Qed.

Lemma InputIndex_signContextsFrom {A} (u : A -> UnlockHash) (n : nat)
    (chosen : list (OutputID * A)) :
  map InputIndex (signContextsFrom u n chosen) = seq n (length chosen).
Proof.
  revert n. induction chosen as [|p l IH]; intros n; [done|].
  rewrite signContextsFrom_cons. cbn. by rewrite IH.
Qed.

(** What a call of [FundCoins] does, in terms of the part [done] of the
    sorted outputs that its loop goes through. *)
Lemma FundCoins_run (tb : transactionBuilder) (w : Wallet Seed)
    (amount : Currency) :
  exists done rest : list (OutputID * CoinOutput),
    let so := sortReverse (coinCandidates w (getFulfillableContextForLatestBlock w)) in
    let chosen := spendableOf w done in
    let fund := totalValue co_Value chosen in
    let inputs := CoinInputs (transaction tb)
                    ++ map (fun p => coinInputFor w p.1 p.2) chosen in
    let tb1 :=
      {| parents := parents tb; signed := signed tb;
         transaction := set_CoinInputs (transaction tb) inputs;
         newParents := newParents tb;
         coinInputs :=
           coinInputs tb
             ++ signContextsFrom (fun o => ConditionUnlockHash (co_Condition o))
                  (length (CoinInputs (transaction tb))) chosen;
         blockstakeInputs := blockstakeInputs tb |} in
    so = done ++ rest
    /\ (fund < amount -> rest = [])
    /\ (amount <= fund -> chosen <> [] ->
        exists done0 p,
          done = done0 ++ [p] /\ recentlySpent w p.1 = false
          /\ (spendableOf w done0 = []
              \/ totalValue co_Value (spendableOf w done0) < amount))
    /\ FundCoins tb w amount
       = if decide (fund < amount) then
           (tb1, w,
            Some (if decide (amount <= totalValue co_Value done)
                  then ErrIncompleteTransactions else ErrLowBalance))
         else if decide (amount = fund) then
           (tb1, markSpent w chosen.*1, None)
         else
           match nextPrimarySeedAddress w with
           | (w1, _, Some e) => (tb1, w1, Some e)
           | (w1, refundUnlockHash, None) =>
             (with_transaction tb1
                (set_CoinOutputs (transaction tb1)
                   (CoinOutputs (transaction tb)
                      ++ [{| co_Value := fund - amount;
                             co_Condition :=
                               NewUnlockHashCondition refundUnlockHash |}])),
              markSpent w1 chosen.*1, None)
           end.
Proof.
  unfold FundCoins.
  set (so := sortReverse _).
  set (st0 := {| fd_builder := tb; fd_fund := 0; fd_potentialFund := 0;
                 fd_spent := [] |}).
  destruct (fundCoinsLoop_run w amount so st0)
    as (done & rest & Hso & Hf & Hp & Hs & Hci & Hsc & Hsame & Hlt & Hbrk).
  exists done, rest. cbn zeta.
  set (st := fundCoinsLoop w amount so st0) in *.
  cbn [st0 fd_fund fd_potentialFund fd_spent fd_builder] in *.
  rewrite N.add_0_l in Hf, Hp. rewrite app_nil_l in Hs.
  assert (Htb : fd_builder st
    = {| parents := parents tb; signed := signed tb;
         transaction :=
           set_CoinInputs (transaction tb)
             (CoinInputs (transaction tb)
                ++ map (fun p => coinInputFor w p.1 p.2) (spendableOf w done));
         newParents := newParents tb;
         coinInputs :=
           coinInputs tb
             ++ signContextsFrom (fun o => ConditionUnlockHash (co_Condition o))
                  (length (CoinInputs (transaction tb))) (spendableOf w done);
         blockstakeInputs := blockstakeInputs tb |}).
  { unfold sameButCoinInputs in Hsame. clear Hbrk Hlt Hf Hp Hs.
    destruct (fd_builder st) as [ps1 sg1 [v1 ci1 co1 bi1 bo1 mf1 ad1] np1 cs1 bs1].
    destruct tb as [ps0 sg0 [v0 ci0 co0 bi0 bo0 mf0 ad0] np0 cs0 bs0].
    cbn in *. by simplify_eq. }
  split; [exact Hso|]. split; [by rewrite <- Hf|]. split.
  { intros Hge Hne. rewrite <- Hf in Hge.
    destruct (Hbrk Hge Hne) as (done0 & p & -> & Hp0 & Hmin).
    exists done0, p. split; [done|]. split; [done|].
    destruct Hmin as [?|Hmin]; [by left|right; clia]. }
  rewrite Htb, Hf, Hp, Hs.
  set (fund := totalValue co_Value (spendableOf w done)).
  destruct (decide (fund < amount)) as [Hlow|Hhigh].
  - rewrite (proj2 (N.ltb_lt fund amount)) by clia.
    destruct (decide (amount <= totalValue co_Value done)) as [Hpot|Hpot].
    + by rewrite (proj2 (N.leb_le amount _)) by clia.
    + by rewrite (proj2 (N.leb_gt amount _)) by clia.
  - rewrite (proj2 (N.ltb_ge fund amount)) by clia.
    rewrite andb_false_r.
    destruct (decide (amount = fund)) as [Heq|Hne].
    + by rewrite (proj2 (N.eqb_eq amount fund)).
    + rewrite (proj2 (N.eqb_neq amount fund)) by done.
      cbn [negb]. by destruct (nextPrimarySeedAddress w) as [[w1 uh] [e|]].
Qed.

(** X20. Which error [FundCoins] returns follows from two sums over the
    outputs it collects (the fulfillable outputs of the wallet and of
    its unconfirmed transactions): their total value, and the value of
    those not spent recently. It returns [ErrLowBalance] when the total
    is below the amount, [ErrIncompleteTransactions] when the total
    reaches the amount but the part not spent recently does not, and
    otherwise no error, or the error of [nextPrimarySeedAddress] when a
    refund address is needed. A call that fails for the funds leaves
    the wallet as it is but not the transaction: it has added an
    input for every collected output not spent recently. *)
Theorem FundCoins_outcome (tb : transactionBuilder) (w : Wallet Seed)
    (amount : Currency) :
  let cands := coinCandidates w (getFulfillableContextForLatestBlock w) in
  let total := totalValue co_Value cands in
  let free := totalValue co_Value (spendableOf w cands) in
  let '(tb', w', err) := FundCoins tb w amount in
  (total < amount -> err = Some ErrLowBalance)
  /\ (free < amount <= total -> err = Some ErrIncompleteTransactions)
  /\ (amount <= free ->
      err = None \/ err = (nextPrimarySeedAddress w).2 /\ err <> None)
  /\ (free < amount ->
      w' = w
      /\ CoinInputs (transaction tb')
         = CoinInputs (transaction tb)
             ++ map (fun p => coinInputFor w p.1 p.2)
                  (spendableOf w (sortReverse cands))).
Proof.
  cbn zeta.
  destruct (FundCoins_run tb w amount)
    as (done & rest & Hso & Hend & _ & Hrun).
  cbn zeta in *.
  set (cands := coinCandidates w _) in *.
  pose proof (sortReverse_Permutation cands) as Hperm.
  rewrite (totalValue_Permutation co_Value _ _ (symmetry Hperm)).
  rewrite (totalValue_Permutation co_Value _ _
             (spendableOf_Permutation w _ _ (symmetry Hperm))).
  rewrite Hso, spendableOf_app, !totalValue_app.
  pose proof (totalValue_filter_le co_Value
                (fun p => negb (recentlySpent w p.1)) done) as Hle1.
  fold (spendableOf w done) in Hle1.
  rewrite Hrun.
  destruct (decide (totalValue co_Value (spendableOf w done) < amount))
    as [Hlow|Hhigh].
  - rewrite (Hend Hlow). cbn [spendableOf List.filter totalValue].
    rewrite !N.add_0_r, app_nil_r.
    destruct (decide (amount <= totalValue co_Value done));
      repeat apply conj; try done; intros; exfalso; clia.
  - pose proof (totalValue_filter_le co_Value
                  (fun p => negb (recentlySpent w p.1)) rest) as Hle2.
    fold (spendableOf w rest) in Hle2.
    destruct (decide (amount = totalValue co_Value (spendableOf w done))).
    { repeat apply conj; try (intros; exfalso; clia). by left. }
    destruct (nextPrimarySeedAddress w) as [[w1 uh] [e|]];
      repeat apply conj; try (intros; exfalso; clia); intros _;
      [by right|by left].
Qed.

(** X21. A [FundCoins] that returns no error has gone through the
    sorted outputs up to the first one with which the outputs taken
    reach the amount, taking those not spent recently. The transaction
    has an input for each output taken, after the inputs it had, and the
    builder remembers their indices as the ones to sign. The values
    taken add up to the amount plus the refund: there is no refund
    output when they add up to the amount, and otherwise one output
    more, with the difference as its value, to the address from
    [nextPrimarySeedAddress]. Every output taken is marked as spent at
    the wallet's height. For an amount above zero the last output gone
    through was taken, and without it the outputs taken did not reach
    the amount. *)
Theorem FundCoins_success (tb tb' : transactionBuilder) (w w' : Wallet Seed)
    (amount : Currency) :
  FundCoins tb w amount = (tb', w', None) ->
  exists done rest : list (OutputID * CoinOutput),
    let chosen := spendableOf w done in
    let fund := totalValue co_Value chosen in
    sortReverse (coinCandidates w (getFulfillableContextForLatestBlock w))
      = done ++ rest
    /\ CoinInputs (transaction tb')
       = CoinInputs (transaction tb)
           ++ map (fun p => coinInputFor w p.1 p.2) chosen
    /\ (ViewAdded tb').1.2
       = (ViewAdded tb).1.2
           ++ seq (length (CoinInputs (transaction tb))) (length chosen)
    /\ amount <= fund
    /\ CoinOutputs (transaction tb')
       = CoinOutputs (transaction tb)
           ++ (if decide (amount = fund) then []
               else [{| co_Value := fund - amount;
                        co_Condition :=
                          NewUnlockHashCondition
                            (nextPrimarySeedAddress w).1.2 |}])
    /\ (forall id, id ∈ chosen.*1 ->
        spentOutputs w' !! id = Some (consensusSetHeight w'))
    /\ (0 < amount ->
        exists done0 p,
          done = done0 ++ [p] /\ recentlySpent w p.1 = false
          /\ totalValue co_Value (spendableOf w done0) < amount).
Proof.
  intros Hok.
  destruct (FundCoins_run tb w amount)
    as (done & rest & Hso & Hend & Hbrk & Hrun).
  cbn zeta in *. exists done, rest. cbn zeta.
  set (chosen := spendableOf w done) in *.
  set (fund := totalValue co_Value chosen) in *.
  rewrite Hok in Hrun.
  destruct (decide (fund < amount)) as [Hlow|Hhigh]; [discriminate|].
  assert (Hge : amount <= fund) by clia.
  assert (Hlast : 0 < amount ->
    exists done0 p,
      done = done0 ++ [p] /\ recentlySpent w p.1 = false
      /\ totalValue co_Value (spendableOf w done0) < amount).
  { intros Hpos.
    assert (Hne : chosen <> []).
    { intros E. subst fund. rewrite E in Hge. cbn in Hge. clia. }
    destruct (Hbrk Hge Hne) as (done0 & p & -> & Hp0 & Hmin).
    exists done0, p. split; [done|]. split; [done|].
    destruct Hmin as [E|Hmin]; [|done]. rewrite E. cbn. clia. }
  split; [exact Hso|].
  destruct (decide (amount = fund)) as [Heq|Hne].
  - injection Hrun as -> ->. repeat apply conj; try done.
    + cbn. by rewrite map_app, InputIndex_signContextsFrom.
    + cbn. by rewrite app_nil_r.
    + intros id Hin. by rewrite markSpent_lookup, decide_True.
  - destruct (nextPrimarySeedAddress w) as [[w1 uh] [e|]]; [discriminate|].
    injection Hrun as -> ->. repeat apply conj; try done.
    + cbn. by rewrite map_app, InputIndex_signContextsFrom.
    + intros id Hin. by rewrite markSpent_lookup, decide_True.
Qed.

End FundingCoins.

Section FundingTwice.
Import wallet.
Context `{TypesExternals} {Seed : Type} `{!WalletExternals Seed}.

Local Ltac clia := unfold Currency, BlockHeight in *; lia.

(** The allowed height stays below a mark made at height [h] as long
    as the wallet is less than the respend timeout above [h]. *)
Lemma allowedHeight_lt (w : Wallet Seed) (h : BlockHeight) :
  0 < h -> consensusSetHeight w < h + RespendTimeout ->
  consensusSetHeight w < 2 ^ 64 ->
  allowedHeight w < h.
Proof.
  intros Hpos Hnear Hmax. unfold allowedHeight.
  destruct (consensusSetHeight w <? RespendTimeout) eqn:E; [done|].
  apply N.ltb_ge in E.
  replace (consensusSetHeight w + 2 ^ 64 - RespendTimeout)
    with (consensusSetHeight w - RespendTimeout + 1 * 2 ^ 64) by clia.
  rewrite N.Div0.mod_add, N.mod_small; clia.
Qed.

Lemma spendableOf_spec {A} (w : Wallet Seed) (so : list (OutputID * A))
    (p : OutputID * A) :
  p ∈ spendableOf w so <-> p ∈ so /\ recentlySpent w p.1 = false.
Proof.
  unfold spendableOf. rewrite !list_elem_of_In, List.filter_In.
  by rewrite negb_true_iff.
Qed.

(** X22. A call of [FundCoins], whether or not it succeeds, adds no
    input for an output that a successful [FundCoins] took before, as
    long as three things hold of the wallet [w2] the later call is made
    on, whatever happened to the wallet in between: the output still
    has the spend height that the earlier call left it (no [Drop] has
    taken the mark away), the earlier call was made at a height above
    zero, and the height of [w2] is below 2^64 and less than the
    respend timeout above the height of the earlier call. *)
Theorem FundCoins_takes_no_marked_output
    (tb1 tb1' tb2 tb2' : transactionBuilder) (w w1 w2 w3 : Wallet Seed)
    (amount1 amount2 : Currency) (err : option werror) (ci cj : CoinInput) :
  FundCoins tb1 w amount1 = (tb1', w1, None) ->
  FundCoins tb2 w2 amount2 = (tb2', w3, err) ->
  ci ∈ drop (length (CoinInputs (transaction tb1)))
         (CoinInputs (transaction tb1')) ->
  cj ∈ drop (length (CoinInputs (transaction tb2)))
         (CoinInputs (transaction tb2')) ->
  spendHeight w2 (ci_ParentID ci) = spendHeight w1 (ci_ParentID ci) ->
  0 < consensusSetHeight w1 ->
  consensusSetHeight w2 < consensusSetHeight w1 + RespendTimeout ->
  consensusSetHeight w2 < 2 ^ 64 ->
  ci_ParentID ci <> ci_ParentID cj.
Proof.
  intros H1 H2 Hci Hcj Hkept Hpos Hnear Hmax Heq.
  destruct (FundCoins_run tb1 w amount1) as (done1 & rest1 & _ & _ & _ & Hrun1).
  destruct (FundCoins_run tb2 w2 amount2) as (done2 & rest2 & _ & _ & _ & Hrun2).
  cbn zeta in *. rewrite H1 in Hrun1. rewrite H2 in Hrun2.
  (* the first call marked its outputs *)
  assert (Hmark : spendHeight w1 (ci_ParentID ci) = consensusSetHeight w1).
  { unfold spendHeight. destruct (decide (_ < amount1)); [discriminate|].
    destruct (decide (amount1 = _)).
    - injection Hrun1 as -> ->. cbn in Hci. rewrite drop_app_length in Hci.
      apply list_elem_of_fmap in Hci as (p & -> & Hp).
      rewrite markSpent_lookup, decide_True; [done|].
      apply list_elem_of_fmap. by exists p.
    - destruct (nextPrimarySeedAddress w) as [[w0 uh] [e|]]; [discriminate|].
      injection Hrun1 as -> ->. cbn in Hci. rewrite drop_app_length in Hci.
      apply list_elem_of_fmap in Hci as (p & -> & Hp).
      rewrite markSpent_lookup, decide_True; [done|].
      apply list_elem_of_fmap. by exists p. }
  (* the later call takes no marked output *)
  assert (Hfree : recentlySpent w2 (ci_ParentID cj) = false).
  { assert (Hin : cj ∈ map (fun p => coinInputFor w2 p.1 p.2)
                         (spendableOf w2 done2)).
    { destruct (decide (_ < amount2)).
      - injection Hrun2 as -> _ _. cbn in Hcj.
        by rewrite drop_app_length in Hcj.
      - destruct (decide (amount2 = _)).
        + injection Hrun2 as -> _ _. cbn in Hcj.
          by rewrite drop_app_length in Hcj.
        + destruct (nextPrimarySeedAddress w2) as [[w0 uh] [e|]];
            injection Hrun2 as -> _ _; cbn in Hcj;
            by rewrite drop_app_length in Hcj. }
    apply list_elem_of_fmap in Hin as (p & -> & Hp).
    by apply spendableOf_spec in Hp as [_ Hp]. }
  rewrite <- Heq in Hfree. unfold recentlySpent in Hfree.
  rewrite Hkept, Hmark in Hfree. apply N.ltb_ge in Hfree.
  pose proof (allowedHeight_lt w2 (consensusSetHeight w1) Hpos Hnear Hmax).
  clia.
Qed.

End FundingTwice.

Section FundingBlockStakes.
Import wallet.
Context `{TypesExternals} {Seed : Type} `{!WalletExternals Seed}.

Local Ltac clia := unfold Currency, BlockHeight in *; lia.

Lemma sameButBlockStakeInputs_more (tb tb' : transactionBuilder)
    (l : list BlockStakeInput) (cs : list inputSignContext) :
  sameButBlockStakeInputs
    {| parents := parents tb; signed := signed tb;
       transaction := set_BlockStakeInputs (transaction tb) l;
       newParents := newParents tb; coinInputs := coinInputs tb;
       blockstakeInputs := cs |} tb' ->
  sameButBlockStakeInputs tb tb'.
Proof.
  unfold sameButBlockStakeInputs. destruct tb as [ps sg tx np ci bi].
  destruct tx. cbn. intros E. by simplify_eq.
Qed.

(** The loop of [FundBlockStakes] goes through a first part [done] of
    the entries and stops: at the end of the entries, or after the
    first one with which the fund reaches the amount. *)
Lemma fundBlockStakesLoop_run (w : Wallet Seed) (ctx : FulfillableContext)
    (amount : Currency) (order : list (OutputID * BlockStakeOutput))
    (st : funding) :
  exists done rest : list (OutputID * BlockStakeOutput),
    let st' := fundBlockStakesLoop w ctx amount order st in
    let seen := fulfillableOf ctx done in
    let chosen := spendableOf w seen in
    order = done ++ rest
    /\ fd_fund st' = fd_fund st + totalValue bso_Value chosen
    /\ fd_potentialFund st' = fd_potentialFund st + totalValue bso_Value seen
    /\ fd_spent st' = fd_spent st ++ chosen.*1
    /\ BlockStakeInputs (transaction (fd_builder st'))
       = BlockStakeInputs (transaction (fd_builder st))
           ++ map (fun p => blockStakeInputFor w p.1 p.2) chosen
    /\ blockstakeInputs (fd_builder st')
       = blockstakeInputs (fd_builder st)
           ++ signContextsFrom (fun o => ConditionUnlockHash (bso_Condition o))
                (length (BlockStakeInputs (transaction (fd_builder st)))) chosen
    /\ sameButBlockStakeInputs (fd_builder st) (fd_builder st')
    /\ (fd_fund st' < amount -> rest = []).
Proof.
  revert st. induction order as [|[sfoid sfo] order IH]; intros st.
  { exists [], []. cbn. rewrite !N.add_0_r, !app_nil_r.
    repeat apply conj; try done.
    unfold sameButBlockStakeInputs.
    by destruct st as [[? ? [] ? ? ?] ? ? ?]. }
  cbn [fundBlockStakesLoop].
  destruct (Fulfillable (bso_Condition sfo) ctx) eqn:Hful; cbn [negb].
  2:{ destruct (IH st) as (done & rest & IH'). cbn zeta in IH'.
      destruct IH' as (-> & Hf & Hp & Hs & Hci & Hsc & Hsame & Hlt).
      exists ((sfoid, sfo) :: done), rest. cbn zeta.
      unfold fulfillableOf in *. cbn [List.filter snd]. by rewrite Hful. }
  destruct (recentlySpent w sfoid) eqn:Hrs.
  - match goal with |- context [fundBlockStakesLoop w ctx amount order ?s] =>
      destruct (IH s) as (done & rest & IH') end.
    cbn zeta in IH'. cbn [fd_fund fd_potentialFund fd_spent fd_builder] in IH'.
    destruct IH' as (-> & Hf & Hp & Hs & Hci & Hsc & Hsame & Hlt).
    exists ((sfoid, sfo) :: done), rest. cbn zeta.
    unfold fulfillableOf, spendableOf in *. cbn [List.filter snd].
    rewrite Hful. cbn [List.filter fst]. rewrite Hrs. cbn [negb].
    repeat apply conj; try done.
    rewrite Hp. cbn. clia.
  - cbn zeta. cbn [fd_fund].
    destruct (amount <=? fd_fund st + bso_Value sfo) eqn:Hle.
    + apply N.leb_le in Hle.
      exists [(sfoid, sfo)], order. cbn zeta.
      unfold fulfillableOf, spendableOf. cbn [List.filter snd].
      rewrite Hful. cbn [List.filter fst]. rewrite Hrs. cbn [negb].
      cbn. rewrite N.add_0_r.
      repeat apply conj; try done.
      * unfold signContextsFrom. cbn. by rewrite Nat.add_0_r.
      * unfold sameButBlockStakeInputs. cbn.
        by destruct st as [[? ? [] ? ? ?] ? ? ?].
      * intros Hlt. clia.
    + apply N.leb_gt in Hle.
      match goal with |- context [fundBlockStakesLoop w ctx amount order ?s] =>
        destruct (IH s) as (done & rest & IH') end.
      cbn zeta in IH'.
      cbn [fd_fund fd_potentialFund fd_spent fd_builder transaction
           BlockStakeInputs set_BlockStakeInputs blockstakeInputs] in IH'.
      destruct IH' as (-> & Hf & Hp & Hs & Hci & Hsc & Hsame & Hlt).
      exists ((sfoid, sfo) :: done), rest. cbn zeta.
      unfold fulfillableOf, spendableOf in *. cbn [List.filter snd].
      rewrite Hful. cbn [List.filter fst]. rewrite Hrs. cbn [negb].
      repeat apply conj; try done.
      * rewrite Hf. cbn. clia.
      * rewrite Hp. cbn. clia.
      * rewrite Hs. cbn. by rewrite <- app_assoc.
      * rewrite Hci. cbn. by rewrite <- app_assoc.
      * rewrite Hsc, signContextsFrom_cons, <- app_assoc. cbn.
        rewrite length_app. cbn. by rewrite Nat.add_1_r.
      * eapply sameButBlockStakeInputs_more, Hsame.
Qed.

(** What a call of [FundBlockStakes] does, in terms of the part [done]
    of the entries that its loop goes through. *)
Lemma FundBlockStakes_run (order : list (OutputID * BlockStakeOutput))
    (tb : transactionBuilder) (w : Wallet Seed) (amount : Currency) :
  exists done rest : list (OutputID * BlockStakeOutput),
    let seen := fulfillableOf (getFulfillableContextForLatestBlock w) done in
    let chosen := spendableOf w seen in
    let fund := totalValue bso_Value chosen in
    let inputs := BlockStakeInputs (transaction tb)
                    ++ map (fun p => blockStakeInputFor w p.1 p.2) chosen in
    let tb1 :=
      {| parents := parents tb; signed := signed tb;
         transaction := set_BlockStakeInputs (transaction tb) inputs;
         newParents := newParents tb;
         coinInputs := coinInputs tb;
         blockstakeInputs :=
           blockstakeInputs tb
             ++ signContextsFrom
                  (fun o => ConditionUnlockHash (bso_Condition o))
                  (length (BlockStakeInputs (transaction tb))) chosen |} in
    order = done ++ rest
    /\ (fund < amount -> rest = [])
    /\ FundBlockStakes order tb w amount
       = if decide (fund < amount) then
           (tb1, w,
            Some (if decide (amount <= totalValue bso_Value seen)
                  then ErrIncompleteTransactions else ErrLowBalance))
         else if decide (amount = fund) then
           (tb1, markSpent w chosen.*1, None)
         else
           match nextPrimarySeedAddress w with
           | (w1, _, Some e) => (tb1, w1, Some e)
           | (w1, refundUnlockHash, None) =>
             (with_transaction tb1
                (set_BlockStakeOutputs (transaction tb1)
                   (BlockStakeOutputs (transaction tb)
                      ++ [{| bso_Value := fund - amount;
                             bso_Condition :=
                               NewUnlockHashCondition refundUnlockHash |}])),
              markSpent w1 chosen.*1, None)
           end.
Proof.
  unfold FundBlockStakes.
  set (ctx := getFulfillableContextForLatestBlock w).
  set (st0 := {| fd_builder := tb; fd_fund := 0; fd_potentialFund := 0;
                 fd_spent := [] |}).
  destruct (fundBlockStakesLoop_run w ctx amount order st0)
    as (done & rest & Hso & Hf & Hp & Hs & Hci & Hsc & Hsame & Hlt).
  exists done, rest. cbn zeta.
  set (st := fundBlockStakesLoop w ctx amount order st0) in *.
  cbn [st0 fd_fund fd_potentialFund fd_spent fd_builder] in *.
  rewrite N.add_0_l in Hf, Hp. rewrite app_nil_l in Hs.
  set (chosen := spendableOf w (fulfillableOf ctx done)) in *.
  assert (Htb : fd_builder st
    = {| parents := parents tb; signed := signed tb;
         transaction :=
           set_BlockStakeInputs (transaction tb)
             (BlockStakeInputs (transaction tb)
                ++ map (fun p => blockStakeInputFor w p.1 p.2) chosen);
         newParents := newParents tb;
         coinInputs := coinInputs tb;
         blockstakeInputs :=
           blockstakeInputs tb
             ++ signContextsFrom
                  (fun o => ConditionUnlockHash (bso_Condition o))
                  (length (BlockStakeInputs (transaction tb))) chosen |}).
  { unfold sameButBlockStakeInputs in Hsame. clear Hlt Hf Hp Hs.
    destruct (fd_builder st) as [ps1 sg1 [v1 ci1 co1 bi1 bo1 mf1 ad1] np1 cs1 bs1].
    destruct tb as [ps0 sg0 [v0 ci0 co0 bi0 bo0 mf0 ad0] np0 cs0 bs0].
    cbn in *. by simplify_eq. }
  split; [exact Hso|]. split; [by rewrite <- Hf|].
  rewrite Htb, Hf, Hp, Hs.
  set (fund := totalValue bso_Value chosen).
  destruct (decide (fund < amount)) as [Hlow|Hhigh].
  - rewrite (proj2 (N.ltb_lt fund amount)) by clia.
    destruct (decide (amount <= totalValue bso_Value (fulfillableOf ctx done)))
      as [Hpot|Hpot].
    + by rewrite (proj2 (N.leb_le amount _)) by clia.
    + by rewrite (proj2 (N.leb_gt amount _)) by clia.
  - rewrite (proj2 (N.ltb_ge fund amount)) by clia.
    rewrite andb_false_r.
    destruct (decide (amount = fund)) as [Heq|Hne].
    + by rewrite (proj2 (N.eqb_eq amount fund)).
    + rewrite (proj2 (N.eqb_neq amount fund)) by done.
      cbn [negb]. by destruct (nextPrimarySeedAddress w) as [[w1 uh] [e|]].
Qed.

Lemma fulfillableOf_app (ctx : FulfillableContext)
    (l1 l2 : list (OutputID * BlockStakeOutput)) :
  fulfillableOf ctx (l1 ++ l2) = fulfillableOf ctx l1 ++ fulfillableOf ctx l2.
Proof. apply List.filter_app. Qed.

(** X23. Go leaves open in which order [FundBlockStakes] ranges over
    the wallet's block stake outputs, but the error it returns does not
    depend on the order: it follows from the total value of the
    fulfillable outputs and from the value of those among them not
    spent recently. It returns [ErrLowBalance] when the total is below
    the amount, [ErrIncompleteTransactions] when the total reaches the
    amount but the part not spent recently does not, and otherwise no
    error, or the error of [nextPrimarySeedAddress] when a refund
    address is needed. A call that fails for the funds leaves the
    wallet as it is, and has added an input for every fulfillable
    output not spent recently. *)
Theorem FundBlockStakes_outcome (order : list (OutputID * BlockStakeOutput))
    (tb : transactionBuilder) (w : Wallet Seed) (amount : Currency) :
  Permutation order (map_to_list (blockstakeOutputs w)) ->
  let outs := fulfillableOf (getFulfillableContextForLatestBlock w)
                (map_to_list (blockstakeOutputs w)) in
  let total := totalValue bso_Value outs in
  let free := totalValue bso_Value (spendableOf w outs) in
  let '(tb', w', err) := FundBlockStakes order tb w amount in
  (total < amount -> err = Some ErrLowBalance)
  /\ (free < amount <= total -> err = Some ErrIncompleteTransactions)
  /\ (amount <= free ->
      err = None \/ err = (nextPrimarySeedAddress w).2 /\ err <> None)
  /\ (free < amount ->
      w' = w
      /\ BlockStakeInputs (transaction tb')
         = BlockStakeInputs (transaction tb)
             ++ map (fun p => blockStakeInputFor w p.1 p.2)
                  (spendableOf w
                     (fulfillableOf (getFulfillableContextForLatestBlock w)
                        order))).
Proof.
  intros Hperm. cbn zeta.
  destruct (FundBlockStakes_run order tb w amount)
    as (done & rest & Hso & Hend & Hrun).
  cbn zeta in *.
  set (ctx := getFulfillableContextForLatestBlock w) in *.
  assert (Hperm' : Permutation (fulfillableOf ctx (map_to_list (blockstakeOutputs w)))
                     (fulfillableOf ctx order))
    by (by apply filter_Permutation').
  rewrite (totalValue_Permutation bso_Value _ _ Hperm').
  rewrite (totalValue_Permutation bso_Value _ _
             (spendableOf_Permutation w _ _ Hperm')).
  rewrite Hrun. clear Hrun Hperm Hperm'.
  rewrite Hso, fulfillableOf_app, spendableOf_app, !totalValue_app.
  pose proof (totalValue_filter_le bso_Value
                (fun p => negb (recentlySpent w p.1)) (fulfillableOf ctx done))
    as Hle1.
  fold (spendableOf w (fulfillableOf ctx done)) in Hle1.
  destruct (decide (totalValue bso_Value
                      (spendableOf w (fulfillableOf ctx done)) < amount))
    as [Hlow|Hhigh].
  - rewrite (Hend Hlow).
    cbn [fulfillableOf spendableOf List.filter totalValue].
    rewrite !N.add_0_r, !app_nil_r.
    destruct (decide (amount <= totalValue bso_Value (fulfillableOf ctx done)));
      repeat apply conj; try done; intros; exfalso; clia.
  - pose proof (totalValue_filter_le bso_Value
                  (fun p => negb (recentlySpent w p.1))
                  (fulfillableOf ctx rest)) as Hle2.
    fold (spendableOf w (fulfillableOf ctx rest)) in Hle2.
    destruct (decide (amount = totalValue bso_Value
                                 (spendableOf w (fulfillableOf ctx done)))).
    { repeat apply conj; try (intros; exfalso; clia). by left. }
    destruct (nextPrimarySeedAddress w) as [[w1 uh] [e|]];
      repeat apply conj; try (intros; exfalso; clia); intros _;
      [by right|by left].
Qed.

(** X24. A [FundBlockStakes] that returns no error has gone through a
    first part of the entries in the order of the range, taking the
    fulfillable ones not spent recently. The transaction has an input
    for each output taken, after the inputs it had, and the builder
    remembers their indices as the ones to sign. The values taken reach
    the amount, and what they exceed it by is the value of one more
    block stake output, to the address from [nextPrimarySeedAddress].
    Every output taken is marked as spent at the wallet's height, and
    [Drop] does not take that mark away, unless the output is also the
    parent of a coin input of the transaction or of its parents. *)
Theorem FundBlockStakes_success (order : list (OutputID * BlockStakeOutput))
    (tb tb' : transactionBuilder) (w w' : Wallet Seed) (amount : Currency) :
  FundBlockStakes order tb w amount = (tb', w', None) ->
  exists done rest : list (OutputID * BlockStakeOutput),
    let chosen :=
      spendableOf w
        (fulfillableOf (getFulfillableContextForLatestBlock w) done) in
    let fund := totalValue bso_Value chosen in
    order = done ++ rest
    /\ BlockStakeInputs (transaction tb')
       = BlockStakeInputs (transaction tb)
           ++ map (fun p => blockStakeInputFor w p.1 p.2) chosen
    /\ (ViewAdded tb').2
       = (ViewAdded tb).2
           ++ seq (length (BlockStakeInputs (transaction tb))) (length chosen)
    /\ amount <= fund
    /\ BlockStakeOutputs (transaction tb')
       = BlockStakeOutputs (transaction tb)
           ++ (if decide (amount = fund) then []
               else [{| bso_Value := fund - amount;
                        bso_Condition :=
                          NewUnlockHashCondition
                            (nextPrimarySeedAddress w).1.2 |}])
    /\ (forall id, id ∈ chosen.*1 ->
        spentOutputs w' !! id = Some (consensusSetHeight w')
        /\ (id ∉ coinParentIDs (parents tb ++ [transaction tb]) ->
            spentOutputs (Drop tb' w').2 !! id
            = Some (consensusSetHeight w'))).
Proof.
  intros Hok.
  destruct (FundBlockStakes_run order tb w amount)
    as (done & rest & Hso & Hend & Hrun).
  cbn zeta in *. exists done, rest. cbn zeta.
  set (chosen := spendableOf w _) in *.
  set (fund := totalValue bso_Value chosen) in *.
  rewrite Hok in Hrun.
  destruct (decide (fund < amount)) as [Hlow|Hhigh]; [discriminate|].
  assert (Hge : amount <= fund) by clia.
  split; [exact Hso|].
  destruct (decide (amount = fund)) as [Heq|Hne].
  - injection Hrun as -> ->. repeat apply conj; try done.
    + cbn. by rewrite map_app, InputIndex_signContextsFrom.
    + cbn. by rewrite app_nil_r.
    + intros id Hin. split; [by rewrite markSpent_lookup, decide_True|].
      intros Hnin.
      cbn [Drop snd with_spentOutputs spentOutputs parents transaction].
      rewrite foldl_delete_lookup, decide_False.
      * by rewrite markSpent_lookup, decide_True.
      * rewrite coinParentIDs_snoc in *. exact Hnin.
  - destruct (nextPrimarySeedAddress w) as [[w1 uh] [e|]]; [discriminate|].
    injection Hrun as -> ->. repeat apply conj; try done.
    + cbn. by rewrite map_app, InputIndex_signContextsFrom.
    + intros id Hin. split; [by rewrite markSpent_lookup, decide_True|].
      intros Hnin.
      cbn [Drop snd with_spentOutputs spentOutputs parents transaction
           with_transaction].
      rewrite foldl_delete_lookup, decide_False.
      * by rewrite markSpent_lookup, decide_True.
      * rewrite coinParentIDs_snoc in *. exact Hnin.
Qed.

End FundingBlockStakes.

Section SignContexts.
Import wallet.
Context `{TypesExternals} {Seed : Type} `{!WalletExternals Seed}.

Lemma signContextsFrom_in_range {A} (u : A -> UnlockHash) (n : nat)
    (chosen : list (OutputID * A)) :
  Forall (fun c => (InputIndex c < n + length chosen)%nat)
    (signContextsFrom u n chosen).
Proof.
  revert n. induction chosen as [|p l IH]; intros n; [constructor|].
  rewrite signContextsFrom_cons. constructor; cbn; [lia|].
  eapply Forall_impl; [apply IH|]. cbn. intros c Hc. lia.
Qed.

Lemma in_range_more (cs : list inputSignContext) (n k : nat) :
  Forall (fun c => (InputIndex c < n)%nat) cs ->
  Forall (fun c => (InputIndex c < n + k)%nat) cs.
Proof. intros Hcs. eapply Forall_impl; [exact Hcs|]. cbn. intros c Hc. lia. Qed.

Lemma in_range_taken {A B} (u : A -> UnlockHash) (f : OutputID * A -> B)
    (cs : list inputSignContext) (inputs : list B)
    (chosen : list (OutputID * A)) :
  Forall (fun c => (InputIndex c < length inputs)%nat) cs ->
  Forall (fun c => (InputIndex c < length (inputs ++ map f chosen))%nat)
    (cs ++ signContextsFrom u (length inputs) chosen).
Proof.
  intros Hcs. rewrite length_app, length_map. apply Forall_app. split.
  - by apply in_range_more.
  - apply signContextsFrom_in_range.
Qed.

Lemma call_in_range (c : builderCall) (tb : transactionBuilder)
    (w : Wallet Seed) :
  signContextsInRange tb -> signContextsInRange (call c (tb, w)).1.
Proof.
  intros [Hc Hb]. destruct c; cbn [call fst]; try (by split).
  - (* FundCoins *)
    destruct (FundCoins_run tb w amount) as (done & rest & _ & _ & _ & ->).
    cbn zeta.
    destruct (decide (_ < amount)); [|destruct (decide (amount = _));
      [|destruct (nextPrimarySeedAddress w) as [[? ?] [?|]]]];
      (split; [by apply in_range_taken|done]).
  - (* FundBlockStakes *)
    destruct (FundBlockStakes_run order tb w amount) as (done & rest & _ & _ & ->).
    cbn zeta.
    destruct (decide (_ < amount)); [|destruct (decide (amount = _));
      [|destruct (nextPrimarySeedAddress w) as [[? ?] [?|]]]];
      (split; [done|by apply in_range_taken]).
  - (* AddCoinInput *)
    split; [|done]. cbn. rewrite length_app. by apply in_range_more.
  - (* AddBlockStakeInput *)
    split; [done|]. cbn. rewrite length_app. by apply in_range_more.
  - (* SpendBlockStake *)
    unfold SpendBlockStake.
    destruct (unspentblockstakeoutputs w !! ubsoid) as [ubso|]; [|by split].
    split; [done|]. cbn. rewrite length_app. apply Forall_app. split.
    + by apply in_range_more.
    + constructor; [cbn; lia|constructor].
Qed.

(** X25. No sequence of calls on a builder makes it remember an index
    to sign that is not the index of an input of its transaction:
    whatever [FundCoins], [FundBlockStakes], [SpendBlockStake],
    [AddParents], the [Add...] methods, [SetArbitraryData] and [Drop]
    are called with, in whatever order, and whether they succeed or
    fail, every index the builder keeps for a coin input (the indices
    [ViewAdded] reports) is below the number of coin inputs, and
    likewise for the block stake inputs. *)
Theorem sign_contexts_stay_in_range (calls : list builderCall)
    (tb : transactionBuilder) (w : Wallet Seed) :
  signContextsInRange tb ->
  signContextsInRange (foldl (fun s c => call c s) (tb, w) calls).1.
Proof.
  revert tb w. induction calls as [|c calls IH]; intros tb w Hin; [done|].
  cbn [foldl]. destruct (call c (tb, w)) as [tb' w'] eqn:E.
  apply IH. change tb' with (tb', w').1. rewrite <- E. by apply call_in_range.
Qed.

End SignContexts.

Section WalletExamples.
Import wallet testing.

Lemma triple_eta {A B C} (r : A * B * C) (c : C) :
  r.2 = c -> r = (r.1.1, r.1.2, c).
Proof. destruct r as [[a b] c']. cbn. by intros ->. Qed.

(** The wallet at height 100 funds 6 coins with the outputs [a] and
    [b], skipping [c], and refunds 2. *)
Lemma FundCoins_success_witness :
  funded6.2 = None
  /\ exists done rest : list (OutputID * CoinOutput),
       sortReverse (coinCandidates wallet100 100) = done ++ rest
       /\ CoinOutputs (transaction funded6.1.1)
          = (if decide (6 = totalValue co_Value (spendableOf wallet100 done))
             then []
             else [{| co_Value :=
                        totalValue co_Value (spendableOf wallet100 done) - 6;
                      co_Condition := (addressOf 3, 0) |}]).
Proof.
  assert (Hok : funded6.2 = None) by (vm_compute; reflexivity).
  split; [exact Hok|].
  destruct (FundCoins_success builder0 funded6.1.1 wallet100 funded6.1.2 6
              (triple_eta funded6 None Hok))
    as (done & rest & Hso & _ & _ & _ & Hout & _).
  exists done, rest. split; [exact Hso|exact Hout].
Defined.

(** Funding 4 coins at height 100 takes [a]. Another builder then
    spends the block stake [s], and the wallet gets to height 120:
    funding 2 coins takes [b], not [a]. *)
Lemma FundCoins_takes_no_marked_output_witness :
  funded4.2 = None
  /\ CoinInputs (transaction funded4.1.1) = [inputA]
  /\ CoinInputs (transaction funded2.1.1) = [inputB]
  /\ spendHeight wallet120 idA = spendHeight funded4.1.2 idA
  /\ ci_ParentID inputA <> ci_ParentID inputB.
Proof.
  assert (Hok : funded4.2 = None) by (vm_compute; reflexivity).
  assert (H1 : CoinInputs (transaction funded4.1.1) = [inputA])
    by (vm_compute; reflexivity).
  assert (H2 : CoinInputs (transaction funded2.1.1) = [inputB])
    by (vm_compute; reflexivity).
  assert (Hkept : spendHeight wallet120 idA = spendHeight funded4.1.2 idA)
    by (vm_compute; reflexivity).
  split; [exact Hok|]. split; [exact H1|]. split; [exact H2|].
  split; [exact Hkept|].
  apply (FundCoins_takes_no_marked_output builder0 funded4.1.1 builder0
           funded2.1.1 wallet100 funded4.1.2 wallet120 funded2.1.2 4 2
           funded2.2 inputA inputB
           (triple_eta funded4 None Hok) (triple_eta funded2 _ eq_refl)).
  - rewrite H1. left.
  - rewrite H2. left.
  - exact Hkept.
  - vm_compute. reflexivity.
  - vm_compute. reflexivity.
  - vm_compute. reflexivity.
Defined.

(** The conditions are needed. When another builder, which was given an
    input for [a] by hand, is dropped after the first call, the mark on
    [a] is gone and the later call takes [a] again; and so it does once
    the wallet is the respend timeout of 40 above the height of the
    first call. *)
Example FundCoins_after_foreign_drop :
  spendHeight droppedWallet idA = 0
  /\ CoinInputs (transaction (FundCoins builder0 droppedWallet 2).1.1)
     = [inputA].
Proof. split; vm_compute; reflexivity. Qed.

Example FundCoins_after_timeout :
  spendHeight (atHeight 140 funded4.1.2) idA = 100
  /\ CoinInputs
       (transaction (FundCoins builder0 (atHeight 140 funded4.1.2) 8).1.1)
     = [{| ci_ParentID := idC; ci_Fulfillment := keyFor 1 |}; inputA].
Proof. split; vm_compute; reflexivity. Qed.

(** The wallet holds 10 block stakes: it cannot fund 11. *)
Lemma FundBlockStakes_outcome_witness :
  Permutation stakeOrder (map_to_list (blockstakeOutputs wallet100))
  /\ (FundBlockStakes stakeOrder builder0 wallet100 11).2 = Some ErrLowBalance.
Proof.
  assert (Hperm : Permutation stakeOrder (map_to_list (blockstakeOutputs wallet100))).
  { unfold wallet100, stakeOrder. cbn [blockstakeOutputs].
    by rewrite insert_empty, map_to_list_singleton. }
  split; [exact Hperm|].
  pose proof (FundBlockStakes_outcome stakeOrder builder0 wallet100 11 Hperm)
    as Hx.
  cbn zeta in Hx.
  destruct (FundBlockStakes stakeOrder builder0 wallet100 11) as [[tb' w'] err].
  destruct Hx as [Hlow _]. apply Hlow. vm_compute. reflexivity.
Defined.

(** Funding 4 block stakes takes the output [s] of 10 and refunds 6. *)
Lemma FundBlockStakes_success_witness :
  staked4.2 = None
  /\ exists done rest : list (OutputID * BlockStakeOutput),
       stakeOrder = done ++ rest
       /\ 4 <= totalValue bso_Value
                 (spendableOf wallet100 (fulfillableOf 100 done)).
Proof.
  assert (Hok : staked4.2 = None) by (vm_compute; reflexivity).
  split; [exact Hok|].
  destruct (FundBlockStakes_success stakeOrder builder0 staked4.1.1 wallet100
              staked4.1.2 4 (triple_eta staked4 None Hok))
    as (done & rest & Hso & _ & _ & Hge & _).
  exists done, rest. split; [exact Hso|exact Hge].
Defined.

(** A started builder funds coins, spends a block stake, is given an
    input by hand and is dropped. *)
Lemma sign_contexts_stay_in_range_witness :
  signContextsInRange builder0
  /\ signContextsInRange
       (foldl (fun s c => call c s) (builder0, wallet100)
          [FundCoinsCall 6; SpendBlockStakeCall idS; AddCoinInputCall inputA;
           FundCoinsCall 1; DropCall; FundCoinsCall 9]).1.
Proof.
  assert (H0 : signContextsInRange builder0) by (split; constructor).
  split; [exact H0|].
  exact (sign_contexts_stay_in_range _ builder0 wallet100 H0).
Defined.

End WalletExamples.

Section GatewayDoubles.
Import gateway testing.

Lemma order2_Permutation :
  Permutation order2 (map_to_list (peers gateway2)).
Proof.
  apply NoDup_Permutation.
  - apply NoDup_cons. split; [|apply NoDup_singleton].
    by intros [= ]%list_elem_of_singleton.
  - apply NoDup_map_to_list.
  - intros [a pr]. rewrite elem_of_map_to_list. unfold order2, gateway2.
    cbn [peers]. split.
    + intros [[= -> ->]|[= -> ->]%list_elem_of_singleton]%elem_of_cons;
        by vm_compute.
    + intros Hl. apply lookup_insert_Some in Hl as [[<- <-]|[_ Hl]];
        [right; left|].
      apply lookup_insert_Some in Hl as [[<- <-]|[_ Hl]]; [left|].
      by rewrite lookup_empty in Hl.
Qed.

Lemma firstOf_inRange : inRange firstOf.
Proof. intros n Hn. exact Hn. Qed.

End GatewayDoubles.

(** ** The gateway's peers *)

Section GatewayPeers.
Import gateway.
Context `{GatewayExternals}.

Lemma order_lookup (g : Gateway) (order : list (NetAddress * peer))
    (a : NetAddress) (pr : peer) :
  Permutation order (map_to_list (peers g)) ->
  (a, pr) ∈ order <-> peers g !! a = Some pr.
Proof. intros Hperm. rewrite Hperm. apply elem_of_map_to_list. Qed.

Lemma kickable_dec (pr : peer) :
  negb (pInbound pr) || pLocal pr = false <-> kickable pr.
Proof.
  unfold kickable. destruct (pInbound pr), (pLocal pr); cbn;
    intuition congruence.
Qed.

Lemma kickCandidates_nonempty (host : string)
    (entries : list (NetAddress * peer)) (addrs : list NetAddress) :
  addrs <> [] -> kickCandidates host entries addrs <> [].
Proof.
  revert addrs. induction entries as [|[a pr] entries IH]; intros addrs Hne;
    cbn; [done|].
  destruct (negb (pInbound pr) || pLocal pr); [by apply IH|].
  destruct (String.eqb (Host a) host); [done|].
  apply IH. by destruct addrs.
Qed.

Lemma kickCandidates_spec (host : string)
    (entries : list (NetAddress * peer)) (addrs : list NetAddress) :
  (forall a, a ∈ kickCandidates host entries addrs ->
     a ∈ addrs \/ exists pr, (a, pr) ∈ entries /\ kickable pr)
  /\ ((exists a pr, (a, pr) ∈ entries /\ kickable pr /\ Host a = host) ->
      exists a pr, kickCandidates host entries addrs = [a]
                   /\ (a, pr) ∈ entries /\ kickable pr /\ Host a = host)
  /\ ((exists a pr, (a, pr) ∈ entries /\ kickable pr) ->
      kickCandidates host entries addrs <> [])
  /\ ((forall a pr, (a, pr) ∈ entries -> ~ kickable pr) ->
      kickCandidates host entries addrs = addrs).
Proof.
  revert addrs. induction entries as [|[a pr] entries IH]; intros addrs; cbn.
  { repeat apply conj.
    - intros a Ha. by left.
    - intros (a & pr & Hin & _). by apply elem_of_nil in Hin.
    - intros (a & pr & Hin & _). by apply elem_of_nil in Hin.
    - done. }
  destruct (negb (pInbound pr) || pLocal pr) eqn:Hk.
  - assert (Hnk : ~ kickable pr).
    { intros Hc%kickable_dec. congruence. }
    destruct (IH addrs) as (IH1 & IH2 & IH3 & IH4).
    repeat apply conj.
    + intros b Hb. destruct (IH1 b Hb) as [?|(pr' & Hin & Hkk)]; [by left|].
      right. exists pr'. split; [by right|done].
    + intros (b & pr' & Hin & Hkk & Hh).
      apply elem_of_cons in Hin as [[= -> ->]|Hin]; [done|].
      destruct IH2 as (c & pc & E & Hc & Hkc & Hhc); [by exists b, pr'|].
      exists c, pc. split; [done|]. split; [by right|]. done.
    + intros (b & pr' & Hin & Hkk).
      apply elem_of_cons in Hin as [[= -> ->]|Hin]; [done|].
      apply IH3. by exists b, pr'.
    + intros Hno. apply IH4. intros b pb Hb. apply (Hno b pb). by right.
  - apply kickable_dec in Hk.
    destruct (String.eqb (Host a) host) eqn:Hh.
    + apply String.eqb_eq in Hh.
      repeat apply conj.
      * intros b Hb. apply list_elem_of_singleton in Hb as ->.
        right. exists pr. split; [left|done].
      * intros _. exists a, pr. split; [done|]. split; [left|]. done.
      * done.
      * intros Hno. exfalso. apply (Hno a pr); [left|done].
    + apply String.eqb_neq in Hh.
      destruct (IH (addrs ++ [a])) as (IH1 & IH2 & IH3 & IH4).
      repeat apply conj.
      * intros b Hb. destruct (IH1 b Hb) as [Hb'|(pr' & Hin & Hkk)].
        -- apply elem_of_app in Hb' as [?|Hb']; [by left|].
           apply list_elem_of_singleton in Hb' as ->.
           right. exists pr. split; [left|done].
        -- right. exists pr'. split; [by right|done].
      * intros (b & pr' & Hin & Hkk & Hhb).
        apply elem_of_cons in Hin as [[= -> ->]|Hin]; [done|].
        destruct IH2 as (c & pc & E & Hc & Hkc & Hhc); [by exists b, pr'|].
        exists c, pc. split; [done|]. split; [by right|]. done.
      * intros _. apply kickCandidates_nonempty. by destruct addrs.
      * intros Hno. exfalso. apply (Hno a pr); [left|done].
Qed.

(** What a call of [acceptPeer] does, in terms of the peer it kicks. *)
Lemma acceptPeer_run (order : list (NetAddress * peer)) (Intn : nat -> nat)
    (g : Gateway) (p : peer) :
  Permutation order (map_to_list (peers g)) ->
  inRange Intn ->
  exists kicked : option (NetAddress * peer),
    acceptPeer order Intn g p
    = Ret (addPeer
             match kicked with
             | None => g
             | Some (kick, pk) =>
               {| peers := delete kick (peers g); nodes := nodes g;
                  port := port g;
                  closedSessions := closedSessions g ++ [sess pk];
                  listenedPeers := listenedPeers g |}
             end p)
    /\ match kicked with
       | None =>
         (size (peers g) < fullyConnectedThreshold)%nat
         \/ forall a pr, peers g !! a = Some pr -> ~ kickable pr
       | Some (kick, pk) =>
         (fullyConnectedThreshold <= size (peers g))%nat
         /\ peers g !! kick = Some pk /\ kickable pk
         /\ ((exists a pr, peers g !! a = Some pr /\ kickable pr
                           /\ Host a = Host (pNetAddress p)) ->
             Host kick = Host (pNetAddress p))
       end.
Proof.
  intros Hperm Hintn. unfold acceptPeer.
  destruct (size (peers g) <? fullyConnectedThreshold)%nat eqn:Hfull.
  { exists None. split; [done|]. left. by apply Nat.ltb_lt. }
  apply Nat.ltb_ge in Hfull.
  set (host := Host (pNetAddress p)).
  destruct (kickCandidates_spec host order []) as (Hin & Hsame & Hsome & Hnone).
  destruct (kickCandidates host order []) as [|a0 addrs] eqn:Hk.
  { exists None. split; [done|]. right. intros a pr Ha Hkk.
    apply Hsome; [|done]. exists a, pr. split; [|done].
    by apply (order_lookup g). }
  cbn [length Nat.eqb].
  destruct ((a0 :: addrs) !! Intn (S (length addrs))) as [kick|] eqn:Hpick.
  2:{ apply lookup_ge_None in Hpick. cbn in Hpick.
      pose proof (Hintn (S (length addrs))). lia. }
  apply list_elem_of_lookup_2 in Hpick.
  destruct (Hin kick Hpick) as [Hnil|(pk & Hpk & Hkk)];
    [by apply elem_of_nil in Hnil|].
  apply (order_lookup g) in Hpk; [|done]. rewrite Hpk.
  exists (Some (kick, pk)). split; [done|].
  split; [done|]. split; [done|]. split; [done|].
  intros (a & pr & Ha & Hka & Hha).
  destruct Hsame as (c & pc & E & _ & _ & Hhc).
  { exists a, pr. split; [|done]. by apply (order_lookup g). }
  injection E as -> ->. by apply list_elem_of_singleton in Hpick as ->.
Qed.

(** X26. [acceptPeer] returns with the peer in the peer list under its
    address and with a listener started for it, and for no other peer.
    It closes the session of at most one peer, the one it removes from
    the list: an inbound peer that is not local, chosen only when the
    gateway is fully connected, and one with the host of the new peer
    when such a peer can be kicked. Every other peer stays in the list
    as it is, unless it has the address of the new peer. *)
Theorem acceptPeer_kicks_at_most_one (order : list (NetAddress * peer))
    (Intn : nat -> nat) (g : Gateway) (p : peer) :
  Permutation order (map_to_list (peers g)) ->
  inRange Intn ->
  exists g' : Gateway,
    acceptPeer order Intn g p = Ret g'
    /\ peers g' !! pNetAddress p = Some p
    /\ listenedPeers g' = listenedPeers g ++ [p]
    /\ nodes g' = nodes g
    /\ ((closedSessions g' = closedSessions g
         /\ forall a, a <> pNetAddress p -> peers g' !! a = peers g !! a)
        \/ exists kick pk,
             peers g !! kick = Some pk /\ kickable pk
             /\ (fullyConnectedThreshold <= size (peers g))%nat
             /\ closedSessions g' = closedSessions g ++ [sess pk]
             /\ (kick <> pNetAddress p -> peers g' !! kick = None)
             /\ (forall a, a <> pNetAddress p -> a <> kick ->
                 peers g' !! a = peers g !! a)
             /\ ((exists a pr, peers g !! a = Some pr /\ kickable pr
                               /\ Host a = Host (pNetAddress p)) ->
                 Host kick = Host (pNetAddress p))).
Proof.
  intros Hperm Hintn.
  destruct (acceptPeer_run order Intn g p Hperm Hintn)
    as ([[kick pk]|] & -> & Hk).
  - destruct Hk as (Hfull & Hpk & Hkk & Hsame).
    eexists. split; [done|]. cbn.
    split; [apply lookup_insert_eq|]. split; [done|]. split; [done|].
    right. exists kick, pk.
    split; [done|]. split; [done|]. split; [done|]. split; [done|].
    split; [|split; [|done]].
    + intros Hne. rewrite lookup_insert_ne by done. apply lookup_delete_eq.
    + intros a Hne1 Hne2.
      rewrite lookup_insert_ne by done. by apply lookup_delete_ne.
  - eexists. split; [done|]. cbn.
    split; [apply lookup_insert_eq|]. split; [done|]. split; [done|].
    left. split; [done|]. intros a Hne. by apply lookup_insert_ne.
Qed.

(** X27. [acceptPeer] lets the peer list grow by one peer at most, and
    not at all when the gateway is fully connected and holds an inbound
    peer that is not local: the list then keeps its size, or gets one
    smaller when the new peer takes the place of a peer of its own
    address and another one is kicked. *)
Theorem acceptPeer_bounds_peers (order : list (NetAddress * peer))
    (Intn : nat -> nat) (g : Gateway) (p : peer) :
  Permutation order (map_to_list (peers g)) ->
  inRange Intn ->
  exists g' : Gateway,
    acceptPeer order Intn g p = Ret g'
    /\ (size (peers g') <= S (size (peers g)))%nat
    /\ ((fullyConnectedThreshold <= size (peers g))%nat ->
        (exists a pr, peers g !! a = Some pr /\ kickable pr) ->
        (size (peers g) - 1 <= size (peers g') <= size (peers g))%nat).
Proof.
  intros Hperm Hintn.
  destruct (acceptPeer_run order Intn g p Hperm Hintn)
    as ([[kick pk]|] & -> & Hk).
  - destruct Hk as (Hfull & Hpk & Hkk & Hsame).
    eexists. split; [done|]. cbn.
    pose proof (map_size_delete kick (peers g)) as Hd. rewrite Hpk in Hd.
    assert (Hpos : (0 < size (peers g))%nat).
    { destruct (decide (size (peers g) = 0%nat)) as [E|]; [|lia].
      apply map_size_empty_inv in E. rewrite E in Hpk.
      by rewrite lookup_empty in Hpk. }
    pose proof (map_size_insert (pNetAddress p) p (delete kick (peers g)))
      as Hi.
    destruct (delete kick (peers g) !! pNetAddress p); unfold id in Hi;
      rewrite Hi, Hd; (split; [lia|intros _ _; lia]).
  - eexists. split; [done|]. cbn.
    pose proof (map_size_insert (pNetAddress p) p (peers g)) as Hi.
    split; [destruct (peers g !! pNetAddress p); unfold id in Hi; lia|].
    intros Hfull (a & pr & Ha & Hkk).
    destruct Hk as [Hlt|Hno]; [lia|]. by destruct (Hno a pr).
Qed.

(** X28. [randomOutboundPeer] returns [errNoPeers], with the empty
    address, exactly when every peer of the gateway is inbound;
    otherwise it returns the address of a peer of the gateway that is
    not inbound, and no error. *)
Theorem randomOutboundPeer_is_outbound (order : list (NetAddress * peer))
    (Intn : nat -> nat) (g : Gateway) :
  Permutation order (map_to_list (peers g)) ->
  inRange Intn ->
  exists (addr : NetAddress) (err : option gerror),
    randomOutboundPeer order Intn = Ret (addr, err)
    /\ (err = None ->
        exists pr, peers g !! addr = Some pr /\ pInbound pr = false)
    /\ (err <> None ->
        err = Some errNoPeers /\ addr = ""%string
        /\ forall a pr, peers g !! a = Some pr -> pInbound pr = true)
    /\ (err = None <->
        exists a pr, peers g !! a = Some pr /\ pInbound pr = false).
Proof.
  intros Hperm Hintn. unfold randomOutboundPeer.
  set (out := List.filter (fun ap => negb (pInbound ap.2)) order).
  assert (Hout : forall a pr,
            (a, pr) ∈ out <-> peers g !! a = Some pr /\ pInbound pr = false).
  { intros a pr. unfold out.
    rewrite list_elem_of_In, List.filter_In, <- list_elem_of_In.
    rewrite (order_lookup g) by done. cbn. by rewrite negb_true_iff. }
  rewrite length_map.
  destruct out as [|[a0 p0] out'] eqn:E.
  { exists ""%string, (Some errNoPeers). cbn. split; [done|].
    assert (Hall : forall a pr, peers g !! a = Some pr -> pInbound pr = true).
    { intros a pr Ha. destruct (pInbound pr) eqn:Hi; [done|].
      assert (Hin : (a, pr) ∈ []) by (by apply Hout). by apply elem_of_nil in Hin. }
    repeat apply conj; try done.
    intros (a & pr & Ha & Hi). rewrite (Hall a pr Ha) in Hi. done. }
  cbn [length Nat.eqb]. rewrite <- E.
  assert (Hlen : length (map fst out) = S (length out'))
    by (by rewrite length_map, E).
  destruct (map fst out !! Intn (S (length out'))) as [addr|] eqn:Hpick.
  2:{ apply lookup_ge_None in Hpick.
      pose proof (Hintn (S (length out'))). lia. }
  apply list_elem_of_lookup_2, list_elem_of_fmap in Hpick
    as ([a pr] & -> & Hin).
  rewrite E in Hin. apply Hout in Hin.
  exists a, None. cbn. repeat apply conj; try done.
  - intros _. by exists pr.
  - intros _. by exists a, pr.
Qed.

(** X29. [Disconnect] returns the error of [threads.Add] when there is
    one, and an error when the gateway has no peer of the address; in
    both cases it changes nothing. Otherwise it returns no error,
    closes the session of that peer and of no other, and removes the
    address from the peer list and from the node list, leaving every
    other peer and node in place; disconnecting the address again then
    fails. *)
Theorem Disconnect_removes_peer_and_node (threadsAdd : option gerror)
    (g : Gateway) (addr : NetAddress) :
  let (g', err) := Disconnect threadsAdd g addr in
  match threadsAdd, peers g !! addr with
  | Some e, _ => err = Some e /\ g' = g
  | None, None => err = Some (errorText "not connected to that node") /\ g' = g
  | None, Some p =>
    err = None
    /\ closedSessions g' = closedSessions g ++ [sess p]
    /\ listenedPeers g' = listenedPeers g
    /\ peers g' !! addr = None /\ nodes g' !! addr = None
    /\ (forall a, a <> addr ->
        peers g' !! a = peers g !! a /\ nodes g' !! a = nodes g !! a)
    /\ Disconnect None g' addr
       = (g', Some (errorText "not connected to that node"))
  end.
Proof.
  unfold Disconnect. destruct threadsAdd as [e|]; [done|].
  destruct (peers g !! addr) as [p|] eqn:Hp; [|done].
  cbn. rewrite !lookup_delete_eq.
  repeat apply conj; try done.
  - intros a Hne. by rewrite !lookup_delete_ne.
Qed.

(** X30. [acceptConnSessionHandshakeV102] rejects no address: it
    returns an error exactly when writing the gateway's own address
    fails, and always returns the address as it was read. When the
    address read is not valid (or could not be read and what is left is
    not valid), it writes "reject" and then still writes its own
    address, and returns that address without error if this last write
    succeeds. *)
Theorem accept_v102_rejects_no_address (g : Gateway) (conn : Conn) :
  let '(conn', remoteAddress, err) := acceptConnSessionHandshakeV102 g conn in
  let '(conn1, read, _) := ReadNetAddress conn in
  let conn2 := match IsStdValid read with
               | Some _ => (WriteObject conn1 "reject").1
               | None => conn1
               end in
  let written := WriteObject conn2 (JoinHostPort (LocalHost conn2) (port g)) in
  remoteAddress = read
  /\ conn' = written.1
  /\ (err = None <-> written.2 = None)
  /\ (forall e, written.2 = Some e ->
      err = Some (errorText ("could not write address: " ++ e))).
Proof.
  unfold acceptConnSessionHandshakeV102.
  destruct (ReadNetAddress conn) as [[conn1 read] rerr].
  destruct (IsStdValid read) as [ve|];
    destruct (WriteObject _ (JoinHostPort _ _)) as [conn3 [we|]]; cbn;
    repeat apply conj; try done; by intros ? [= <-].
Qed.

End GatewayPeers.

Section GatewayExamples.
Import gateway testing.

(** A fully connected gateway takes a new inbound peer from 10.0.0.2
    and kicks the inbound peer it has from that host. *)
Lemma acceptPeer_kicks_at_most_one_witness :
  Permutation order2 (map_to_list (peers gateway2))
  /\ inRange firstOf
  /\ exists g' : Gateway,
       acceptPeer order2 firstOf gateway2 peer7 = Ret g'
       /\ peers g' !! "10.0.0.2:7"%string = Some peer7
       /\ listenedPeers g' = [peer7].
Proof.
  split; [exact order2_Permutation|]. split; [exact firstOf_inRange|].
  destruct (acceptPeer_kicks_at_most_one order2 firstOf gateway2 peer7
              order2_Permutation firstOf_inRange)
    as (g' & Hrun & Hp & Hl & _).
  exists g'. split; [exact Hrun|]. split; [exact Hp|exact Hl].
Defined.

Lemma acceptPeer_bounds_peers_witness :
  Permutation order2 (map_to_list (peers gateway2))
  /\ inRange firstOf
  /\ exists g' : Gateway,
       acceptPeer order2 firstOf gateway2 peer7 = Ret g'
       /\ (1 <= size (peers g') <= 2)%nat.
Proof.
  split; [exact order2_Permutation|]. split; [exact firstOf_inRange|].
  destruct (acceptPeer_bounds_peers order2 firstOf gateway2 peer7
              order2_Permutation firstOf_inRange)
    as (g' & Hrun & _ & Hsize).
  exists g'. split; [exact Hrun|].
  apply Hsize.
  - vm_compute. lia.
  - exists "10.0.0.2:1"%string, peer2. split; [reflexivity|]. by split.
Defined.

Lemma randomOutboundPeer_is_outbound_witness :
  Permutation order2 (map_to_list (peers gateway2))
  /\ inRange firstOf
  /\ exists (addr : NetAddress) (err : option gerror),
       randomOutboundPeer order2 firstOf = Ret (addr, err)
       /\ (err = None <->
           exists a pr, peers gateway2 !! a = Some pr /\ pInbound pr = false).
Proof.
  split; [exact order2_Permutation|]. split; [exact firstOf_inRange|].
  destruct (randomOutboundPeer_is_outbound order2 firstOf gateway2
              order2_Permutation firstOf_inRange)
    as (addr & err & Hrun & _ & _ & Hiff).
  exists addr, err. split; [exact Hrun|exact Hiff].
Defined.

End GatewayExamples.
